(** * alloc.h: a pluggable allocator layer, embedded in Rocq

    Shallow embedding of [src/alloc.h]: the alignment utility, the allocator
    interface and the arena, pool, stack, scratch and freelist strategies.

    Conventions of the embedding (LP64 target):
    - [size_t], [uintptr_t] and every pointer are 64-bit unsigned integers,
      modelled as [Z] with the wrap-around of each C operation written out
      with [wrap];
    - [NULL] is the address [0];
    - memory is a byte-addressed finite map; a pointer-sized load or store
      is eight little-endian bytes;
    - every C function becomes a function from the fields it reads (and the
      memory, when it dereferences a pointer) to its result and the fields it
      writes;
    - the platform allocator ([c_allocator], a pass-through to [malloc],
      [realloc] and [free]) is outside the embedding: a backing allocator is
      any value of the interface record whose state is a context together
      with the memory;
    - the one loop without a bound known on entry, the freelist's search of
      its chain, takes a number of iterations it may use and returns [None]
      when they do not suffice. *)

From Stdlib Require Import Sorting.Sorted.
From stdpp Require Import base numbers option list gmap.

Local Open Scope Z_scope.

(** ** Machine integers *)

Definition SIZE_MAX_plus_1 : Z := 2 ^ 64.

(** Result of a [size_t] operation: reduction modulo 2^64. *)
Definition wrap (x : Z) : Z := x mod SIZE_MAX_plus_1.

(** [sizeof(void * )] *)
Definition sizeof_ptr : Z := 8.

(** The null pointer. *)
Definition NULL : Z := 0.

(** ** Memory: bytes, words and [memcpy] *)

Abbreviation memory := (gmap Z Z).

Definition load_byte (m : memory) (a : Z) : Z := default 0 (m !! a).

Definition store_byte (m : memory) (a v : Z) : memory := <[a := v mod 256]> m.

Fixpoint load_bytes (n : nat) (m : memory) (a : Z) : Z :=
  match n with
  | O => 0
  | S k => load_byte m a mod 256 + 256 * load_bytes k m (a + 1)
  end.

Fixpoint store_bytes (n : nat) (m : memory) (a v : Z) : memory :=
  match n with
  | O => m
  | S k => store_bytes k (store_byte m a v) (a + 1) (v / 256)
  end.

(** [*(size_t * )a] and [*(void ** )a]. *)
Definition load_word (m : memory) (a : Z) : Z := load_bytes 8 m a.

(** [*(size_t * )a = v]. *)
Definition store_word (m : memory) (a v : Z) : memory := store_bytes 8 m a v.

Fixpoint memcpy_bytes (k : nat) (from m : memory) (dst src : Z) : memory :=
  match k with
  | O => m
  | S k' =>
      memcpy_bytes k' from (store_byte m dst (load_byte from src)) (dst + 1) (src + 1)
  end.

(** [memcpy(dst, src, n)]: the source bytes are read from the memory as it
    was on entry (the two ranges may not overlap in C). *)
Definition memcpy (m : memory) (dst src n : Z) : memory :=
  memcpy_bytes (Z.to_nat n) m m dst src.

(** [old_size < new_size ? old_size : new_size] *)
Definition min_size (old_size new_size : Z) : Z :=
  if old_size <? new_size then old_size else new_size.

(** ** The allocator interface

    [struct allocator] is a table of three function pointers and a context
    pointer.  The context (and the memory it manages) is the state [S] that
    the three entries thread. *)

Record allocator (S : Type) := {
  alloc : S -> Z -> Z -> Z * S;
  realloc : S -> Z -> Z -> Z -> Z -> Z * S;
  free : S -> Z -> Z -> S
}.
Arguments alloc {S}.
Arguments realloc {S}.
Arguments free {S}.

Definition alloc_alloc {S} (a : allocator S) (s : S) (size alignment : Z) : Z * S :=
  alloc a s size alignment.

Definition alloc_realloc {S} (a : allocator S) (s : S)
    (ptr old_size new_size alignment : Z) : Z * S :=
  realloc a s ptr old_size new_size alignment.

Definition alloc_free {S} (a : allocator S) (s : S) (ptr size : Z) : S :=
  free a s ptr size.

Definition alloc_alloc_aligned {S} (a : allocator S) (s : S) (size alignment : Z) : Z * S :=
  alloc_alloc a s size alignment.

Definition alloc_create {S} (a : allocator S) (s : S) (size : Z) : Z * S :=
  alloc_alloc a s size sizeof_ptr.

Definition alloc_create_array {S} (a : allocator S) (s : S) (count elem_size : Z) : Z * S :=
  alloc_alloc a s (wrap (count * elem_size)) sizeof_ptr.

Definition alloc_destroy {S} (a : allocator S) (s : S) (ptr size : Z) : S :=
  alloc_free a s ptr size.

(** ** Alignment utility *)

Definition align_forward (ptr alignment : Z) : Z :=
  let modulo := Z.land ptr (wrap (alignment - 1)) in
  if modulo =? 0 then ptr else wrap (ptr + wrap (alignment - modulo)).

(** ** Arena allocator *)

Record arena_allocator := {
  arena_buffer : Z;
  arena_buffer_size : Z;
  arena_offset : Z;
  arena_backing : Z
}.

Definition arena_set_offset (arena : arena_allocator) (offset : Z) : arena_allocator :=
  {| arena_buffer := arena_buffer arena;
     arena_buffer_size := arena_buffer_size arena;
     arena_offset := offset;
     arena_backing := arena_backing arena |}.

Definition arena_allocator_alloc (arena : arena_allocator) (size alignment : Z)
    : Z * arena_allocator :=
  let aligned_offset := align_forward (arena_offset arena) alignment in
  if wrap (aligned_offset + size) >? arena_buffer_size arena then (NULL, arena)
  else
    let ptr := wrap (arena_buffer arena + aligned_offset) in
    (ptr, arena_set_offset arena (wrap (aligned_offset + size))).

Definition arena_allocator_realloc (arena : arena_allocator) (m : memory)
    (ptr old_size new_size alignment : Z) : Z * (arena_allocator * memory) :=
  if ptr =? NULL then
    let '(p, arena') := arena_allocator_alloc arena new_size alignment in
    (p, (arena', m))
  else
    let in_place :=
      if wrap (ptr + old_size) =? wrap (arena_buffer arena + arena_offset arena) then
        let aligned_offset := align_forward (wrap (ptr - arena_buffer arena)) alignment in
        if wrap (aligned_offset + new_size) <=? arena_buffer_size arena
        then Some (wrap (aligned_offset + new_size))
        else None
      else None in
    match in_place with
    | Some offset' => (ptr, (arena_set_offset arena offset', m))
    | None =>
        let '(new_ptr, arena') := arena_allocator_alloc arena new_size alignment in
        if negb (new_ptr =? NULL) && negb (ptr =? NULL)
        then (new_ptr, (arena', memcpy m new_ptr ptr (min_size old_size new_size)))
        else (new_ptr, (arena', m))
    end.

Definition arena_allocator_free (arena : arena_allocator) (ptr size : Z) : arena_allocator :=
  arena.

Definition arena_allocator_reset (arena : arena_allocator) : arena_allocator :=
  arena_set_offset arena 0.

Definition arena_allocator_init (buffer size : Z) : arena_allocator :=
  {| arena_buffer := buffer;
     arena_buffer_size := size;
     arena_offset := 0;
     arena_backing := NULL |}.

Definition arena_allocator_get : allocator (arena_allocator * memory) := {|
  alloc := fun '(arena, m) size alignment =>
    let '(p, arena') := arena_allocator_alloc arena size alignment in (p, (arena', m));
  realloc := fun '(arena, m) ptr old_size new_size alignment =>
    arena_allocator_realloc arena m ptr old_size new_size alignment;
  free := fun '(arena, m) ptr size => (arena_allocator_free arena ptr size, m)
|}.

(** ** Pool allocator

    The free chain is threaded through the unused chunks: the first
    pointer-sized word of a free chunk holds the address of the next one. *)

Record pool_allocator := {
  pool_buffer : Z;
  pool_chunk_size : Z;
  pool_chunk_count : Z;
  pool_free_list : Z;
  pool_backing : Z
}.

Definition pool_set_free_list (pool : pool_allocator) (head : Z) : pool_allocator :=
  {| pool_buffer := pool_buffer pool;
     pool_chunk_size := pool_chunk_size pool;
     pool_chunk_count := pool_chunk_count pool;
     pool_free_list := head;
     pool_backing := pool_backing pool |}.

Definition pool_allocator_alloc (pool : pool_allocator) (m : memory) (size alignment : Z)
    : Z * pool_allocator :=
  if size >? pool_chunk_size pool then (NULL, pool)
  else if pool_free_list pool =? NULL then (NULL, pool)
  else
    let ptr := pool_free_list pool in
    (ptr, pool_set_free_list pool (load_word m (pool_free_list pool))).

Definition pool_allocator_free (pool : pool_allocator) (m : memory) (ptr size : Z)
    : pool_allocator * memory :=
  if ptr =? NULL then (pool, m)
  else
    let free_node := ptr in
    (pool_set_free_list pool free_node, store_word m free_node (pool_free_list pool)).

Definition pool_allocator_realloc (pool : pool_allocator) (m : memory)
    (ptr old_size new_size alignment : Z) : Z * (pool_allocator * memory) :=
  if (new_size <=? pool_chunk_size pool) && (old_size <=? pool_chunk_size pool)
  then (ptr, (pool, m))
  else
    let '(new_ptr, pool') := pool_allocator_alloc pool m new_size alignment in
    if negb (new_ptr =? NULL) && negb (ptr =? NULL) then
      let m' := memcpy m new_ptr ptr (min_size old_size new_size) in
      (new_ptr, pool_allocator_free pool' m' ptr old_size)
    else (new_ptr, (pool', m)).

(** One iteration of the threading loop of [pool_allocator_init]. *)
Definition pool_init_step (chunk_size chunk_count : Z)
    (st : pool_allocator * memory) (i : Z) : pool_allocator * memory :=
  let '(pool, m) := st in
  let chunk := wrap (pool_buffer pool + wrap (wrap (chunk_count - 1 - i) * chunk_size)) in
  let free_node := chunk in
  (pool_set_free_list pool free_node, store_word m free_node (pool_free_list pool)).

Definition pool_allocator_init (m : memory) (buffer chunk_size chunk_count : Z)
    : pool_allocator * memory :=
  let pool := {| pool_buffer := buffer;
                 pool_chunk_size := chunk_size;
                 pool_chunk_count := chunk_count;
                 pool_free_list := NULL;
                 pool_backing := NULL |} in
  foldl (pool_init_step chunk_size chunk_count) (pool, m) (seqZ 0 chunk_count).

Definition pool_allocator_get : allocator (pool_allocator * memory) := {|
  alloc := fun '(pool, m) size alignment =>
    let '(p, pool') := pool_allocator_alloc pool m size alignment in (p, (pool', m));
  realloc := fun '(pool, m) ptr old_size new_size alignment =>
    pool_allocator_realloc pool m ptr old_size new_size alignment;
  free := fun '(pool, m) ptr size => pool_allocator_free pool m ptr size
|}.

(** ** Stack allocator *)

Record stack_allocator := {
  stack_buffer : Z;
  stack_buffer_size : Z;
  stack_offset : Z;
  stack_backing : Z
}.

Record stack_marker := { marker_offset : Z }.

Definition stack_set_offset (stack : stack_allocator) (offset : Z) : stack_allocator :=
  {| stack_buffer := stack_buffer stack;
     stack_buffer_size := stack_buffer_size stack;
     stack_offset := offset;
     stack_backing := stack_backing stack |}.

Definition stack_allocator_alloc (stack : stack_allocator) (size alignment : Z)
    : Z * stack_allocator :=
  let aligned_offset := align_forward (stack_offset stack) alignment in
  if wrap (aligned_offset + size) >? stack_buffer_size stack then (NULL, stack)
  else
    let ptr := wrap (stack_buffer stack + aligned_offset) in
    (ptr, stack_set_offset stack (wrap (aligned_offset + size))).

Definition stack_allocator_realloc (stack : stack_allocator) (m : memory)
    (ptr old_size new_size alignment : Z) : Z * (stack_allocator * memory) :=
  if ptr =? NULL then
    let '(p, stack') := stack_allocator_alloc stack new_size alignment in
    (p, (stack', m))
  else
    let in_place :=
      if wrap (ptr + old_size) =? wrap (stack_buffer stack + stack_offset stack) then
        let aligned_offset := align_forward (wrap (ptr - stack_buffer stack)) alignment in
        if wrap (aligned_offset + new_size) <=? stack_buffer_size stack
        then Some (wrap (aligned_offset + new_size))
        else None
      else None in
    match in_place with
    | Some offset' => (ptr, (stack_set_offset stack offset', m))
    | None =>
        let '(new_ptr, stack') := stack_allocator_alloc stack new_size alignment in
        if negb (new_ptr =? NULL) && negb (ptr =? NULL)
        then (new_ptr, (stack', memcpy m new_ptr ptr (min_size old_size new_size)))
        else (new_ptr, (stack', m))
    end.

Definition stack_allocator_free (stack : stack_allocator) (ptr size : Z) : stack_allocator :=
  if ptr =? NULL then stack
  else if wrap (ptr + size) =? wrap (stack_buffer stack + stack_offset stack)
  then stack_set_offset stack (wrap (ptr - stack_buffer stack))
  else stack.

Definition stack_allocator_init (buffer size : Z) : stack_allocator :=
  {| stack_buffer := buffer;
     stack_buffer_size := size;
     stack_offset := 0;
     stack_backing := NULL |}.

Definition stack_allocator_mark (stack : stack_allocator) : stack_marker :=
  {| marker_offset := stack_offset stack |}.

Definition stack_allocator_restore (stack : stack_allocator) (marker : stack_marker)
    : stack_allocator :=
  stack_set_offset stack (marker_offset marker).

Definition stack_allocator_reset (stack : stack_allocator) : stack_allocator :=
  stack_set_offset stack 0.

Definition stack_allocator_get : allocator (stack_allocator * memory) := {|
  alloc := fun '(stack, m) size alignment =>
    let '(p, stack') := stack_allocator_alloc stack size alignment in (p, (stack', m));
  realloc := fun '(stack, m) ptr old_size new_size alignment =>
    stack_allocator_realloc stack m ptr old_size new_size alignment;
  free := fun '(stack, m) ptr size => (stack_allocator_free stack ptr size, m)
|}.

(** ** Scratch allocator

    A decorator over a backing allocator [bk].  The backing allocator's
    state is its context [Ctx] together with the memory, as for every
    strategy above.  The tracking array [allocations] is an object the
    backing allocator handed out: its cells are read from and written to
    the same memory the backing allocator works on, so whatever the backing
    allocator writes there is what the scratch allocator reads next. *)

Record scratch_allocator := {
  scratch_allocations : Z;
  scratch_allocation_count : Z;
  scratch_allocation_capacity : Z
}.

(** [&scratch->allocations[i]] *)
Definition scratch_cell_addr (scratch : scratch_allocator) (i : Z) : Z :=
  wrap (scratch_allocations scratch + i * sizeof_ptr).

(** [scratch->allocations[i]] *)
Definition scratch_cell (scratch : scratch_allocator) (m : memory) (i : Z) : Z :=
  load_word m (scratch_cell_addr scratch i).

(** The tracked sequence: the cells below [allocation_count], as the memory
    holds them. *)
Definition scratch_tracked (scratch : scratch_allocator) (m : memory) : list Z :=
  scratch_cell scratch m <$> seqZ 0 (scratch_allocation_count scratch).

Definition scratch_set_count (scratch : scratch_allocator) (count : Z) : scratch_allocator :=
  {| scratch_allocations := scratch_allocations scratch;
     scratch_allocation_count := count;
     scratch_allocation_capacity := scratch_allocation_capacity scratch |}.

(** [scratch->allocations = new_allocations;
     scratch->allocation_capacity = new_capacity] *)
Definition scratch_grown (scratch : scratch_allocator) (new_allocations new_capacity : Z)
    : scratch_allocator :=
  {| scratch_allocations := new_allocations;
     scratch_allocation_count := scratch_allocation_count scratch;
     scratch_allocation_capacity := new_capacity |}.

(** [scratch->allocations[scratch->allocation_count++] = ptr] *)
Definition scratch_push {Ctx : Type} (scratch : scratch_allocator) (b : Ctx * memory) (ptr : Z)
    : scratch_allocator * (Ctx * memory) :=
  (scratch_set_count scratch (wrap (scratch_allocation_count scratch + 1)),
   (b.1, store_word b.2 (scratch_cell_addr scratch (scratch_allocation_count scratch)) ptr)).

(** The scan of [scratch_allocator_realloc]: [k] iterations are left, [i]
    is the loop index. *)
Fixpoint scratch_replace_first (k : nat) (i : Z) (scratch : scratch_allocator) (m : memory)
    (ptr new_ptr : Z) : memory :=
  match k with
  | O => m
  | S k' =>
      if scratch_cell scratch m i =? ptr
      then store_word m (scratch_cell_addr scratch i) new_ptr
      else scratch_replace_first k' (i + 1) scratch m ptr new_ptr
  end.

Section scratch.
Context {Ctx : Type} (bk : allocator (Ctx * memory)).

Definition scratch_allocator_alloc (scratch : scratch_allocator) (b : Ctx * memory)
    (size alignment : Z) : Z * (scratch_allocator * (Ctx * memory)) :=
  let '(ptr, b1) := alloc_alloc bk b size alignment in
  if ptr =? NULL then (NULL, (scratch, b1))
  else if scratch_allocation_count scratch >=? scratch_allocation_capacity scratch then
    let new_capacity :=
      if scratch_allocation_capacity scratch =? 0 then 8
      else wrap (scratch_allocation_capacity scratch * 2) in
    let '(new_allocations, b2) :=
      alloc_realloc bk b1 (scratch_allocations scratch)
        (wrap (scratch_allocation_capacity scratch * sizeof_ptr))
        (wrap (new_capacity * sizeof_ptr)) sizeof_ptr in
    if new_allocations =? NULL then (NULL, (scratch, alloc_free bk b2 ptr size))
    else (ptr, scratch_push (scratch_grown scratch new_allocations new_capacity) b2 ptr)
  else (ptr, scratch_push scratch b1 ptr).

Definition scratch_allocator_realloc (scratch : scratch_allocator) (b : Ctx * memory)
    (ptr old_size new_size alignment : Z) : Z * (scratch_allocator * (Ctx * memory)) :=
  if ptr =? NULL then scratch_allocator_alloc scratch b new_size alignment
  else
    let '(new_ptr, b1) := alloc_realloc bk b ptr old_size new_size alignment in
    if new_ptr =? NULL then (NULL, (scratch, b1))
    else
      (new_ptr,
       (scratch,
        (b1.1,
         scratch_replace_first (Z.to_nat (scratch_allocation_count scratch)) 0
           scratch b1.2 ptr new_ptr))).

Definition scratch_allocator_free (scratch : scratch_allocator) (b : Ctx * memory)
    (ptr size : Z) : scratch_allocator * (Ctx * memory) :=
  (scratch, b).

(** The loop of [scratch_allocator_reset]: [k] iterations are left, [i] is
    the loop index.  Each iteration reads its cell from the memory the
    releases before it have left. *)
Fixpoint scratch_release_all (k : nat) (i : Z) (scratch : scratch_allocator)
    (b : Ctx * memory) : Ctx * memory :=
  match k with
  | O => b
  | S k' =>
      scratch_release_all k' (i + 1) scratch (alloc_free bk b (scratch_cell scratch b.2 i) 0)
  end.

Definition scratch_allocator_reset (scratch : scratch_allocator) (b : Ctx * memory)
    : scratch_allocator * (Ctx * memory) :=
  (scratch_set_count scratch 0,
   scratch_release_all (Z.to_nat (scratch_allocation_count scratch)) 0 scratch b).

Definition scratch_allocator_destroy (scratch : scratch_allocator) (b : Ctx * memory)
    : scratch_allocator * (Ctx * memory) :=
  let '(scratch1, b1) := scratch_allocator_reset scratch b in
  let b2 :=
    if negb (scratch_allocations scratch1 =? NULL)
    then alloc_free bk b1 (scratch_allocations scratch1)
           (wrap (scratch_allocation_capacity scratch1 * sizeof_ptr))
    else b1 in
  ({| scratch_allocations := NULL;
      scratch_allocation_count := scratch_allocation_count scratch1;
      scratch_allocation_capacity := 0 |}, b2).

Definition scratch_allocator_get : allocator (scratch_allocator * (Ctx * memory)) := {|
  alloc := fun '(scratch, b) size alignment =>
    scratch_allocator_alloc scratch b size alignment;
  realloc := fun '(scratch, b) ptr old_size new_size alignment =>
    scratch_allocator_realloc scratch b ptr old_size new_size alignment;
  free := fun '(scratch, b) ptr size => scratch_allocator_free scratch b ptr size
|}.
End scratch.

Definition scratch_allocator_init : scratch_allocator :=
  {| scratch_allocations := NULL;
     scratch_allocation_count := 0;
     scratch_allocation_capacity := 0 |}.

(** ** Freelist allocator

    A free block starts with a [freelist_node]: its [size] at offset 0 and
    the [next] pointer at offset 8. *)

Definition sizeof_freelist_node : Z := 16.
Definition node_size (m : memory) (node : Z) : Z := load_word m node.
Definition node_next (m : memory) (node : Z) : Z := load_word m (node + 8).

Record freelist_allocator := {
  freelist_buffer : Z;
  freelist_buffer_size : Z;
  freelist_free_list : Z;
  freelist_backing : Z
}.

Definition freelist_set_free_list (freelist : freelist_allocator) (head : Z)
    : freelist_allocator :=
  {| freelist_buffer := freelist_buffer freelist;
     freelist_buffer_size := freelist_buffer_size freelist;
     freelist_free_list := head;
     freelist_backing := freelist_backing freelist |}.

(** What [prev_ptr] points at: the [free_list] field of the allocator, or
    the [next] field of the node visited before. *)
Inductive freelist_link :=
| LinkHead
| LinkNext (node : Z).

(** [*prev_ptr = v] *)
Definition freelist_set_link (freelist : freelist_allocator) (m : memory)
    (prev_ptr : freelist_link) (v : Z) : freelist_allocator * memory :=
  match prev_ptr with
  | LinkHead => (freelist_set_free_list freelist v, m)
  | LinkNext prev => (freelist, store_word m (prev + 8) v)
  end.

(** The body of [if (node->size >= size + padding)]: unlink [node], split
    off the remainder when it is large enough, return the aligned address. *)
Definition freelist_take (freelist : freelist_allocator) (m : memory)
    (size total_size : Z) (prev_ptr : freelist_link) (node aligned_addr padding : Z)
    : Z * (freelist_allocator * memory) :=
  let '(freelist1, m1) := freelist_set_link freelist m prev_ptr (node_next m node) in
  if node_size m1 node >? wrap (total_size + sizeof_freelist_node) then
    let new_node := wrap (wrap (node + size) + padding) in
    let m2 := store_word m1 new_node (wrap (node_size m1 node - wrap (size + padding))) in
    let m3 := store_word m2 (new_node + 8) (freelist_free_list freelist1) in
    (aligned_addr, (freelist_set_free_list freelist1 new_node, m3))
  else (aligned_addr, (freelist1, m1)).

(** Does the loop body take [node]?  [Some (aligned_addr, padding)] when
    both size tests pass. *)
Definition freelist_fits (m : memory) (size alignment total_size node : Z)
    : option (Z * Z) :=
  if node_size m node >=? total_size then
    let addr := node in
    let aligned_addr := align_forward addr alignment in
    let padding := wrap (aligned_addr - addr) in
    if node_size m node >=? wrap (size + padding) then Some (aligned_addr, padding)
    else None
  else None.

(** The [while (node)] loop; [None] when [fuel] iterations did not reach
    the end of the chain or a fitting block. *)
Fixpoint freelist_search (fuel : nat) (freelist : freelist_allocator) (m : memory)
    (size alignment total_size : Z) (prev_ptr : freelist_link) (node : Z)
    : option (Z * (freelist_allocator * memory)) :=
  match fuel with
  | O => None
  | S fuel' =>
      if node =? NULL then Some (NULL, (freelist, m))
      else
        match freelist_fits m size alignment total_size node with
        | Some (aligned_addr, padding) =>
            Some (freelist_take freelist m size total_size prev_ptr node aligned_addr padding)
        | None =>
            freelist_search fuel' freelist m size alignment total_size
              (LinkNext node) (node_next m node)
        end
  end.

Definition freelist_allocator_alloc (fuel : nat) (freelist : freelist_allocator) (m : memory)
    (size alignment : Z) : option (Z * (freelist_allocator * memory)) :=
  let total_size := wrap (wrap (size + alignment) - 1) in
  freelist_search fuel freelist m size alignment total_size LinkHead
    (freelist_free_list freelist).

Definition freelist_allocator_free (freelist : freelist_allocator) (m : memory)
    (ptr size : Z) : freelist_allocator * memory :=
  if ptr =? NULL then (freelist, m)
  else
    let node := ptr in
    let m1 := store_word m node size in
    let m2 := store_word m1 (node + 8) (freelist_free_list freelist) in
    (freelist_set_free_list freelist node, m2).

Definition freelist_allocator_realloc (fuel : nat) (freelist : freelist_allocator)
    (m : memory) (ptr old_size new_size alignment : Z)
    : option (Z * (freelist_allocator * memory)) :=
  if ptr =? NULL then freelist_allocator_alloc fuel freelist m new_size alignment
  else
    match freelist_allocator_alloc fuel freelist m new_size alignment with
    | None => None
    | Some (new_ptr, (freelist1, m1)) =>
        if negb (new_ptr =? NULL) && negb (ptr =? NULL) then
          let m2 := memcpy m1 new_ptr ptr (min_size old_size new_size) in
          Some (new_ptr, freelist_allocator_free freelist1 m2 ptr old_size)
        else Some (new_ptr, (freelist1, m1))
    end.

Definition freelist_allocator_init (m : memory) (buffer size : Z)
    : freelist_allocator * memory :=
  let m1 := store_word m buffer size in
  let m2 := store_word m1 (buffer + 8) NULL in
  ({| freelist_buffer := buffer;
      freelist_buffer_size := size;
      freelist_free_list := buffer;
      freelist_backing := NULL |}, m2).


(** The freelist behind the interface.  The search of
    [freelist_allocator_alloc] is run for at most [fuel] blocks; a search
    that is cut short leaves [None] as the context, and every later call
    keeps it.  A run that ends with [Some _] as its context has cut no
    search: it is a run of the C functions. *)
Definition freelist_allocator_get (fuel : nat)
    : allocator (option freelist_allocator * memory) := {|
  alloc := fun '(ctx, m) size alignment =>
    match ctx with
    | None => (NULL, (None, m))
    | Some freelist =>
        match freelist_allocator_alloc fuel freelist m size alignment with
        | None => (NULL, (None, m))
        | Some (p, (freelist1, m1)) => (p, (Some freelist1, m1))
        end
    end;
  realloc := fun '(ctx, m) ptr old_size new_size alignment =>
    match ctx with
    | None => (NULL, (None, m))
    | Some freelist =>
        match freelist_allocator_realloc fuel freelist m ptr old_size new_size alignment with
        | None => (NULL, (None, m))
        | Some (p, (freelist1, m1)) => (p, (Some freelist1, m1))
        end
    end;
  free := fun '(ctx, m) ptr size =>
    match ctx with
    | None => (None, m)
    | Some freelist =>
        let '(freelist1, m1) := freelist_allocator_free freelist m ptr size in
        (Some freelist1, m1)
    end
|}.

(** * Specification vocabulary *)

(** The least multiple of [a] that is not below [p]. *)
Definition next_multiple (p a : Z) : Z := a * ((p + a - 1) / a).

(** ** Call sequences on an arena and on a stack *)

Inductive arena_call :=
| ArenaAlloc (size alignment : Z)
| ArenaRealloc (ptr old_size new_size alignment : Z)
| ArenaFree (ptr size : Z)
| ArenaReset.

Definition arena_step (st : arena_allocator * memory) (c : arena_call)
    : arena_allocator * memory :=
  let '(arena, m) := st in
  match c with
  | ArenaAlloc size alignment => ((arena_allocator_alloc arena size alignment).2, m)
  | ArenaRealloc ptr old_size new_size alignment =>
      (arena_allocator_realloc arena m ptr old_size new_size alignment).2
  | ArenaFree ptr size => (arena_allocator_free arena ptr size, m)
  | ArenaReset => (arena_allocator_reset arena, m)
  end.

Definition arena_run (st : arena_allocator * memory) (calls : list arena_call)
    : arena_allocator * memory :=
  foldl arena_step st calls.

(** The arena invariant: the cursor stays inside the buffer. *)
Definition arena_inv (arena : arena_allocator) : Prop :=
  0 <= arena_offset arena <= arena_buffer_size arena.

(** An arena whose buffer is an object of the address space that ends at
    least [alignment] bytes below its top, with the cursor inside. *)
Definition arena_placed (arena : arena_allocator) (alignment : Z) : Prop :=
  0 < arena_buffer arena /\
  arena_buffer arena + arena_buffer_size arena + alignment <= SIZE_MAX_plus_1 /\
  arena_inv arena.

Inductive stack_call :=
| StackAlloc (size alignment : Z)
| StackRealloc (ptr old_size new_size alignment : Z)
| StackFree (ptr size : Z).

Definition stack_step (st : stack_allocator * memory) (c : stack_call)
    : stack_allocator * memory :=
  let '(stack, m) := st in
  match c with
  | StackAlloc size alignment => ((stack_allocator_alloc stack size alignment).2, m)
  | StackRealloc ptr old_size new_size alignment =>
      (stack_allocator_realloc stack m ptr old_size new_size alignment).2
  | StackFree ptr size => (stack_allocator_free stack ptr size, m)
  end.

Definition stack_run (st : stack_allocator * memory) (calls : list stack_call)
    : stack_allocator * memory :=
  foldl stack_step st calls.

Definition stack_placed (stack : stack_allocator) (alignment : Z) : Prop :=
  0 < stack_buffer stack /\
  stack_buffer stack + stack_buffer_size stack + alignment <= SIZE_MAX_plus_1 /\
  0 <= stack_offset stack <= stack_buffer_size stack.

(** ** Chains threaded through memory

    [is_chain next p l]: following [next] from [p] visits exactly the
    addresses [l] and then reaches [NULL]. *)

Fixpoint is_chain (next : Z -> Z) (p : Z) (l : list Z) : Prop :=
  match l with
  | [] => p = NULL
  | q :: l' => p <> NULL /\ q = p /\ is_chain next (next p) l'
  end.

(** Two memories hold the same [n] bytes at [a]. *)
Definition same_bytes (m m' : memory) (a n : Z) : Prop :=
  forall i, 0 <= i < n -> load_byte m' (a + i) = load_byte m (a + i).

(** The [n] bytes at [a'] in [m'] are the [n] bytes at [a] in [m]. *)
Definition bytes_carried (m : memory) (a : Z) (m' : memory) (a' n : Z) : Prop :=
  forall i, 0 <= i < n -> load_byte m' (a' + i) mod 256 = load_byte m (a + i) mod 256.

(** ** Pool: chunks, reachable states *)

(** The addresses of the chunks, in ascending order. *)
Definition pool_chunks (buffer chunk_size chunk_count : Z) : list Z :=
  (fun i => buffer + i * chunk_size) <$> seqZ 0 chunk_count.

(** The pool lies in the address space and a chunk can hold a link. *)
Definition pool_params_ok (buffer chunk_size chunk_count : Z) : Prop :=
  0 < buffer /\ sizeof_ptr <= chunk_size /\ 0 <= chunk_count /\
  buffer + chunk_count * chunk_size <= SIZE_MAX_plus_1.

(** States of a pool that a client reaches from [pool_allocator_init] by
    allocating, reallocating and releasing chunks it holds, and writing into
    them; [live] is the set of chunks the client holds. *)
Inductive pool_reachable (m0 : memory) (buffer chunk_size chunk_count : Z)
    : pool_allocator -> memory -> gset Z -> Prop :=
| pool_reach_init :
    pool_reachable m0 buffer chunk_size chunk_count
      (pool_allocator_init m0 buffer chunk_size chunk_count).1
      (pool_allocator_init m0 buffer chunk_size chunk_count).2 ∅
| pool_reach_alloc pool m live size alignment :
    pool_reachable m0 buffer chunk_size chunk_count pool m live ->
    (pool_allocator_alloc pool m size alignment).1 <> NULL ->
    pool_reachable m0 buffer chunk_size chunk_count
      (pool_allocator_alloc pool m size alignment).2 m
      (live ∪ {[ (pool_allocator_alloc pool m size alignment).1 ]})
| pool_reach_free pool m live ptr size :
    pool_reachable m0 buffer chunk_size chunk_count pool m live ->
    ptr ∈ live ->
    pool_reachable m0 buffer chunk_size chunk_count
      (pool_allocator_free pool m ptr size).1
      (pool_allocator_free pool m ptr size).2 (live ∖ {[ ptr ]})
| pool_reach_write pool m live ptr off v :
    pool_reachable m0 buffer chunk_size chunk_count pool m live ->
    ptr ∈ live -> 0 <= off < chunk_size ->
    pool_reachable m0 buffer chunk_size chunk_count pool
      (store_byte m (ptr + off) v) live.

(** The representation invariant of the pool. *)
Definition pool_inv (buffer chunk_size chunk_count : Z)
    (pool : pool_allocator) (m : memory) (live : gset Z) : Prop :=
  pool_buffer pool = buffer /\
  pool_chunk_size pool = chunk_size /\
  pool_chunk_count pool = chunk_count /\
  exists l,
    is_chain (load_word m) (pool_free_list pool) l /\
    NoDup l /\
    (forall p, p ∈ l -> p ∈ pool_chunks buffer chunk_size chunk_count) /\
    (forall p, p ∈ live -> p ∈ pool_chunks buffer chunk_size chunk_count) /\
    (forall p, p ∈ l -> p ∉ live).

(** The failure kinds the design names. *)
Inductive failure_kind := OutOfSpace | ChunkTooLarge | BackingFailure.

(** ** Scratch: an instrumented backing allocator *)

Inductive backing_call :=
| CallAlloc (size alignment : Z)
| CallRealloc (ptr old_size new_size alignment : Z)
| CallFree (ptr size : Z).

(** [traced bk] behaves as [bk] and appends every call it receives to a
    log kept beside the context. *)
Definition traced {S} (bk : allocator (S * memory))
    : allocator ((S * list backing_call) * memory) := {|
  alloc := fun '((s, log), m) size alignment =>
    let '(p, (s1, m1)) := alloc bk (s, m) size alignment in
    (p, ((s1, log ++ [CallAlloc size alignment]), m1));
  realloc := fun '((s, log), m) ptr old_size new_size alignment =>
    let '(p, (s1, m1)) := realloc bk (s, m) ptr old_size new_size alignment in
    (p, ((s1, log ++ [CallRealloc ptr old_size new_size alignment]), m1));
  free := fun '((s, log), m) ptr size =>
    let '(s1, m1) := free bk (s, m) ptr size in
    ((s1, log ++ [CallFree ptr size]), m1)
|}.

(** The tracking array is an object of [allocation_capacity] cells that
    lies in the address space, and the count does not exceed the capacity. *)
Definition scratch_wf (scratch : scratch_allocator) : Prop :=
  0 <= scratch_allocation_count scratch <= scratch_allocation_capacity scratch /\
  0 <= scratch_allocations scratch /\
  scratch_allocations scratch + scratch_allocation_capacity scratch * sizeof_ptr
    <= SIZE_MAX_plus_1.

(** The capacity [scratch_allocator_alloc] asks for when the array is full. *)
Definition scratch_new_capacity (capacity : Z) : Z :=
  if capacity =? 0 then 8 else wrap (capacity * 2).

(** ** Freelist: well-formed free blocks *)

(** Every free block header lies below the top of the address space with
    room for the alignment padding. *)
Definition freelist_nodes_placed (l : list Z) (alignment : Z) : Prop :=
  Forall (fun n => 0 < n /\ n + alignment <= SIZE_MAX_plus_1) l.

(** The free blocks [l] of a memory: each holds a header and ends below the
    top of the address space, and no two of them overlap. *)
Definition freelist_blocks_wf (m : memory) (l : list Z) : Prop :=
  NoDup l /\
  (forall n, n ∈ l ->
     0 < n /\ sizeof_freelist_node <= node_size m n /\
     n + node_size m n < SIZE_MAX_plus_1) /\
  (forall n n', n ∈ l -> n' ∈ l -> n <> n' ->
     n + node_size m n <= n' \/ n' + node_size m n' <= n).

(** Where [prev_ptr] points after the loop has skipped the blocks [l]. *)
Definition freelist_link_after (prev_ptr : freelist_link) (l : list Z) : freelist_link :=
  foldl (fun _ q => LinkNext q) prev_ptr l.

(** ** Vocabulary of the further properties *)

(** A request an arena or a stack can add to its cursor without leaving
    [size_t]. *)
Definition request_ok (buffer_size size k : Z) : Prop :=
  0 <= size /\ size + buffer_size + 2 ^ k <= SIZE_MAX_plus_1.

(** The spans [(ptr, size)] of the successful allocations of a run of
    requests [(size, k)], each with alignment [2 ^ k]. *)
Fixpoint arena_alloc_spans (reqs : list (Z * Z)) (arena : arena_allocator) : list (Z * Z) :=
  match reqs with
  | [] => []
  | (size, k) :: reqs' =>
      let '(p, arena') := arena_allocator_alloc arena size (2 ^ k) in
      if p =? NULL then arena_alloc_spans reqs' arena'
      else (p, size) :: arena_alloc_spans reqs' arena'
  end.

(** The first span ends where the second begins, or before. *)
Definition span_before (s1 s2 : Z * Z) : Prop := s1.1 + s1.2 <= s2.1.

(** A stack seen as an arena: the two structs have the same fields. *)
Definition stack_as_arena (stack : stack_allocator) : arena_allocator :=
  {| arena_buffer := stack_buffer stack;
     arena_buffer_size := stack_buffer_size stack;
     arena_offset := stack_offset stack;
     arena_backing := stack_backing stack |}.

(** The stack invariant: the cursor stays inside the buffer. *)
Definition stack_inv (stack : stack_allocator) : Prop :=
  0 <= stack_offset stack <= stack_buffer_size stack.

(** [n] allocations in a row from a pool: the pointers returned and the
    pool left. *)
Fixpoint pool_alloc_many (n : nat) (pool : pool_allocator) (m : memory)
    (size alignment : Z) : list Z * pool_allocator :=
  match n with
  | O => ([], pool)
  | S n' =>
      let '(p, pool1) := pool_allocator_alloc pool m size alignment in
      let '(ps, pool2) := pool_alloc_many n' pool1 m size alignment in
      (p :: ps, pool2)
  end.

(** A run of allocation requests [(size, alignment)] on a scratch
    allocator: the pointers returned and the state left. *)
Fixpoint scratch_alloc_many {Ctx : Type} (bk : allocator (Ctx * memory)) (reqs : list (Z * Z))
    (scratch : scratch_allocator) (b : Ctx * memory)
    : list Z * (scratch_allocator * (Ctx * memory)) :=
  match reqs with
  | [] => ([], (scratch, b))
  | (size, alignment) :: reqs' =>
      let '(p, (scratch1, b1)) := scratch_allocator_alloc bk scratch b size alignment in
      let '(ps, st) := scratch_alloc_many bk reqs' scratch1 b1 in
      (p :: ps, st)
  end.

(** A scratch allocator over an arena whose tracking array, when it has one,
    lies in the consumed part of the arena's buffer. *)
Definition scratch_in_arena (scratch : scratch_allocator) (arena : arena_allocator) : Prop :=
  0 <= scratch_allocation_count scratch <= scratch_allocation_capacity scratch /\
  scratch_allocation_capacity scratch <= Z.max 8 (2 * scratch_allocation_count scratch) /\
  (if scratch_allocation_capacity scratch =? 0 then scratch_allocations scratch = NULL
   else arena_buffer arena <= scratch_allocations scratch /\
        scratch_allocations scratch + scratch_allocation_capacity scratch * sizeof_ptr
          <= arena_buffer arena + arena_offset arena).

(** * Machine arithmetic *)

Lemma wrap_range x : 0 <= wrap x < SIZE_MAX_plus_1.
Proof. unfold wrap, SIZE_MAX_plus_1. apply Z.mod_pos_bound. lia. Qed.

Lemma wrap_small x : 0 <= x < SIZE_MAX_plus_1 -> wrap x = x.
Proof. intros H. unfold wrap. apply Z.mod_small. exact H. Qed.

Lemma pow2_bounds k : 0 <= k < 64 -> 0 < 2 ^ k < SIZE_MAX_plus_1.
Proof.
  intros [H0 H1]. unfold SIZE_MAX_plus_1. split.
  - apply Z.pow_pos_nonneg; lia.
  - apply Z.pow_lt_mono_r; lia.
Qed.

Lemma land_low_bits p k : 0 <= k < 64 -> Z.land p (wrap (2 ^ k - 1)) = p mod 2 ^ k.
Proof.
  intros Hk. pose proof (pow2_bounds k Hk) as Hp.
  rewrite wrap_small by lia.
  replace (2 ^ k - 1) with (Z.ones k) by (rewrite Z.ones_equiv; lia).
  apply Z.land_ones. lia.
Qed.

Lemma next_multiple_bounds p a :
  0 < a -> p <= next_multiple p a < p + a /\ next_multiple p a mod a = 0.
Proof.
  intros Ha. unfold next_multiple.
  pose proof (Z.div_mod (p + a - 1) a ltac:(lia)) as Hdm.
  pose proof (Z.mod_pos_bound (p + a - 1) a Ha) as Hb.
  split; [lia |].
  rewrite Z.mul_comm. apply Z.mod_mul. lia.
Qed.

Lemma next_multiple_least p a q :
  0 < a -> p <= q -> q mod a = 0 -> next_multiple p a <= q.
Proof.
  intros Ha Hpq Hq.
  destruct (next_multiple_bounds p a Ha) as [[_ Hlt] Hm].
  apply Z.mod_divide in Hq; [| lia]. apply Z.mod_divide in Hm; [| lia].
  destruct Hq as [c ->]. destruct Hm as [d Hd]. rewrite Hd in *.
  assert (d < c + 1) by (apply (Z.mul_lt_mono_pos_r a); lia).
  apply Z.mul_le_mono_nonneg_r; lia.
Qed.

Lemma next_multiple_aligned p a : 0 < a -> p mod a = 0 -> next_multiple p a = p.
Proof.
  intros Ha Hp. pose proof (next_multiple_bounds p a Ha) as [[Hlo _] _].
  pose proof (next_multiple_least p a p Ha ltac:(lia) Hp). lia.
Qed.

Lemma next_multiple_unaligned p a :
  0 < a -> p mod a <> 0 -> next_multiple p a = p + a - p mod a.
Proof.
  intros Ha Hp.
  pose proof (Z.mod_pos_bound p a Ha) as Hb.
  pose proof (Z.div_mod p a ltac:(lia)) as Hdm.
  unfold next_multiple.
  replace (p + a - 1) with ((p mod a - 1) + (p / a + 1) * a) by lia.
  rewrite Z.div_add by lia.
  rewrite (Z.div_small (p mod a - 1) a) by lia. lia.
Qed.

Lemma align_forward_pow2 p k :
  0 <= k < 64 -> 0 <= p -> p + 2 ^ k <= SIZE_MAX_plus_1 ->
  align_forward p (2 ^ k) = next_multiple p (2 ^ k).
Proof.
  intros Hk Hp Hfit. pose proof (pow2_bounds k Hk) as Ha.
  pose proof (Z.mod_pos_bound p (2 ^ k) ltac:(lia)) as Hb.
  unfold align_forward. rewrite land_low_bits by exact Hk.
  destruct (Z.eqb_spec (p mod 2 ^ k) 0) as [Hz | Hnz].
  - symmetry. apply next_multiple_aligned; lia.
  - rewrite next_multiple_unaligned by lia.
    rewrite (wrap_small (2 ^ k - p mod 2 ^ k)) by lia.
    rewrite wrap_small by lia. lia.
Qed.

(** * Arena *)

Lemma arena_alloc_inv arena size alignment :
  arena_inv arena -> arena_inv (arena_allocator_alloc arena size alignment).2.
Proof.
  intros Hinv. unfold arena_allocator_alloc.
  destruct (Z.gtb_spec (wrap (align_forward (arena_offset arena) alignment + size))
              (arena_buffer_size arena)) as [Hgt | Hle]; simpl.
  - exact Hinv.
  - unfold arena_inv. simpl.
    pose proof (wrap_range (align_forward (arena_offset arena) alignment + size)). lia.
Qed.

Lemma arena_realloc_inv arena m ptr old_size new_size alignment :
  arena_inv arena ->
  arena_inv (arena_allocator_realloc arena m ptr old_size new_size alignment).2.1.
Proof.
  intros Hinv. unfold arena_allocator_realloc.
  pose proof (arena_alloc_inv arena new_size alignment Hinv) as Halloc.
  destruct (arena_allocator_alloc arena new_size alignment) as [p arena'].
  simpl in Halloc.
  destruct (ptr =? NULL); simpl; [exact Halloc |].
  destruct (wrap (ptr + old_size) =? wrap (arena_buffer arena + arena_offset arena)).
  - set (a := align_forward (wrap (ptr - arena_buffer arena)) alignment).
    destruct (Z.leb_spec (wrap (a + new_size)) (arena_buffer_size arena)); simpl.
    + unfold arena_inv. simpl. pose proof (wrap_range (a + new_size)). lia.
    + destruct (negb (p =? NULL) && true); simpl; exact Halloc.
  - destruct (negb (p =? NULL) && true); simpl; exact Halloc.
Qed.

Lemma arena_step_inv st c : arena_inv st.1 -> arena_inv (arena_step st c).1.
Proof.
  destruct st as [arena m]. simpl. intros Hinv.
  destruct c as [size alignment | ptr old_size new_size alignment | ptr size |]; simpl.
  - apply arena_alloc_inv, Hinv.
  - apply arena_realloc_inv, Hinv.
  - exact Hinv.
  - unfold arena_inv in *. simpl. lia.
Qed.

Lemma arena_run_inv calls : forall st, arena_inv st.1 -> arena_inv (arena_run st calls).1.
Proof.
  induction calls as [| c calls IH]; intros st Hinv; simpl.
  - exact Hinv.
  - apply IH, arena_step_inv, Hinv.
Qed.

(** C4.  The arena keeps [0 <= offset <= buffer_size]: it holds after
    [arena_allocator_init], every operation (allocate, reallocate, release,
    reset) preserves it, so it holds after every sequence of calls; and
    [arena_allocator_reset] always sets the offset to 0. *)
Theorem arena_offset_within_buffer (buffer size : Z) (m : memory) (calls : list arena_call) :
  0 <= size ->
  arena_inv (arena_allocator_init buffer size) /\
  (forall st c, arena_inv st.1 -> arena_inv (arena_step st c).1) /\
  arena_inv (arena_run (arena_allocator_init buffer size, m) calls).1 /\
  (forall arena, arena_offset (arena_allocator_reset arena) = 0).
Proof.
  intros Hsize.
  assert (Hinit : arena_inv (arena_allocator_init buffer size)).
  { unfold arena_inv. simpl. lia. }
  split; [exact Hinit |].
  split; [exact arena_step_inv |].
  split; [| reflexivity].
  apply arena_run_inv. exact Hinit.
Qed.

Lemma arena_offset_within_buffer_witness :
  0 <= 1024 /\
  arena_inv
    (arena_run (arena_allocator_init 4096 1024, ∅)
       [ArenaAlloc 4 4; ArenaAlloc 4 4; ArenaRealloc 4100 4 2000 8;
        ArenaAlloc 1016 1; ArenaFree 4096 4; ArenaReset; ArenaAlloc 4 4]).1.
Proof.
  split; [lia |].
  apply (arena_offset_within_buffer 4096 1024 ∅
           [ArenaAlloc 4 4; ArenaAlloc 4 4; ArenaRealloc 4100 4 2000 8;
            ArenaAlloc 1016 1; ArenaFree 4096 4; ArenaReset; ArenaAlloc 4 4]).
  lia.
Defined.

(** The arena scenario of the design: two 4-byte, 4-aligned allocations sit
    at offsets 0 and 4, and after a reset the next one is at offset 0. *)
Example arena_scenario :
  let a0 := arena_allocator_init 4096 1024 in
  let '(p1, a1) := arena_allocator_alloc a0 4 4 in
  let '(p2, a2) := arena_allocator_alloc a1 4 4 in
  let '(p3, a3) := arena_allocator_alloc (arena_allocator_reset a2) 4 4 in
  (p1, p2, arena_offset a2, p3) = (4096, 4100, 8, 4096).
Proof. vm_compute. reflexivity. Qed.

(** Without overflow of the request, [arena_allocator_alloc] is the bump
    allocation of the design. *)
Lemma arena_alloc_spec arena size k :
  0 <= k < 64 -> arena_placed arena (2 ^ k) -> 0 <= size ->
  next_multiple (arena_offset arena) (2 ^ k) + size < SIZE_MAX_plus_1 ->
  let aligned_offset := next_multiple (arena_offset arena) (2 ^ k) in
  arena_allocator_alloc arena size (2 ^ k) =
    if aligned_offset + size >? arena_buffer_size arena then (NULL, arena)
    else (arena_buffer arena + aligned_offset,
          arena_set_offset arena (aligned_offset + size)).
Proof.
  intros Hk (Hbuf & Hfit & Hinv) Hsize Hsum a. unfold arena_inv in Hinv.
  pose proof (pow2_bounds k Hk) as Ha.
  unfold arena_allocator_alloc.
  rewrite align_forward_pow2 by lia. fold a.
  pose proof (next_multiple_bounds (arena_offset arena) (2 ^ k) ltac:(lia)) as [Hb _].
  fold a in Hb.
  rewrite (wrap_small (a + size)) by lia.
  destruct (Z.gtb_spec (a + size) (arena_buffer_size arena)); [reflexivity |].
  rewrite wrap_small by lia. reflexivity.
Qed.

Example arena_alloc_aligns :
  arena_allocator_alloc (arena_set_offset (arena_allocator_init 4096 1024) 5) 16 8
  = (4104, arena_set_offset (arena_allocator_init 4096 1024) 24).
Proof. vm_compute. reflexivity. Qed.

(** A successful arena allocation never returns [NULL] when the arena is
    placed below the top of the address space. *)
Lemma arena_alloc_null arena size k :
  0 <= k < 64 -> arena_placed arena (2 ^ k) ->
  (arena_allocator_alloc arena size (2 ^ k)).1 = NULL ->
  (arena_allocator_alloc arena size (2 ^ k)).2 = arena.
Proof.
  intros Hk (Hbuf & Hfit & Hinv). unfold arena_inv in Hinv.
  pose proof (pow2_bounds k Hk) as Ha.
  unfold arena_allocator_alloc.
  rewrite align_forward_pow2 by lia.
  pose proof (next_multiple_bounds (arena_offset arena) (2 ^ k) ltac:(lia)) as [Hb _].
  set (a := next_multiple (arena_offset arena) (2 ^ k)) in *.
  destruct (wrap (a + size) >? arena_buffer_size arena); simpl; [reflexivity |].
  rewrite wrap_small by lia. unfold NULL. lia.
Qed.

Lemma arena_realloc_failure arena m ptr old_size new_size k :
  0 <= k < 64 -> arena_placed arena (2 ^ k) -> ptr <> NULL ->
  (arena_allocator_realloc arena m ptr old_size new_size (2 ^ k)).1 = NULL ->
  (arena_allocator_realloc arena m ptr old_size new_size (2 ^ k)).2 = (arena, m).
Proof.
  intros Hk Hplaced Hptr.
  pose proof (arena_alloc_null arena new_size k Hk Hplaced) as Halloc.
  unfold arena_allocator_realloc.
  destruct (arena_allocator_alloc arena new_size (2 ^ k)) as [p arena'].
  simpl in Halloc.
  destruct (Z.eqb_spec ptr NULL) as [| _]; [contradiction |].
  destruct (if wrap (ptr + old_size) =? wrap (arena_buffer arena + arena_offset arena)
            then _ else _) as [offset' |]; simpl.
  - intros; contradiction.
  - destruct (Z.eqb_spec p NULL) as [Hp | Hp]; simpl.
    + intros _. rewrite Halloc by exact Hp. reflexivity.
    + intros; contradiction.
Qed.

Lemma arena_realloc_null arena m old_size new_size alignment :
  arena_allocator_realloc arena m NULL old_size new_size alignment =
  ((arena_allocator_alloc arena new_size alignment).1,
   ((arena_allocator_alloc arena new_size alignment).2, m)).
Proof.
  unfold arena_allocator_realloc. simpl.
  destruct (arena_allocator_alloc arena new_size alignment); reflexivity.
Qed.

(** C3.  The arena's allocate rounds the offset up to the next multiple of
    the power-of-two alignment and must fail, leaving the offset unchanged,
    when that aligned offset plus the size exceeds the buffer size.  At this
    input the code does not: in a 1024-byte arena whose offset is 4, a
    request of [2^64 - 4] bytes with alignment 4 has aligned offset 4, and
    4 plus the size exceeds 1024; the sum computed by the code wraps to 0,
    the bound test passes, and the call returns [buffer + 4] and moves the
    offset to 0. *)
Theorem arena_alloc_accepts_overflowing_request :
  let arena := arena_set_offset (arena_allocator_init 4096 1024) 4 in
  let size := 2 ^ 64 - 4 in
  0 <= size < SIZE_MAX_plus_1 /\
  next_multiple (arena_offset arena) 4 = 4 /\
  next_multiple (arena_offset arena) 4 + size > arena_buffer_size arena /\
  arena_allocator_alloc arena size 4 = (4100, arena_set_offset arena 0).
Proof. vm_compute. repeat split; congruence. Qed.

(** * Stack *)

Lemma stack_alloc_null stack size k :
  0 <= k < 64 -> stack_placed stack (2 ^ k) ->
  (stack_allocator_alloc stack size (2 ^ k)).1 = NULL ->
  (stack_allocator_alloc stack size (2 ^ k)).2 = stack.
Proof.
  intros Hk (Hbuf & Hfit & Hinv).
  pose proof (pow2_bounds k Hk) as Ha.
  unfold stack_allocator_alloc.
  rewrite align_forward_pow2 by lia.
  pose proof (next_multiple_bounds (stack_offset stack) (2 ^ k) ltac:(lia)) as [Hb _].
  set (a := next_multiple (stack_offset stack) (2 ^ k)) in *.
  destruct (wrap (a + size) >? stack_buffer_size stack); simpl; [reflexivity |].
  rewrite wrap_small by lia. unfold NULL. lia.
Qed.

Lemma stack_realloc_failure stack m ptr old_size new_size k :
  0 <= k < 64 -> stack_placed stack (2 ^ k) -> ptr <> NULL ->
  (stack_allocator_realloc stack m ptr old_size new_size (2 ^ k)).1 = NULL ->
  (stack_allocator_realloc stack m ptr old_size new_size (2 ^ k)).2 = (stack, m).
Proof.
  intros Hk Hplaced Hptr.
  pose proof (stack_alloc_null stack new_size k Hk Hplaced) as Halloc.
  unfold stack_allocator_realloc.
  destruct (stack_allocator_alloc stack new_size (2 ^ k)) as [p stack'].
  simpl in Halloc.
  destruct (Z.eqb_spec ptr NULL) as [| _]; [contradiction |].
  destruct (if wrap (ptr + old_size) =? wrap (stack_buffer stack + stack_offset stack)
            then _ else _) as [offset' |]; simpl.
  - intros; contradiction.
  - destruct (Z.eqb_spec p NULL) as [Hp | Hp]; simpl.
    + intros _. rewrite Halloc by exact Hp. reflexivity.
    + intros; contradiction.
Qed.

Lemma stack_realloc_null stack m old_size new_size alignment :
  stack_allocator_realloc stack m NULL old_size new_size alignment =
  ((stack_allocator_alloc stack new_size alignment).1,
   ((stack_allocator_alloc stack new_size alignment).2, m)).
Proof.
  unfold stack_allocator_realloc. simpl.
  destruct (stack_allocator_alloc stack new_size alignment); reflexivity.
Qed.

Lemma stack_restore_offset stack marker :
  stack_offset (stack_allocator_restore stack marker) = marker_offset marker.
Proof. reflexivity. Qed.

(** The stack scenario of the design: a 512-byte buffer, one 4-byte value
    (offset 4), a mark, two more 4-byte values (pointer-aligned as the
    driver requests them, offset 20), and the restore brings the offset back
    to 4. *)
Example stack_scenario :
  let s0 := stack_allocator_init 8192 512 in
  let '(_, s1) := stack_allocator_alloc s0 4 8 in
  let mark := stack_allocator_mark s1 in
  let '(_, s2) := stack_allocator_alloc s1 4 8 in
  let '(_, s3) := stack_allocator_alloc s2 4 8 in
  (stack_offset s1, stack_offset s3, stack_offset (stack_allocator_restore s3 mark))
  = (4, 20, 4).
Proof. vm_compute. reflexivity. Qed.

Lemma stack_alloc_frame stack size alignment o :
  stack_set_offset (stack_allocator_alloc stack size alignment).2 o = stack_set_offset stack o.
Proof.
  unfold stack_allocator_alloc.
  destruct (wrap (align_forward (stack_offset stack) alignment + size) >? stack_buffer_size stack);
    reflexivity.
Qed.

Lemma stack_step_frame st c o :
  stack_set_offset (stack_step st c).1 o = stack_set_offset st.1 o.
Proof.
  destruct st as [stack m].
  destruct c as [size alignment | ptr old_size new_size alignment | ptr size]; simpl.
  - apply stack_alloc_frame.
  - unfold stack_allocator_realloc.
    pose proof (stack_alloc_frame stack new_size alignment o) as Halloc.
    destruct (stack_allocator_alloc stack new_size alignment) as [p stack'].
    simpl in Halloc.
    destruct (ptr =? NULL); [exact Halloc |].
    destruct (if wrap (ptr + old_size) =? wrap (stack_buffer stack + stack_offset stack)
              then _ else _) as [offset' |]; [reflexivity |].
    destruct (negb (p =? NULL) && negb false); exact Halloc.
  - unfold stack_allocator_free.
    destruct (ptr =? NULL); [reflexivity |].
    destruct (wrap (ptr + size) =? wrap (stack_buffer stack + stack_offset stack));
      reflexivity.
Qed.

Lemma stack_run_frame calls : forall st o,
  stack_set_offset (stack_run st calls).1 o = stack_set_offset st.1 o.
Proof.
  induction calls as [| c calls IH]; intros st o; simpl; [reflexivity |].
  unfold stack_run in IH. rewrite IH. apply stack_step_frame.
Qed.

(** C8.  Restoring the marker just taken leaves the stack unchanged; and
    after any sequence of calls, taking a marker, performing any further
    calls and restoring that marker sets the offset exactly to the offset
    recorded in the marker, which is the offset the stack had at the mark
    (the whole stack state is then the one at the mark). *)
Theorem stack_mark_restore (buffer size : Z) (m : memory) (before after : list stack_call) :
  (forall stack, stack_allocator_restore stack (stack_allocator_mark stack) = stack) /\
  let at_mark := stack_run (stack_allocator_init buffer size, m) before in
  let marker := stack_allocator_mark at_mark.1 in
  let later := stack_run at_mark after in
  marker_offset marker = stack_offset at_mark.1 /\
  stack_offset (stack_allocator_restore later.1 marker) = marker_offset marker /\
  stack_allocator_restore later.1 marker = at_mark.1.
Proof.
  assert (Hid : forall stack, stack_allocator_restore stack (stack_allocator_mark stack) = stack).
  { intros [b s o bk]. reflexivity. }
  split; [exact Hid |].
  cbv zeta. split; [reflexivity |]. split; [reflexivity |].
  unfold stack_allocator_restore. rewrite stack_run_frame. apply Hid.
Qed.

(** * Memory *)

Lemma load_store_byte_same (m : memory) a v : load_byte (store_byte m a v) a = v mod 256.
Proof. unfold load_byte, store_byte. rewrite lookup_insert_eq. reflexivity. Qed.

Lemma load_store_byte_other (m : memory) a a' v :
  a <> a' -> load_byte (store_byte m a v) a' = load_byte m a'.
Proof. intros Hne. unfold load_byte, store_byte. rewrite lookup_insert_ne by exact Hne. reflexivity. Qed.

Lemma load_store_bytes_other n : forall (m : memory) a a' v,
  (a' < a \/ a + Z.of_nat n <= a') ->
  load_byte (store_bytes n m a v) a' = load_byte m a'.
Proof.
  induction n as [| n IH]; intros m a a' v Hout; simpl; [reflexivity |].
  rewrite IH by lia. apply load_store_byte_other. lia.
Qed.

Lemma load_bytes_same_bytes n : forall (m m' : memory) a,
  same_bytes m m' a (Z.of_nat n) -> load_bytes n m' a = load_bytes n m a.
Proof.
  induction n as [| n IH]; intros m m' a Hsame; simpl; [reflexivity |].
  rewrite (IH m m' (a + 1)).
  - specialize (Hsame 0 ltac:(lia)). rewrite Z.add_0_r in Hsame. rewrite Hsame. reflexivity.
  - intros i Hi. specialize (Hsame (1 + i) ltac:(lia)).
    rewrite Z.add_assoc in Hsame. exact Hsame.
Qed.

Lemma load_store_bytes_same n : forall (m : memory) a v,
  load_bytes n (store_bytes n m a v) a = v mod 256 ^ Z.of_nat n.
Proof.
  induction n as [| n IH]; intros m a v.
  - simpl. rewrite Z.mod_1_r. reflexivity.
  - cbn [load_bytes store_bytes].
    rewrite load_store_bytes_other by lia.
    rewrite load_store_byte_same, IH.
    rewrite Z.mod_mod by lia.
    rewrite Nat2Z.inj_succ, Z.pow_succ_r by lia.
    symmetry. apply Z.rem_mul_r; [lia |]. apply Z.pow_pos_nonneg; lia.
Qed.

Lemma load_bytes_range n : forall (m : memory) a, 0 <= load_bytes n m a < 256 ^ Z.of_nat n.
Proof.
  induction n as [| n IH]; intros m a.
  - simpl. lia.
  - cbn [load_bytes]. rewrite Nat2Z.inj_succ, Z.pow_succ_r by lia.
    specialize (IH m (a + 1)).
    pose proof (Z.mod_pos_bound (load_byte m a) 256 ltac:(lia)). lia.
Qed.

Lemma load_word_range (m : memory) a : 0 <= load_word m a < SIZE_MAX_plus_1.
Proof. exact (load_bytes_range 8 m a). Qed.

Lemma load_store_word_same (m : memory) a v :
  0 <= v < SIZE_MAX_plus_1 -> load_word (store_word m a v) a = v.
Proof.
  intros Hv. unfold load_word, store_word. rewrite load_store_bytes_same.
  apply Z.mod_small. exact Hv.
Qed.

Lemma load_byte_store_word_other (m : memory) a a' v :
  (a' < a \/ a + 8 <= a') -> load_byte (store_word m a v) a' = load_byte m a'.
Proof. intros Hout. apply (load_store_bytes_other 8). exact Hout. Qed.

Lemma load_word_same_bytes (m m' : memory) a :
  same_bytes m m' a 8 -> load_word m' a = load_word m a.
Proof. apply (load_bytes_same_bytes 8). Qed.

Lemma load_store_word_other (m : memory) a a' v :
  (a' + 8 <= a \/ a + 8 <= a') -> load_word (store_word m a v) a' = load_word m a'.
Proof.
  intros Hout. apply load_word_same_bytes. intros i Hi.
  apply load_byte_store_word_other. lia.
Qed.

Lemma load_byte_memcpy_other k : forall (from m : memory) dst src a',
  (a' < dst \/ dst + Z.of_nat k <= a') ->
  load_byte (memcpy_bytes k from m dst src) a' = load_byte m a'.
Proof.
  induction k as [| k IH]; intros from m dst src a' Hout; simpl; [reflexivity |].
  rewrite IH by lia. apply load_store_byte_other. lia.
Qed.

(** ** Chains and memory *)

Lemma is_chain_ext (next next' : Z -> Z) l : forall p,
  (forall q, q ∈ l -> next' q = next q) ->
  is_chain next p l -> is_chain next' p l.
Proof.
  induction l as [| q l IH]; intros p Hext Hchain; simpl in *; [exact Hchain |].
  destruct Hchain as (Hp & -> & Hrest).
  split; [exact Hp |]. split; [reflexivity |].
  rewrite Hext by (apply elem_of_cons; left; reflexivity).
  apply IH; [| exact Hrest].
  intros q Hq. apply Hext. apply elem_of_cons. right. exact Hq.
Qed.

Lemma is_chain_functional (next : Z -> Z) l : forall l' p,
  is_chain next p l -> is_chain next p l' -> l = l'.
Proof.
  induction l as [| q l IH]; intros [| q' l'] p H1 H2; simpl in *.
  - reflexivity.
  - destruct H2 as (Hp & _). contradiction.
  - destruct H1 as (Hp & _). contradiction.
  - destruct H1 as (_ & -> & H1). destruct H2 as (_ & -> & H2).
    f_equal. exact (IH l' _ H1 H2).
Qed.

(** * Pool *)

Section pool.
Variables (buffer chunk_size chunk_count : Z).
Hypothesis Hparams : pool_params_ok buffer chunk_size chunk_count.

Local Abbreviation chunks := (pool_chunks buffer chunk_size chunk_count).

Lemma elem_of_pool_chunks p :
  p ∈ chunks <-> exists i, 0 <= i < chunk_count /\ p = buffer + i * chunk_size.
Proof.
  unfold chunks, pool_chunks. rewrite list_elem_of_fmap. split.
  - intros (i & -> & Hi). apply elem_of_seqZ in Hi. exists i. split; [lia | reflexivity].
  - intros (i & Hi & ->). exists i. split; [reflexivity |]. apply elem_of_seqZ. lia.
Qed.

Lemma pool_chunk_bounds p :
  p ∈ chunks -> 0 < p /\ p + chunk_size <= SIZE_MAX_plus_1.
Proof.
  destruct Hparams as (Hb & Hs & Hn & Hfit). unfold sizeof_ptr in Hs.
  intros (i & Hi & ->)%elem_of_pool_chunks. split; nia.
Qed.

Lemma pool_chunks_apart p q :
  p ∈ chunks -> q ∈ chunks -> p <> q ->
  p + chunk_size <= q \/ q + chunk_size <= p.
Proof.
  destruct Hparams as (Hb & Hs & Hn & Hfit). unfold sizeof_ptr in Hs.
  intros (i & Hi & ->)%elem_of_pool_chunks (j & Hj & ->)%elem_of_pool_chunks Hne.
  destruct (Z.lt_trichotomy i j) as [Hlt | [-> | Hgt]]; [left; nia | contradiction | right; nia].
Qed.

(** A store into one chunk leaves the links of a chain through other
    chunks alone. *)
Lemma pool_chain_frame (m m' : memory) ptr l head :
  ptr ∈ chunks -> (forall q, q ∈ l -> q ∈ chunks) -> ptr ∉ l ->
  (forall a, (a < ptr \/ ptr + chunk_size <= a) -> load_byte m' a = load_byte m a) ->
  is_chain (load_word m) head l -> is_chain (load_word m') head l.
Proof.
  intros Hptr Hl Hnotin Hframe. apply is_chain_ext.
  intros q Hq. apply load_word_same_bytes. intros i Hi. apply Hframe.
  assert (ptr <> q) as Hne by (intros ->; contradiction).
  destruct Hparams as (_ & Hs & _). unfold sizeof_ptr in Hs.
  destruct (pool_chunks_apart ptr q Hptr (Hl q Hq) Hne); lia.
Qed.

(** *** Initialisation threads the chunks in ascending order *)

Lemma pool_init_loop (m0 : memory) (n : nat) :
  Z.of_nat n <= chunk_count ->
  let st := foldl (pool_init_step chunk_size chunk_count)
              ({| pool_buffer := buffer; pool_chunk_size := chunk_size;
                  pool_chunk_count := chunk_count; pool_free_list := NULL;
                  pool_backing := NULL |}, m0)
              (seqZ 0 (Z.of_nat n)) in
  pool_buffer st.1 = buffer /\ pool_chunk_size st.1 = chunk_size /\
  pool_chunk_count st.1 = chunk_count /\
  is_chain (load_word st.2) (pool_free_list st.1)
    ((fun i => buffer + i * chunk_size) <$> seqZ (chunk_count - Z.of_nat n) (Z.of_nat n)).
Proof.
  destruct Hparams as (Hb & Hs & Hn & Hfit). unfold sizeof_ptr in Hs.
  induction n as [| n IH]; intros Hle.
  - simpl. repeat split; reflexivity.
  - specialize (IH ltac:(lia)). cbv zeta in IH |- *.
    rewrite seqZ_S, foldl_snoc. rewrite Z.add_0_l.
    destruct (foldl _ _ (seqZ 0 (Z.of_nat n))) as [pool m].
    simpl in IH. destruct IH as (Hbuf & Hcs & Hcc & Hchain).
    unfold pool_init_step. cbn [fst snd pool_set_free_list pool_buffer pool_chunk_size
                                pool_chunk_count pool_free_list].
    rewrite Hbuf.
    split; [reflexivity |]. split; [exact Hcs |]. split; [exact Hcc |].
    set (j := chunk_count - 1 - Z.of_nat n).
    assert (Hj : 0 <= j < chunk_count) by (unfold j; lia).
    assert (Hchunk : wrap (buffer + wrap (wrap j * chunk_size)) = buffer + j * chunk_size).
    { unfold SIZE_MAX_plus_1 in *.
      rewrite (wrap_small j) by (unfold SIZE_MAX_plus_1; nia).
      rewrite (wrap_small (j * chunk_size)) by (unfold SIZE_MAX_plus_1; nia).
      apply wrap_small. unfold SIZE_MAX_plus_1. nia. }
    rewrite Hchunk.
    replace (chunk_count - Z.of_nat (S n)) with j by (unfold j; lia).
    rewrite seqZ_cons by lia. rewrite fmap_cons.
    replace (Z.succ j) with (chunk_count - Z.of_nat n) by (unfold j; lia).
    replace (Z.pred (Z.of_nat (S n))) with (Z.of_nat n) by lia.
    cbn [is_chain]. split; [unfold NULL; nia |]. split; [reflexivity |].
    assert (Hhead : 0 <= pool_free_list pool < SIZE_MAX_plus_1).
    { destruct n as [| n'].
      - simpl in Hchain. rewrite Hchain. unfold NULL, SIZE_MAX_plus_1. lia.
      - rewrite seqZ_cons in Hchain by lia. rewrite fmap_cons in Hchain.
        destruct Hchain as (_ & Heq & _). rewrite <- Heq. nia. }
    rewrite load_store_word_same by exact Hhead.
    revert Hchain. apply is_chain_ext.
    intros q (i & -> & Hi)%list_elem_of_fmap. apply elem_of_seqZ in Hi.
    apply load_store_word_other. nia.
Qed.

Lemma pool_init_inv (m0 : memory) :
  pool_inv buffer chunk_size chunk_count
    (pool_allocator_init m0 buffer chunk_size chunk_count).1
    (pool_allocator_init m0 buffer chunk_size chunk_count).2 ∅.
Proof.
  destruct Hparams as (Hb & Hs & Hn & Hfit).
  pose proof (pool_init_loop m0 (Z.to_nat chunk_count) ltac:(lia)) as Hloop.
  cbv zeta in Hloop. rewrite Z2Nat.id in Hloop by lia.
  rewrite Z.sub_diag in Hloop.
  unfold pool_allocator_init.
  destruct Hloop as (Hbuf & Hcs & Hcc & Hchain).
  split; [exact Hbuf |]. split; [exact Hcs |]. split; [exact Hcc |].
  exists chunks. split; [exact Hchain |]. split.
  - apply NoDup_fmap_2; [| apply NoDup_seqZ].
    intros i j Hij. unfold sizeof_ptr in Hs. nia.
  - split; [intros p Hp; exact Hp |]. split; intros p Hp; set_solver.
Qed.

(** The chain after initialisation is the list of all chunks, chunk 0
    first. *)
Lemma pool_init_chain (m0 : memory) :
  is_chain (load_word (pool_allocator_init m0 buffer chunk_size chunk_count).2)
    (pool_free_list (pool_allocator_init m0 buffer chunk_size chunk_count).1) chunks.
Proof.
  destruct Hparams as (Hb & Hs & Hn & Hfit).
  pose proof (pool_init_loop m0 (Z.to_nat chunk_count) ltac:(lia)) as Hloop.
  cbv zeta in Hloop. rewrite Z2Nat.id in Hloop by lia.
  rewrite Z.sub_diag in Hloop. apply Hloop.
Qed.
End pool.

Section pool_steps.
Variables (buffer chunk_size chunk_count : Z).
Hypothesis Hparams : pool_params_ok buffer chunk_size chunk_count.

Local Abbreviation chunks := (pool_chunks buffer chunk_size chunk_count).
Local Abbreviation inv := (pool_inv buffer chunk_size chunk_count).

Lemma pool_alloc_inv pool m live size alignment :
  inv pool m live ->
  (pool_allocator_alloc pool m size alignment).1 <> NULL ->
  inv (pool_allocator_alloc pool m size alignment).2 m
      (live ∪ {[ (pool_allocator_alloc pool m size alignment).1 ]}).
Proof.
  intros (Hbuf & Hcs & Hcc & l & Hchain & Hnd & Hl & Hlive & Hdisj).
  unfold pool_allocator_alloc.
  destruct (size >? pool_chunk_size pool); [simpl; contradiction |].
  destruct (Z.eqb_spec (pool_free_list pool) NULL) as [| Hhead]; [simpl; contradiction |].
  simpl. intros _.
  destruct l as [| q l]; simpl in Hchain; [contradiction |].
  destruct Hchain as (_ & -> & Hchain).
  apply NoDup_cons in Hnd as [Hq Hnd].
  split; [exact Hbuf |]. split; [exact Hcs |]. split; [exact Hcc |].
  exists l. split; [exact Hchain |]. split; [exact Hnd |].
  split; [intros p Hp; apply Hl; set_solver |].
  split.
  - intros p [Hp | ->%elem_of_singleton]%elem_of_union; [apply Hlive, Hp |].
    apply Hl. set_solver.
  - intros p Hp [Hp' | ->%elem_of_singleton]%elem_of_union; [| contradiction].
    apply (Hdisj p); [set_solver | exact Hp'].
Qed.

Lemma pool_free_inv pool m live ptr size :
  inv pool m live -> ptr ∈ live ->
  inv (pool_allocator_free pool m ptr size).1 (pool_allocator_free pool m ptr size).2
      (live ∖ {[ ptr ]}).
Proof.
  intros (Hbuf & Hcs & Hcc & l & Hchain & Hnd & Hl & Hlive & Hdisj) Hptr.
  pose proof (pool_chunk_bounds _ _ _ Hparams ptr (Hlive ptr Hptr)) as [Hpos Hend].
  unfold pool_allocator_free.
  destruct (Z.eqb_spec ptr NULL) as [-> | Hnn]; [unfold NULL in Hpos; lia |].
  simpl.
  split; [exact Hbuf |]. split; [exact Hcs |]. split; [exact Hcc |].
  assert (Hnotin : ptr ∉ l) by (intros Hin; exact (Hdisj ptr Hin Hptr)).
  assert (Hhead : 0 <= pool_free_list pool < SIZE_MAX_plus_1).
  { destruct l as [| q l']; simpl in Hchain.
    - rewrite Hchain. unfold NULL, SIZE_MAX_plus_1. lia.
    - destruct Hchain as (_ & -> & _).
      destruct Hparams as (_ & Hs & _). unfold sizeof_ptr in Hs.
      pose proof (pool_chunk_bounds _ _ _ Hparams (pool_free_list pool)
                    (Hl (pool_free_list pool) ltac:(set_solver))). lia. }
  exists (ptr :: l). split.
  - simpl. split; [exact Hnn |]. split; [reflexivity |].
    rewrite load_store_word_same by exact Hhead.
    apply (pool_chain_frame _ _ _ Hparams m _ ptr l); auto.
    intros a Ha. apply load_byte_store_word_other.
    destruct Hparams as (_ & Hs & _). unfold sizeof_ptr in Hs. lia.
  - split; [apply NoDup_cons; auto |].
    split; [intros p [-> | Hp]%elem_of_cons; auto |].
    split; [intros p Hp; apply Hlive; set_solver |].
    intros p [-> | Hp]%elem_of_cons; [set_solver |].
    intros Hp'. apply (Hdisj p Hp). set_solver.
Qed.

Lemma pool_write_inv pool m live ptr off v :
  inv pool m live -> ptr ∈ live -> 0 <= off < chunk_size ->
  inv pool (store_byte m (ptr + off) v) live.
Proof.
  intros (Hbuf & Hcs & Hcc & l & Hchain & Hnd & Hl & Hlive & Hdisj) Hptr Hoff.
  split; [exact Hbuf |]. split; [exact Hcs |]. split; [exact Hcc |].
  exists l. split; [| auto].
  apply (pool_chain_frame _ _ _ Hparams m _ ptr l); auto.
  - intros Hin. exact (Hdisj ptr Hin Hptr).
  - intros a Ha. apply load_store_byte_other. lia.
Qed.

Lemma pool_reachable_inv m0 pool m live :
  pool_reachable m0 buffer chunk_size chunk_count pool m live -> inv pool m live.
Proof.
  induction 1 as [| pool m live size alignment _ IH Hok
                  | pool m live ptr size _ IH Hptr
                  | pool m live ptr off v _ IH Hptr Hoff].
  - apply pool_init_inv, Hparams.
  - apply pool_alloc_inv; assumption.
  - apply pool_free_inv; assumption.
  - apply pool_write_inv; assumption.
Qed.

(** Releasing a chunk the client holds and allocating again. *)
Lemma pool_free_alloc pool m live l ptr rsize size alignment :
  inv pool m live -> ptr ∈ live -> size <= chunk_size ->
  is_chain (load_word m) (pool_free_list pool) l ->
  let st := pool_allocator_free pool m ptr rsize in
  let res := pool_allocator_alloc st.1 st.2 size alignment in
  res.1 = ptr /\ res.2 = pool /\ is_chain (load_word st.2) (pool_free_list res.2) l.
Proof.
  intros Hinv Hptr Hsize Hchain.
  destruct Hinv as (Hbuf & Hcs & Hcc & l' & Hchain' & Hnd & Hl & Hlive & Hdisj).
  assert (l' = l) as -> by exact (is_chain_functional _ _ _ _ Hchain' Hchain).
  pose proof (pool_chunk_bounds _ _ _ Hparams ptr (Hlive ptr Hptr)) as [Hpos Hend].
  assert (Hhead : 0 <= pool_free_list pool < SIZE_MAX_plus_1).
  { destruct l as [| q l']; simpl in Hchain.
    - rewrite Hchain. unfold NULL, SIZE_MAX_plus_1. lia.
    - destruct Hchain as (_ & -> & _).
      destruct Hparams as (_ & Hs & _). unfold sizeof_ptr in Hs.
      pose proof (pool_chunk_bounds _ _ _ Hparams (pool_free_list pool)
                    (Hl (pool_free_list pool) ltac:(set_solver))). lia. }
  unfold pool_allocator_free.
  destruct (Z.eqb_spec ptr NULL) as [-> | Hnn]; [unfold NULL in Hpos; lia |].
  cbv zeta. cbn [fst snd]. unfold pool_allocator_alloc.
  cbn [pool_set_free_list pool_chunk_size pool_free_list].
  destruct (Z.gtb_spec size (pool_chunk_size pool)) as [Hgt | _]; [lia |].
  destruct (Z.eqb_spec ptr NULL) as [| _]; [contradiction |].
  cbn [fst snd pool_set_free_list pool_free_list].
  rewrite load_store_word_same by exact Hhead.
  split; [reflexivity |]. split; [destruct pool; reflexivity |].
  apply (pool_chain_frame _ _ _ Hparams m _ ptr l); auto.
  - intros Hin. exact (Hdisj ptr Hin Hptr).
  - intros a Ha. apply load_byte_store_word_other.
    destruct Hparams as (_ & Hs & _). unfold sizeof_ptr in Hs. lia.
Qed.
End pool_steps.

(** The pool scenario of the design: chunk size 32, 8 chunks; three
    allocations sit at offsets 0, 32 and 64; after releasing the one at
    offset 32 the next allocation returns it. *)
Example pool_scenario :
  let '(pool0, m) := pool_allocator_init ∅ 4096 32 8 in
  let '(p1, pool1) := pool_allocator_alloc pool0 m 32 1 in
  let '(p2, pool2) := pool_allocator_alloc pool1 m 32 1 in
  let '(p3, pool3) := pool_allocator_alloc pool2 m 32 1 in
  let '(pool4, m4) := pool_allocator_free pool3 m p2 32 in
  let '(p4, pool5) := pool_allocator_alloc pool4 m4 32 1 in
  (p1, p2, p3, p4) = (4096, 4128, 4160, 4128).
Proof. vm_compute. reflexivity. Qed.

(** C7.  In every reachable state of a pool, releasing a chunk the client
    holds and then immediately allocating any size that fits the chunk size
    returns that same chunk, and the free chain is afterwards what it was
    before the release. *)
Theorem pool_release_then_alloc_reuses (m0 : memory) (buffer chunk_size chunk_count : Z)
    (pool : pool_allocator) (m : memory) (live : gset Z) (ptr rsize size alignment : Z) :
  pool_params_ok buffer chunk_size chunk_count ->
  pool_reachable m0 buffer chunk_size chunk_count pool m live ->
  ptr ∈ live ->
  size <= chunk_size ->
  let st := pool_allocator_free pool m ptr rsize in
  let res := pool_allocator_alloc st.1 st.2 size alignment in
  res.1 = ptr /\
  res.2 = pool /\
  exists l, is_chain (load_word m) (pool_free_list pool) l /\
            is_chain (load_word st.2) (pool_free_list res.2) l.
Proof.
  intros Hparams Hreach Hptr Hsize.
  pose proof (pool_reachable_inv _ _ _ Hparams _ _ _ _ Hreach) as Hinv.
  destruct Hinv as (Hbuf & Hcs & Hcc & l & Hchain & Hrest).
  assert (Hinv : pool_inv buffer chunk_size chunk_count pool m live).
  { split; [exact Hbuf |]. split; [exact Hcs |]. split; [exact Hcc |].
    exists l. split; [exact Hchain | exact Hrest]. }
  pose proof (pool_free_alloc _ _ _ Hparams pool m live l ptr rsize size alignment
                Hinv Hptr Hsize Hchain) as Hfa.
  cbv zeta in Hfa |- *. destruct Hfa as (Hres & Hpool & Hchain').
  split; [exact Hres |]. split; [exact Hpool |].
  exists l. split; [exact Hchain | exact Hchain'].
Qed.

Lemma pool_release_then_alloc_reuses_witness :
  exists pool m live,
    pool_reachable ∅ 4096 32 8 pool m live /\ 4128 ∈ live /\
    (pool_allocator_alloc (pool_allocator_free pool m 4128 32).1
       (pool_allocator_free pool m 4128 32).2 32 1).1 = 4128.
Proof.
  set (p0 := (pool_allocator_init ∅ 4096 32 8).1).
  set (m := (pool_allocator_init ∅ 4096 32 8).2).
  set (a1 := pool_allocator_alloc p0 m 32 1).
  set (a2 := pool_allocator_alloc a1.2 m 32 1).
  set (a3 := pool_allocator_alloc a2.2 m 32 1).
  assert (H1 : a1.1 = 4096) by (vm_compute; reflexivity).
  assert (H2 : a2.1 = 4128) by (vm_compute; reflexivity).
  assert (H3 : a3.1 = 4160) by (vm_compute; reflexivity).
  assert (Hreach : pool_reachable ∅ 4096 32 8 a3.2 m (∅ ∪ {[a1.1]} ∪ {[a2.1]} ∪ {[a3.1]})).
  { apply pool_reach_alloc; [apply pool_reach_alloc; [apply pool_reach_alloc |] |].
    - apply pool_reach_init.
    - fold p0 m a1. rewrite H1. discriminate.
    - fold a2. rewrite H2. discriminate.
    - fold a3. rewrite H3. discriminate. }
  assert (Hin : 4128 ∈ (∅ ∪ {[a1.1]} ∪ {[a2.1]} ∪ {[a3.1]} : gset Z)).
  { rewrite H2. apply elem_of_union_l, elem_of_union_r, elem_of_singleton. reflexivity. }
  exists a3.2, m, (∅ ∪ {[a1.1]} ∪ {[a2.1]} ∪ {[a3.1]}).
  split; [exact Hreach |]. split; [exact Hin |].
  refine (proj1 (pool_release_then_alloc_reuses ∅ 4096 32 8 a3.2 m _ 4128 32 32 1
                   _ Hreach Hin _)).
  - unfold pool_params_ok, sizeof_ptr, SIZE_MAX_plus_1. lia.
  - lia.
Defined.

(** *** Allocation outcomes *)

Lemma pool_alloc_too_large pool m size alignment :
  size > pool_chunk_size pool -> pool_allocator_alloc pool m size alignment = (NULL, pool).
Proof.
  intros Hgt. unfold pool_allocator_alloc.
  destruct (Z.gtb_spec size (pool_chunk_size pool)); [reflexivity | lia].
Qed.

Lemma pool_alloc_empty pool m size alignment :
  size <= pool_chunk_size pool -> pool_free_list pool = NULL ->
  pool_allocator_alloc pool m size alignment = (NULL, pool).
Proof.
  intros Hle Hempty. unfold pool_allocator_alloc.
  destruct (Z.gtb_spec size (pool_chunk_size pool)); [lia |].
  rewrite Hempty. reflexivity.
Qed.

Lemma pool_alloc_pop pool m size alignment :
  size <= pool_chunk_size pool -> pool_free_list pool <> NULL ->
  pool_allocator_alloc pool m size alignment =
    (pool_free_list pool, pool_set_free_list pool (load_word m (pool_free_list pool))).
Proof.
  intros Hle Hhead. unfold pool_allocator_alloc.
  destruct (Z.gtb_spec size (pool_chunk_size pool)); [lia |].
  destruct (Z.eqb_spec (pool_free_list pool) NULL); [contradiction | reflexivity].
Qed.

(** C6, as stated, asks for two distinguishable failures.  In a one-chunk
    pool whose chunk is handed out, a request above the chunk size and a
    request that fits return the very same outcome ([NULL], pool unchanged):
    nothing computed from the outcome can name [ChunkTooLarge] for the one
    and [OutOfSpace] for the other. *)
Lemma pool_alloc_failure_kinds_counterexample :
  let '(pool0, m) := pool_allocator_init ∅ 4096 32 1 in
  let pool := (pool_allocator_alloc pool0 m 32 8).2 in
  33 > pool_chunk_size pool /\
  16 <= pool_chunk_size pool /\ pool_free_list pool = NULL /\
  ~ exists kind_of : Z * pool_allocator -> failure_kind,
      kind_of (pool_allocator_alloc pool m 33 8) = ChunkTooLarge /\
      kind_of (pool_allocator_alloc pool m 16 8) = OutOfSpace.
Proof.
  vm_compute. split; [reflexivity |]. split; [discriminate |]. split; [reflexivity |].
  intros (kind_of & H1 & H2). rewrite H1 in H2. discriminate.
Qed.

(** C6, amended.  With fixed chunk size S, the pool's allocate returns the
    one failure signal [NULL], leaving the pool unchanged, when the size
    exceeds S, and likewise when the size fits and the free chain is empty
    (the two failures carry no kind that tells them apart); otherwise it
    succeeds by popping the free-chain head and returning it. *)
Theorem pool_alloc_cases (pool : pool_allocator) (m : memory) (size alignment : Z) :
  (size > pool_chunk_size pool ->
   pool_allocator_alloc pool m size alignment = (NULL, pool)) /\
  (size <= pool_chunk_size pool -> pool_free_list pool = NULL ->
   pool_allocator_alloc pool m size alignment = (NULL, pool)) /\
  (size <= pool_chunk_size pool -> pool_free_list pool <> NULL ->
   pool_allocator_alloc pool m size alignment =
     (pool_free_list pool, pool_set_free_list pool (load_word m (pool_free_list pool)))) /\
  (forall p l, size <= pool_chunk_size pool ->
     is_chain (load_word m) (pool_free_list pool) (p :: l) ->
     (pool_allocator_alloc pool m size alignment).1 = p /\
     is_chain (load_word m)
       (pool_free_list (pool_allocator_alloc pool m size alignment).2) l).
Proof.
  split; [apply pool_alloc_too_large |].
  split; [apply pool_alloc_empty |].
  split; [apply pool_alloc_pop |].
  intros p l Hle (Hhead & -> & Hchain).
  rewrite pool_alloc_pop by assumption. simpl. split; [reflexivity | exact Hchain].
Qed.

Lemma pool_alloc_cases_witness :
  let pool0 := (pool_allocator_init ∅ 4096 32 2).1 in
  let m := (pool_allocator_init ∅ 4096 32 2).2 in
  let pool2 := pool_set_free_list pool0 NULL in
  pool_allocator_alloc pool0 m 33 8 = (NULL, pool0) /\
  pool_allocator_alloc pool2 m 16 8 = (NULL, pool2) /\
  pool_allocator_alloc pool0 m 16 8 = (4096, pool_set_free_list pool0 4128) /\
  is_chain (load_word m) (pool_free_list (pool_allocator_alloc pool0 m 16 8).2) [4128].
Proof.
  cbv zeta.
  set (pool0 := (pool_allocator_init ∅ 4096 32 2).1).
  set (m := (pool_allocator_init ∅ 4096 32 2).2).
  split; [| split; [| split]].
  - apply (proj1 (pool_alloc_cases pool0 m 33 8)). vm_compute. reflexivity.
  - apply (proj1 (proj2 (pool_alloc_cases (pool_set_free_list pool0 NULL) m 16 8))).
    + vm_compute. discriminate.
    + reflexivity.
  - assert (Hhead : pool_free_list pool0 = 4096) by (vm_compute; reflexivity).
    assert (Hnext : load_word m 4096 = 4128) by (vm_compute; reflexivity).
    rewrite <- Hnext, <- Hhead.
    apply (proj1 (proj2 (proj2 (pool_alloc_cases pool0 m 16 8)))).
    + vm_compute. discriminate.
    + rewrite Hhead. discriminate.
  - apply (proj2 (proj2 (proj2 (pool_alloc_cases pool0 m 16 8))) 4096 [4128]).
    + vm_compute. discriminate.
    + vm_compute. repeat split; discriminate.
Defined.

(** *** Reallocation *)

Lemma pool_alloc_null pool m size alignment :
  (pool_allocator_alloc pool m size alignment).1 = NULL ->
  (pool_allocator_alloc pool m size alignment).2 = pool.
Proof.
  unfold pool_allocator_alloc.
  destruct (size >? pool_chunk_size pool); [reflexivity |].
  destruct (Z.eqb_spec (pool_free_list pool) NULL); [reflexivity |].
  simpl. intros; contradiction.
Qed.

Lemma pool_realloc_failure pool m ptr old_size new_size alignment :
  ptr <> NULL ->
  (pool_allocator_realloc pool m ptr old_size new_size alignment).1 = NULL ->
  (pool_allocator_realloc pool m ptr old_size new_size alignment).2 = (pool, m).
Proof.
  intros Hptr. unfold pool_allocator_realloc.
  destruct ((new_size <=? pool_chunk_size pool) && (old_size <=? pool_chunk_size pool));
    [simpl; intros; contradiction |].
  pose proof (pool_alloc_null pool m new_size alignment) as Halloc.
  destruct (pool_allocator_alloc pool m new_size alignment) as [new_ptr pool'].
  simpl in Halloc.
  destruct (Z.eqb_spec new_ptr NULL) as [Hnull | Hnew]; simpl.
  - intros _. rewrite Halloc by exact Hnull. reflexivity.
  - destruct (Z.eqb_spec ptr NULL) as [| _]; [contradiction |]. simpl.
    intros; contradiction.
Qed.

Section pool_realloc.
Variables (buffer chunk_size chunk_count : Z).
Hypothesis Hparams : pool_params_ok buffer chunk_size chunk_count.

Lemma pool_reachable_memcpy m0 pool live dst src from k : forall m off,
  pool_reachable m0 buffer chunk_size chunk_count pool m live ->
  dst ∈ live -> 0 <= off -> off + Z.of_nat k <= chunk_size ->
  pool_reachable m0 buffer chunk_size chunk_count pool
    (memcpy_bytes k from m (dst + off) src) live.
Proof.
  revert src. induction k as [| k IH]; intros src m off Hreach Hdst Hoff Hfit; simpl.
  - exact Hreach.
  - rewrite <- Z.add_assoc. apply IH; [| exact Hdst | lia | lia].
    apply pool_reach_write; [exact Hreach | exact Hdst | lia].
Qed.

(** Reallocation stays within the reachable states. *)
Lemma pool_reachable_realloc m0 pool m live ptr old_size new_size alignment :
  pool_reachable m0 buffer chunk_size chunk_count pool m live ->
  ptr ∈ live \/ ptr = NULL ->
  exists live',
    pool_reachable m0 buffer chunk_size chunk_count
      (pool_allocator_realloc pool m ptr old_size new_size alignment).2.1
      (pool_allocator_realloc pool m ptr old_size new_size alignment).2.2 live'.
Proof.
  intros Hreach Hptr.
  pose proof (pool_reachable_inv _ _ _ Hparams _ _ _ _ Hreach) as (_ & Hcs & _).
  unfold pool_allocator_realloc.
  destruct ((new_size <=? pool_chunk_size pool) && (old_size <=? pool_chunk_size pool));
    [exists live; exact Hreach |].
  pose proof (pool_reach_alloc m0 buffer chunk_size chunk_count pool m live new_size alignment
                Hreach) as Halloc.
  pose proof (pool_alloc_null pool m new_size alignment) as Hnull.
  assert (Hfit : (pool_allocator_alloc pool m new_size alignment).1 <> NULL ->
                 new_size <= chunk_size).
  { unfold pool_allocator_alloc.
    destruct (Z.gtb_spec new_size (pool_chunk_size pool)); simpl; [contradiction | lia]. }
  destruct (pool_allocator_alloc pool m new_size alignment) as [new_ptr pool'].
  simpl in Halloc, Hnull, Hfit.
  destruct (Z.eqb_spec new_ptr NULL) as [Hn | Hn]; simpl.
  - rewrite Hnull by exact Hn. exists live. exact Hreach.
  - specialize (Halloc Hn). specialize (Hfit Hn).
    destruct (Z.eqb_spec ptr NULL) as [Hp | Hp]; simpl.
    + eexists. exact Halloc.
    + destruct Hptr as [Hptr | Hptr]; [| contradiction].
      eexists. apply pool_reach_free; [| apply elem_of_union_l; exact Hptr].
      unfold memcpy.
      pose proof (pool_reachable_memcpy m0 pool' _ new_ptr ptr m
                    (Z.to_nat (min_size old_size new_size)) m 0 Halloc) as Hcopy.
      rewrite Z.add_0_r in Hcopy. apply Hcopy.
      * apply elem_of_union_r, elem_of_singleton. reflexivity.
      * lia.
      * destruct Hparams as (_ & Hs & _). unfold sizeof_ptr in Hs.
        unfold min_size. destruct (Z.ltb_spec old_size new_size); lia.
Qed.
End pool_realloc.

(** *** Reallocation of the null pointer *)

Lemma pool_realloc_in_place pool m ptr old_size new_size alignment :
  new_size <= pool_chunk_size pool -> old_size <= pool_chunk_size pool ->
  pool_allocator_realloc pool m ptr old_size new_size alignment = (ptr, (pool, m)).
Proof.
  intros Hnew Hold. unfold pool_allocator_realloc.
  destruct (Z.leb_spec new_size (pool_chunk_size pool)); [| lia].
  destruct (Z.leb_spec old_size (pool_chunk_size pool)); [| lia].
  reflexivity.
Qed.

(** C1.  Reallocating the null pointer must behave as allocate of the new
    size.  The arena, stack, scratch and freelist reallocate do ([*_realloc_null]
    lemmas); the pool's does not: in a fresh pool of eight 32-byte chunks,
    [allocate(16, 8)] returns the first chunk and pops it, whereas
    [reallocate(NULL, 0, 16, 8)] returns [NULL] and leaves all eight chunks
    on the free chain. *)
Theorem pool_realloc_null_is_not_alloc :
  let '(pool, m) := pool_allocator_init ∅ 4096 32 8 in
  pool_allocator_alloc pool m 16 8 = (4096, pool_set_free_list pool 4128) /\
  pool_allocator_realloc pool m NULL 0 16 8 = (NULL, (pool, m)).
Proof. vm_compute. split; reflexivity. Qed.


(** * Scratch *)

Lemma load_bytes_carried n : forall (m m' : memory) a a',
  bytes_carried m a m' a' (Z.of_nat n) -> load_bytes n m' a' = load_bytes n m a.
Proof.
  induction n as [| n IH]; intros m m' a a' Hsame; simpl; [reflexivity |].
  rewrite (IH m m' (a + 1) (a' + 1)).
  - specialize (Hsame 0 ltac:(lia)). rewrite !Z.add_0_r in Hsame. rewrite Hsame. reflexivity.
  - intros i Hi. specialize (Hsame (1 + i) ltac:(lia)).
    rewrite !Z.add_assoc in Hsame. exact Hsame.
Qed.

Lemma bytes_carried_refl (m : memory) a n : bytes_carried m a m a n.
Proof. intros i _. reflexivity. Qed.

Lemma bytes_carried_trans (m1 m2 m3 : memory) a1 a2 a3 n :
  bytes_carried m1 a1 m2 a2 n -> bytes_carried m2 a2 m3 a3 n -> bytes_carried m1 a1 m3 a3 n.
Proof. intros H12 H23 i Hi. rewrite H23, H12 by exact Hi. reflexivity. Qed.

Lemma bytes_carried_le (m m' : memory) a a' n n' :
  n' <= n -> bytes_carried m a m' a' n -> bytes_carried m a m' a' n'.
Proof. intros Hle H i Hi. apply H. lia. Qed.

Lemma scratch_cell_addr_exact scratch i :
  0 <= scratch_allocations scratch -> 0 <= i ->
  scratch_allocations scratch + (i + 1) * sizeof_ptr <= SIZE_MAX_plus_1 ->
  scratch_cell_addr scratch i = scratch_allocations scratch + i * sizeof_ptr.
Proof.
  intros Ha Hi Htop. unfold scratch_cell_addr. apply wrap_small.
  unfold sizeof_ptr in *. lia.
Qed.

Lemma scratch_cell_carried scratch scratch' (m m' : memory) n i :
  0 <= scratch_allocations scratch -> 0 <= scratch_allocations scratch' ->
  scratch_allocations scratch + n * sizeof_ptr <= SIZE_MAX_plus_1 ->
  scratch_allocations scratch' + n * sizeof_ptr <= SIZE_MAX_plus_1 ->
  bytes_carried m (scratch_allocations scratch) m' (scratch_allocations scratch')
    (n * sizeof_ptr) ->
  0 <= i < n ->
  scratch_cell scratch' m' i = scratch_cell scratch m i.
Proof.
  intros Ha Ha' Htop Htop' Hsame Hi. unfold scratch_cell.
  rewrite !scratch_cell_addr_exact by (unfold sizeof_ptr in *; lia).
  apply (load_bytes_carried 8). intros j Hj.
  rewrite <- !Z.add_assoc. apply Hsame. unfold sizeof_ptr. lia.
Qed.

Lemma scratch_tracked_carried scratch scratch' (m m' : memory) :
  scratch_allocation_count scratch' = scratch_allocation_count scratch ->
  0 <= scratch_allocations scratch -> 0 <= scratch_allocations scratch' ->
  scratch_allocations scratch + scratch_allocation_count scratch * sizeof_ptr
    <= SIZE_MAX_plus_1 ->
  scratch_allocations scratch' + scratch_allocation_count scratch * sizeof_ptr
    <= SIZE_MAX_plus_1 ->
  bytes_carried m (scratch_allocations scratch) m' (scratch_allocations scratch')
    (scratch_allocation_count scratch * sizeof_ptr) ->
  scratch_tracked scratch' m' = scratch_tracked scratch m.
Proof.
  intros Hcount Ha Ha' Htop Htop' Hsame. unfold scratch_tracked. rewrite Hcount.
  apply list_fmap_ext. intros k i Hk.
  apply lookup_seqZ in Hk as [-> Hlt].
  apply (scratch_cell_carried scratch scratch' m m' (scratch_allocation_count scratch));
    try assumption. lia.
Qed.

Lemma scratch_tracked_snoc scratch (m : memory) :
  0 <= scratch_allocation_count scratch ->
  scratch_tracked (scratch_set_count scratch (scratch_allocation_count scratch + 1)) m
  = scratch_tracked scratch m ++ [scratch_cell scratch m (scratch_allocation_count scratch)].
Proof.
  intros Hcount. unfold scratch_tracked. cbn [scratch_set_count scratch_allocation_count].
  rewrite seqZ_app by lia. rewrite fmap_app. reflexivity.
Qed.

Lemma scratch_push_tracked {Ctx : Type} scratch (b : Ctx * memory) ptr :
  0 <= scratch_allocation_count scratch ->
  0 <= scratch_allocations scratch ->
  scratch_allocations scratch + (scratch_allocation_count scratch + 1) * sizeof_ptr
    <= SIZE_MAX_plus_1 ->
  0 <= ptr < SIZE_MAX_plus_1 ->
  (scratch_push scratch b ptr).1
    = scratch_set_count scratch (scratch_allocation_count scratch + 1) /\
  (scratch_push scratch b ptr).2
    = (b.1, store_word b.2 (scratch_allocations scratch
                            + scratch_allocation_count scratch * sizeof_ptr) ptr) /\
  scratch_tracked (scratch_push scratch b ptr).1 (scratch_push scratch b ptr).2.2
    = scratch_tracked scratch b.2 ++ [ptr].
Proof.
  intros Hcount Ha Htop Hptr. unfold scratch_push. cbn [fst snd].
  rewrite scratch_cell_addr_exact by assumption.
  rewrite wrap_small by (unfold sizeof_ptr, SIZE_MAX_plus_1 in *; lia).
  split; [reflexivity |]. split; [reflexivity |].
  rewrite scratch_tracked_snoc by exact Hcount. f_equal.
  - unfold scratch_tracked. apply list_fmap_ext. intros k i Hk.
    apply lookup_seqZ in Hk as [-> Hlt]. unfold scratch_cell.
    rewrite scratch_cell_addr_exact by (unfold sizeof_ptr in *; lia).
    apply load_store_word_other. unfold sizeof_ptr. lia.
  - unfold scratch_cell. rewrite scratch_cell_addr_exact by assumption.
    rewrite load_store_word_same by exact Hptr. reflexivity.
Qed.

Lemma scratch_new_capacity_exact capacity :
  0 <= capacity -> capacity * sizeof_ptr <= SIZE_MAX_plus_1 ->
  scratch_new_capacity capacity = (if capacity =? 0 then 8 else 2 * capacity).
Proof.
  intros H0 Hcap. unfold scratch_new_capacity.
  destruct (capacity =? 0); [reflexivity |].
  rewrite wrap_small by (unfold sizeof_ptr, SIZE_MAX_plus_1 in *; lia). lia.
Qed.

Section scratch_proofs.
Context {Ctx : Type} (bk : allocator (Ctx * memory)).

Lemma scratch_alloc_backing_failure scratch b size alignment :
  (alloc_alloc bk b size alignment).1 = NULL ->
  scratch_allocator_alloc bk scratch b size alignment =
    (NULL, (scratch, (alloc_alloc bk b size alignment).2)).
Proof.
  intros Hnull. unfold scratch_allocator_alloc.
  destruct (alloc_alloc bk b size alignment) as [ptr b1]. simpl in *.
  rewrite Hnull. reflexivity.
Qed.

Lemma scratch_alloc_growth_failure scratch b size alignment :
  let r1 := alloc_alloc bk b size alignment in
  let r2 := alloc_realloc bk r1.2 (scratch_allocations scratch)
              (wrap (scratch_allocation_capacity scratch * sizeof_ptr))
              (wrap (scratch_new_capacity (scratch_allocation_capacity scratch) * sizeof_ptr))
              sizeof_ptr in
  r1.1 <> NULL ->
  scratch_allocation_count scratch >= scratch_allocation_capacity scratch ->
  r2.1 = NULL ->
  scratch_allocator_alloc bk scratch b size alignment =
    (NULL, (scratch, alloc_free bk r2.2 r1.1 size)).
Proof.
  cbv zeta. unfold scratch_allocator_alloc, scratch_new_capacity.
  destruct (alloc_alloc bk b size alignment) as [ptr b1]. simpl.
  intros Hptr Hfull.
  destruct (Z.eqb_spec ptr NULL) as [| _]; [contradiction |].
  destruct (Z.geb_spec (scratch_allocation_count scratch)
              (scratch_allocation_capacity scratch)) as [_ | Hlt]; [| lia].
  destruct (alloc_realloc bk b1 _ _ _ _) as [new_allocations b2]. simpl.
  intros ->. reflexivity.
Qed.

Lemma scratch_alloc_room scratch b size alignment :
  let r1 := alloc_alloc bk b size alignment in
  let res := scratch_allocator_alloc bk scratch b size alignment in
  scratch_wf scratch ->
  0 < r1.1 < SIZE_MAX_plus_1 ->
  scratch_allocation_count scratch < scratch_allocation_capacity scratch ->
  res.1 = r1.1 /\
  res.2.1 = scratch_set_count scratch (scratch_allocation_count scratch + 1) /\
  res.2.2 = (r1.2.1, store_word r1.2.2 (scratch_allocations scratch
                        + scratch_allocation_count scratch * sizeof_ptr) r1.1) /\
  scratch_tracked res.2.1 res.2.2.2 = scratch_tracked scratch r1.2.2 ++ [r1.1].
Proof.
  cbv zeta. unfold scratch_allocator_alloc.
  destruct (alloc_alloc bk b size alignment) as [ptr b1]. cbn [fst snd].
  intros (Hcount & Ha & Htop) Hptr Hroom.
  destruct (Z.eqb_spec ptr NULL) as [-> | _]; [unfold NULL in Hptr; lia |].
  destruct (Z.geb_spec (scratch_allocation_count scratch)
              (scratch_allocation_capacity scratch)) as [| _]; [lia |].
  cbn [fst snd].
  destruct (scratch_push_tracked scratch b1 ptr) as (H1 & H2 & H3);
    [lia | exact Ha | unfold sizeof_ptr in *; lia | lia |].
  split; [reflexivity |]. split; [exact H1 |]. split; [exact H2 | exact H3].
Qed.

Lemma scratch_alloc_grown scratch b size alignment :
  let capacity := scratch_allocation_capacity scratch in
  let r1 := alloc_alloc bk b size alignment in
  let r2 := alloc_realloc bk r1.2 (scratch_allocations scratch)
              (wrap (capacity * sizeof_ptr))
              (wrap (scratch_new_capacity capacity * sizeof_ptr)) sizeof_ptr in
  let res := scratch_allocator_alloc bk scratch b size alignment in
  let grown := scratch_grown scratch r2.1 (scratch_new_capacity capacity) in
  scratch_wf scratch ->
  0 < r1.1 < SIZE_MAX_plus_1 ->
  scratch_allocation_count scratch >= capacity ->
  0 < r2.1 ->
  r2.1 + scratch_new_capacity capacity * sizeof_ptr <= SIZE_MAX_plus_1 ->
  res.1 = r1.1 /\
  res.2.1 = scratch_set_count grown (scratch_allocation_count scratch + 1) /\
  res.2.2 = (r2.2.1, store_word r2.2.2 (r2.1 + scratch_allocation_count scratch * sizeof_ptr)
                       r1.1) /\
  scratch_tracked res.2.1 res.2.2.2 = scratch_tracked grown r2.2.2 ++ [r1.1].
Proof.
  cbv zeta. intros Hwf.
  pose proof (scratch_new_capacity_exact (scratch_allocation_capacity scratch)) as Hnew.
  revert Hnew.
  unfold scratch_allocator_alloc, scratch_new_capacity.
  destruct (alloc_alloc bk b size alignment) as [ptr b1]. cbn [fst snd].
  destruct Hwf as (Hcount & Ha & Htop).
  intros Hnew Hptr Hfull.
  specialize (Hnew ltac:(lia) ltac:(lia)).
  destruct (Z.eqb_spec ptr NULL) as [-> | _]; [unfold NULL in Hptr; lia |].
  destruct (Z.geb_spec (scratch_allocation_count scratch)
              (scratch_allocation_capacity scratch)) as [_ |]; [| lia].
  set (new_capacity := if scratch_allocation_capacity scratch =? 0 then 8
                       else wrap (scratch_allocation_capacity scratch * 2)) in *.
  destruct (alloc_realloc bk b1 _ _ _ _) as [new_allocations b2]. cbn [fst snd].
  intros Hpos Hplaced.
  destruct (Z.eqb_spec new_allocations NULL) as [-> | _]; [unfold NULL in Hpos; lia |].
  cbn [fst snd].
  destruct (scratch_push_tracked (scratch_grown scratch new_allocations new_capacity) b2 ptr)
    as (H1 & H2 & H3); cbn [scratch_grown scratch_allocation_count scratch_allocations].
  - lia.
  - lia.
  - unfold sizeof_ptr in *. destruct (Z.eqb_spec (scratch_allocation_capacity scratch) 0); lia.
  - lia.
  - split; [reflexivity |]. split; [exact H1 |]. split; [exact H2 | exact H3].
Qed.

Lemma scratch_realloc_null scratch b old_size new_size alignment :
  scratch_allocator_realloc bk scratch b NULL old_size new_size alignment =
  scratch_allocator_alloc bk scratch b new_size alignment.
Proof. reflexivity. Qed.

Lemma scratch_realloc_failure scratch b ptr old_size new_size alignment :
  ptr <> NULL ->
  (scratch_allocator_realloc bk scratch b ptr old_size new_size alignment).1 = NULL ->
  (alloc_realloc bk b ptr old_size new_size alignment).1 = NULL /\
  (scratch_allocator_realloc bk scratch b ptr old_size new_size alignment).2 =
    (scratch, (alloc_realloc bk b ptr old_size new_size alignment).2).
Proof.
  intros Hptr. unfold scratch_allocator_realloc.
  destruct (Z.eqb_spec ptr NULL) as [| _]; [contradiction |].
  destruct (alloc_realloc bk b ptr old_size new_size alignment) as [new_ptr b1].
  destruct (Z.eqb_spec new_ptr NULL) as [-> | Hnew]; simpl.
  - intros _. split; reflexivity.
  - intros; contradiction.
Qed.
End scratch_proofs.




Lemma traced_free {Ctx : Type} (bk : allocator (Ctx * memory)) s log (m : memory) p size :
  alloc_free (traced bk) ((s, log), m) p size
  = (((alloc_free bk (s, m) p size).1, log ++ [CallFree p size]),
     (alloc_free bk (s, m) p size).2).
Proof.
  unfold alloc_free. cbn [free traced]. destruct (free bk (s, m) p size). reflexivity.
Qed.

Lemma traced_free_all {Ctx : Type} (bk : allocator (Ctx * memory)) (l : list Z) :
  forall s log (m : memory),
  foldl (fun b p => alloc_free (traced bk) b p 0) ((s, log), m) l =
    (((foldl (fun b p => alloc_free bk b p 0) (s, m) l).1,
      log ++ ((fun p => CallFree p 0) <$> l)),
     (foldl (fun b p => alloc_free bk b p 0) (s, m) l).2).
Proof.
  induction l as [| p l IH]; intros s log m; cbn [foldl fmap list_fmap].
  - rewrite app_nil_r. reflexivity.
  - rewrite traced_free. rewrite IH. rewrite <- app_assoc.
    destruct (alloc_free bk (s, m) p 0). reflexivity.
Qed.


Section scratch_release.
Context {Ctx : Type} (bk : allocator (Ctx * memory)).
Variables (scratch : scratch_allocator) (m0 : memory).
Hypothesis Hplaced :
  0 <= scratch_allocations scratch /\
  scratch_allocations scratch + scratch_allocation_count scratch * sizeof_ptr
    <= SIZE_MAX_plus_1.
Hypothesis Hkept : forall b p,
  p ∈ scratch_tracked scratch m0 ->
  bytes_carried b.2 (scratch_allocations scratch) (alloc_free bk b p 0).2
    (scratch_allocations scratch) (scratch_allocation_count scratch * sizeof_ptr).

Lemma scratch_release_all_tracked k : forall i b,
  0 <= i -> i + Z.of_nat k = scratch_allocation_count scratch ->
  bytes_carried m0 (scratch_allocations scratch) b.2 (scratch_allocations scratch)
    (scratch_allocation_count scratch * sizeof_ptr) ->
  scratch_release_all bk k i scratch b
    = foldl (fun b p => alloc_free bk b p 0) b
        (scratch_cell scratch m0 <$> seqZ i (Z.of_nat k)) /\
  bytes_carried m0 (scratch_allocations scratch)
    (scratch_release_all bk k i scratch b).2 (scratch_allocations scratch)
    (scratch_allocation_count scratch * sizeof_ptr).
Proof.
  destruct Hplaced as [Ha Htop].
  induction k as [| k IH]; intros i b Hi Hcount Hsame.
  - split; [reflexivity | exact Hsame].
  - cbn [scratch_release_all].
    rewrite seqZ_cons by lia. rewrite Nat2Z.inj_succ, Z.pred_succ.
    cbn [fmap list_fmap foldl].
    assert (Hcell : scratch_cell scratch b.2 i = scratch_cell scratch m0 i).
    { apply (scratch_cell_carried scratch scratch m0 b.2 (scratch_allocation_count scratch));
        try assumption. lia. }
    rewrite Hcell.
    apply IH; [lia | lia |].
    eapply bytes_carried_trans; [exact Hsame |].
    apply Hkept. unfold scratch_tracked. apply list_elem_of_fmap.
    exists i. split; [reflexivity |]. apply elem_of_seqZ. lia.
Qed.

Lemma scratch_release_all_foldl b :
  0 <= scratch_allocation_count scratch ->
  b.2 = m0 ->
  scratch_release_all bk (Z.to_nat (scratch_allocation_count scratch)) 0 scratch b
    = foldl (fun b p => alloc_free bk b p 0) b (scratch_tracked scratch m0) /\
  scratch_tracked scratch
    (scratch_release_all bk (Z.to_nat (scratch_allocation_count scratch)) 0 scratch b).2
    = scratch_tracked scratch m0.
Proof.
  intros Hcount Hb.
  destruct (scratch_release_all_tracked (Z.to_nat (scratch_allocation_count scratch)) 0 b)
    as [Hrun Hsame]; [lia | lia | rewrite Hb; apply bytes_carried_refl |].
  rewrite Z2Nat.id in Hrun by lia. split; [exact Hrun |].
  destruct Hplaced as [Ha Htop].
  apply scratch_tracked_carried; try (reflexivity || assumption).
Qed.
End scratch_release.

Lemma traced_free_kept {Ctx : Type} (bk : allocator (Ctx * memory)) (P : Z -> Prop) a n :
  (forall b p, P p -> bytes_carried b.2 a (alloc_free bk b p 0).2 a n) ->
  forall b p, P p -> bytes_carried b.2 a (alloc_free (traced bk) b p 0).2 a n.
Proof.
  intros Hkept [[s log] m] p Hp. rewrite traced_free. cbn [snd].
  exact (Hkept (s, m) p Hp).
Qed.



Lemma freelist_get_free_kept fuel (b : option freelist_allocator * memory) p size a n :
  (p + sizeof_freelist_node <= a \/ a + n <= p) ->
  bytes_carried b.2 a (alloc_free (freelist_allocator_get fuel) b p size).2 a n.
Proof.
  intros Hout. destruct b as [[freelist |] m]; unfold alloc_free; cbn [free freelist_allocator_get snd].
  - unfold freelist_allocator_free.
    destruct (p =? NULL); cbn [snd]; [apply bytes_carried_refl |].
    intros i Hi. unfold sizeof_freelist_node in Hout.
    rewrite !load_byte_store_word_other by lia. reflexivity.
  - apply bytes_carried_refl.
Qed.



(** * Freelist *)

Lemma freelist_realloc_null fuel freelist m old_size new_size alignment :
  freelist_allocator_realloc fuel freelist m NULL old_size new_size alignment =
  freelist_allocator_alloc fuel freelist m new_size alignment.
Proof. reflexivity. Qed.

Lemma freelist_fits_Some m size alignment total_size node aligned_addr padding :
  freelist_fits m size alignment total_size node = Some (aligned_addr, padding) ->
  aligned_addr = align_forward node alignment /\
  padding = wrap (aligned_addr - node) /\
  node_size m node >= total_size /\
  node_size m node >= wrap (size + padding).
Proof.
  unfold freelist_fits.
  destruct (Z.geb_spec (node_size m node) total_size) as [Htotal |]; [| discriminate].
  destruct (Z.geb_spec (node_size m node)
              (wrap (size + wrap (align_forward node alignment - node)))) as [Hfit |];
    [| discriminate].
  intros [= <- <-]. repeat split; lia.
Qed.

Lemma freelist_fits_small m size alignment total_size node :
  node_size m node < total_size ->
  freelist_fits m size alignment total_size node = None.
Proof.
  intros Hlt. unfold freelist_fits.
  destruct (Z.geb_spec (node_size m node) total_size); [lia | reflexivity].
Qed.

Lemma freelist_take_result freelist m size total_size prev_ptr node aligned_addr padding :
  (freelist_take freelist m size total_size prev_ptr node aligned_addr padding).1
  = aligned_addr.
Proof.
  unfold freelist_take.
  destruct (freelist_set_link freelist m prev_ptr (node_next m node)) as [freelist1 m1].
  destruct (node_size m1 node >? wrap (total_size + sizeof_freelist_node)); reflexivity.
Qed.

(** A search that ends with [NULL] has walked the whole chain without
    touching the allocator or the memory. *)
Lemma freelist_search_null fuel : forall freelist m size k total_size prev_ptr node l w,
  0 <= k < 64 ->
  is_chain (node_next m) node l -> freelist_nodes_placed l (2 ^ k) ->
  freelist_search fuel freelist m size (2 ^ k) total_size prev_ptr node = Some (NULL, w) ->
  w = (freelist, m).
Proof.
  induction fuel as [| fuel IH]; intros freelist m size k total_size prev_ptr node l w
    Hk Hchain Hplaced; simpl; [discriminate |].
  destruct (Z.eqb_spec node NULL) as [-> | Hnode]; [intros [= <-]; reflexivity |].
  destruct l as [| q l]; simpl in Hchain; [contradiction |].
  destruct Hchain as (_ & -> & Hchain).
  apply Forall_cons in Hplaced as [[Hpos Htop] Hplaced].
  destruct (freelist_fits m size (2 ^ k) total_size node) as [[aligned_addr padding] |] eqn:Hfits.
  - intros [= Hres].
    apply (f_equal fst) in Hres. rewrite freelist_take_result in Hres. simpl in Hres.
    apply freelist_fits_Some in Hfits as (-> & _).
    rewrite align_forward_pow2 in Hres by lia.
    pose proof (pow2_bounds k Hk).
    pose proof (next_multiple_bounds node (2 ^ k) ltac:(lia)) as [Hb _].
    unfold NULL in Hres. lia.
  - intros Hsearch. exact (IH _ _ _ _ _ _ _ l w Hk Hchain Hplaced Hsearch).
Qed.

(** The search returns once the fuel exceeds the length of the chain. *)
Lemma freelist_search_returns l : forall freelist m size alignment total_size prev_ptr node f,
  is_chain (node_next m) node l ->
  exists r, freelist_search (length l + S f) freelist m size alignment total_size prev_ptr node
            = Some r.
Proof.
  induction l as [| q l IH]; intros freelist m size alignment total_size prev_ptr node f Hchain;
    simpl in Hchain |- *.
  - rewrite Hchain. simpl. eexists. reflexivity.
  - destruct Hchain as (Hnode & -> & Hchain).
    destruct (Z.eqb_spec node NULL) as [| _]; [contradiction |].
    destruct (freelist_fits m size alignment total_size node) as [[aligned_addr padding] |].
    + eexists. reflexivity.
    + apply IH. exact Hchain.
Qed.

Lemma freelist_alloc_returns freelist m size alignment l f :
  is_chain (node_next m) (freelist_free_list freelist) l ->
  exists r, freelist_allocator_alloc (length l + S f) freelist m size alignment = Some r.
Proof. intros Hchain. apply freelist_search_returns. exact Hchain. Qed.

Lemma freelist_realloc_failure fuel freelist m ptr old_size new_size k l w :
  0 <= k < 64 ->
  is_chain (node_next m) (freelist_free_list freelist) l ->
  freelist_nodes_placed l (2 ^ k) ->
  ptr <> NULL ->
  freelist_allocator_realloc fuel freelist m ptr old_size new_size (2 ^ k) = Some (NULL, w) ->
  w = (freelist, m).
Proof.
  intros Hk Hchain Hplaced Hptr. unfold freelist_allocator_realloc.
  destruct (Z.eqb_spec ptr NULL) as [| _]; [contradiction |].
  destruct (freelist_allocator_alloc fuel freelist m new_size (2 ^ k))
    as [[new_ptr [freelist1 m1]] |] eqn:Halloc; [| discriminate].
  destruct (Z.eqb_spec new_ptr NULL) as [-> | Hnew]; simpl.
  - intros [= <-].
    exact (freelist_search_null _ _ _ _ _ _ _ _ l _ Hk Hchain Hplaced Halloc).
  - intros [= Hnull]. contradiction.
Qed.

Lemma freelist_realloc_returns freelist m ptr old_size new_size alignment l f :
  is_chain (node_next m) (freelist_free_list freelist) l ->
  exists r, freelist_allocator_realloc (length l + S f) freelist m ptr old_size new_size
              alignment = Some r.
Proof.
  intros Hchain. unfold freelist_allocator_realloc.
  destruct (freelist_alloc_returns freelist m new_size alignment l f Hchain)
    as [[new_ptr [freelist1 m1]] Halloc].
  rewrite Halloc.
  destruct (ptr =? NULL); [eexists; reflexivity |].
  destruct (negb (new_ptr =? NULL) && negb false); eexists; reflexivity.
Qed.

(** * Failed reallocation *)

(** C2.  For each of the five strategies, when reallocate is called with a
    non-null pointer and returns the failure signal [NULL], nothing was
    released and nothing was written: the arena and the stack keep their
    offset and the memory, the pool keeps its free chain and the memory, the
    scratch allocator keeps its fields and writes nothing (its backing
    allocator, with the memory that holds the tracking array, is in the
    state its own failed reallocate left it in), and the freelist
    keeps its free chain and the memory.  The arena, the stack and the free
    blocks are placed below the top of the address space, with room for the
    alignment. *)
Theorem realloc_failure_keeps_allocation :
  (forall arena m ptr old_size new_size k,
     0 <= k < 64 -> arena_placed arena (2 ^ k) -> ptr <> NULL ->
     (arena_allocator_realloc arena m ptr old_size new_size (2 ^ k)).1 = NULL ->
     (arena_allocator_realloc arena m ptr old_size new_size (2 ^ k)).2 = (arena, m)) /\
  (forall stack m ptr old_size new_size k,
     0 <= k < 64 -> stack_placed stack (2 ^ k) -> ptr <> NULL ->
     (stack_allocator_realloc stack m ptr old_size new_size (2 ^ k)).1 = NULL ->
     (stack_allocator_realloc stack m ptr old_size new_size (2 ^ k)).2 = (stack, m)) /\
  (forall pool m ptr old_size new_size alignment,
     ptr <> NULL ->
     (pool_allocator_realloc pool m ptr old_size new_size alignment).1 = NULL ->
     (pool_allocator_realloc pool m ptr old_size new_size alignment).2 = (pool, m)) /\
  (forall (Ctx : Type) (bk : allocator (Ctx * memory)) scratch b
          ptr old_size new_size alignment,
     ptr <> NULL ->
     (scratch_allocator_realloc bk scratch b ptr old_size new_size alignment).1 = NULL ->
     (alloc_realloc bk b ptr old_size new_size alignment).1 = NULL /\
     (scratch_allocator_realloc bk scratch b ptr old_size new_size alignment).2 =
       (scratch, (alloc_realloc bk b ptr old_size new_size alignment).2)) /\
  (forall fuel freelist m ptr old_size new_size k l w,
     0 <= k < 64 ->
     is_chain (node_next m) (freelist_free_list freelist) l ->
     freelist_nodes_placed l (2 ^ k) ->
     ptr <> NULL ->
     freelist_allocator_realloc fuel freelist m ptr old_size new_size (2 ^ k)
       = Some (NULL, w) ->
     w = (freelist, m)).
Proof.
  split; [exact arena_realloc_failure |].
  split; [exact stack_realloc_failure |].
  split; [exact pool_realloc_failure |].
  split; [exact @scratch_realloc_failure |].
  exact freelist_realloc_failure.
Qed.

Lemma realloc_failure_keeps_allocation_witness :
  (* a 16-byte arena and stack holding one 8-byte block, asked for 64 bytes *)
  (let arena := arena_set_offset (arena_allocator_init 4096 16) 8 in
   arena_allocator_realloc arena ∅ 4096 8 64 (2 ^ 3) = (NULL, (arena, ∅))) /\
  (let stack := stack_set_offset (stack_allocator_init 4096 16) 8 in
   stack_allocator_realloc stack ∅ 4096 8 64 (2 ^ 3) = (NULL, (stack, ∅))) /\
  (* a pool of 32-byte chunks asked to grow a chunk to 64 bytes *)
  (let pool := (pool_allocator_init ∅ 4096 32 2).1 in
   let m := (pool_allocator_init ∅ 4096 32 2).2 in
   let pool1 := (pool_allocator_alloc pool m 32 8).2 in
   pool_allocator_realloc pool1 m 4096 32 64 8 = (NULL, (pool1, m))) /\
  (* a scratch allocator over the 16-byte arena *)
  (let arena := arena_set_offset (arena_allocator_init 4096 16) 8 in
   let st := scratch_push (scratch_grown scratch_allocator_init 8192 8) (arena, ∅) 4096 in
   scratch_allocator_realloc arena_allocator_get st.1 st.2 4096 8 64 8 = (NULL, st)) /\
  (* a 64-byte freelist holding one 16-byte block, asked for 100 bytes *)
  (let w0 := freelist_allocator_init ∅ 4096 64 in
   let a := default (NULL, w0) (freelist_allocator_alloc 2 w0.1 w0.2 16 8) in
   a.1 = 4096 /\
   freelist_allocator_realloc 2 a.2.1 a.2.2 4096 16 100 (2 ^ 3) = Some (NULL, a.2)).
Proof.
  destruct realloc_failure_keeps_allocation as (Harena & Hstack & Hpool & Hscratch & Hfreelist).
  split; [| split; [| split; [| split]]]; cbv zeta.
  - set (arena := arena_set_offset (arena_allocator_init 4096 16) 8).
    assert (Hnull : (arena_allocator_realloc arena ∅ 4096 8 64 (2 ^ 3)).1 = NULL)
      by (vm_compute; reflexivity).
    assert (Hplaced : arena_placed arena (2 ^ 3))
      by (unfold arena_placed, arena_inv, SIZE_MAX_plus_1; simpl; lia).
    pose proof (Harena arena ∅ 4096 8 64 3 ltac:(lia) Hplaced ltac:(discriminate) Hnull) as H.
    destruct (arena_allocator_realloc arena ∅ 4096 8 64 (2 ^ 3)) as [r w].
    simpl in *. congruence.
  - set (stack := stack_set_offset (stack_allocator_init 4096 16) 8).
    assert (Hnull : (stack_allocator_realloc stack ∅ 4096 8 64 (2 ^ 3)).1 = NULL)
      by (vm_compute; reflexivity).
    assert (Hplaced : stack_placed stack (2 ^ 3))
      by (unfold stack_placed, SIZE_MAX_plus_1; simpl; lia).
    pose proof (Hstack stack ∅ 4096 8 64 3 ltac:(lia) Hplaced ltac:(discriminate) Hnull) as H.
    destruct (stack_allocator_realloc stack ∅ 4096 8 64 (2 ^ 3)) as [r w].
    simpl in *. congruence.
  - set (m := (pool_allocator_init ∅ 4096 32 2).2).
    set (pool1 := (pool_allocator_alloc _ m 32 8).2).
    assert (Hnull : (pool_allocator_realloc pool1 m 4096 32 64 8).1 = NULL)
      by (vm_compute; reflexivity).
    pose proof (Hpool pool1 m 4096 32 64 8 ltac:(discriminate) Hnull) as H.
    destruct (pool_allocator_realloc pool1 m 4096 32 64 8) as [r w].
    simpl in *. congruence.
  - set (st := scratch_push _ _ 4096).
    assert (Hnull : (scratch_allocator_realloc arena_allocator_get st.1 st.2
                       4096 8 64 8).1 = NULL) by (vm_compute; reflexivity).
    destruct (Hscratch _ arena_allocator_get st.1 st.2 4096 8 64 8
                ltac:(discriminate) Hnull) as [_ H].
    assert (Hback : (alloc_realloc arena_allocator_get st.2 4096 8 64 8).2 = st.2)
      by (vm_compute; reflexivity).
    rewrite Hback in H. clearbody st.
    destruct (scratch_allocator_realloc arena_allocator_get st.1 st.2 4096 8 64 8)
      as [r w].
    destruct st. simpl in *. congruence.
  - set (a := default _ (freelist_allocator_alloc 2 _ _ 16 8)).
    assert (Hp : a.1 = 4096) by (vm_compute; reflexivity).
    assert (Hhead : freelist_free_list a.2.1 = 4112) by (vm_compute; reflexivity).
    assert (Hnext : node_next a.2.2 4112 = NULL) by (vm_compute; reflexivity).
    assert (Hnull : fst <$> freelist_allocator_realloc 2 a.2.1 a.2.2 4096 16 100 (2 ^ 3)
                    = Some NULL) by (vm_compute; reflexivity).
    assert (Hchain : is_chain (node_next a.2.2) (freelist_free_list a.2.1) [4112]).
    { cbn [is_chain]. rewrite Hhead, Hnext. repeat split; discriminate. }
    clearbody a.
    split; [exact Hp |].
    destruct (freelist_allocator_realloc 2 a.2.1 a.2.2 4096 16 100 (2 ^ 3))
      as [[r w] |] eqn:Hres; [| discriminate].
    simpl in Hnull. injection Hnull as ->.
    rewrite (Hfreelist 2%nat a.2.1 a.2.2 4096 16 100 3 [4112] w ltac:(lia) Hchain).
    + destruct a.2. reflexivity.
    + unfold freelist_nodes_placed. rewrite Forall_singleton. unfold SIZE_MAX_plus_1. lia.
    + discriminate.
    + exact Hres.
Defined.

(** * Freelist: first fit and splitting *)

Lemma freelist_search_skip l1 : forall freelist m size alignment total_size prev_ptr node rest f,
  is_chain (node_next m) node (l1 ++ rest) ->
  Forall (fun q => node_size m q < total_size) l1 ->
  exists p, is_chain (node_next m) p rest /\
    freelist_search (length l1 + f) freelist m size alignment total_size prev_ptr node
    = freelist_search f freelist m size alignment total_size
        (freelist_link_after prev_ptr l1) p.
Proof.
  induction l1 as [| q l1 IH]; intros freelist m size alignment total_size prev_ptr node rest f
    Hchain Hsmall.
  - exists node. split; [exact Hchain | reflexivity].
  - simpl in Hchain. destruct Hchain as (Hnode & -> & Hchain).
    apply Forall_cons in Hsmall as [Hq Hsmall].
    destruct (IH freelist m size alignment total_size (LinkNext node) (node_next m node)
                rest f Hchain Hsmall) as (p & Hp & Heq).
    exists p. split; [exact Hp |].
    cbn [length Nat.add freelist_search].
    destruct (Z.eqb_spec node NULL) as [| _]; [contradiction |].
    rewrite freelist_fits_small by exact Hq.
    exact Heq.
Qed.

Lemma freelist_fits_large m size k n :
  0 <= k < 64 -> 0 <= size -> 0 < n -> n + 2 ^ k <= SIZE_MAX_plus_1 ->
  size + 2 ^ k - 1 < SIZE_MAX_plus_1 ->
  size + 2 ^ k - 1 <= node_size m n ->
  freelist_fits m size (2 ^ k) (size + 2 ^ k - 1) n
  = Some (next_multiple n (2 ^ k), next_multiple n (2 ^ k) - n).
Proof.
  intros Hk Hsize Hn Htop Hov Hlarge. pose proof (pow2_bounds k Hk) as Ha.
  pose proof (next_multiple_bounds n (2 ^ k) ltac:(lia)) as [Hb _].
  unfold freelist_fits. rewrite align_forward_pow2 by lia.
  destruct (Z.geb_spec (node_size m n) (size + 2 ^ k - 1)) as [_ |]; [| lia].
  rewrite (wrap_small (next_multiple n (2 ^ k) - n)) by lia.
  rewrite wrap_small by lia.
  destruct (Z.geb_spec (node_size m n) (size + (next_multiple n (2 ^ k) - n))); [| lia].
  reflexivity.
Qed.

Lemma is_chain_unlink (next next' : Z -> Z) l1 : forall p q n l2,
  is_chain next p (l1 ++ q :: n :: l2) ->
  NoDup (l1 ++ q :: n :: l2) ->
  next' q = next n ->
  (forall x, x ∈ l1 ++ l2 -> x <> q -> next' x = next x) ->
  is_chain next' p (l1 ++ q :: l2).
Proof.
  induction l1 as [| a l1 IH]; intros p q n l2 Hchain Hnd Hq Hother; simpl in *.
  - destruct Hchain as (Hp & -> & Hn & -> & Hchain).
    split; [exact Hp |]. split; [reflexivity |]. rewrite Hq.
    revert Hchain. apply is_chain_ext. intros x Hx. apply Hother; [exact Hx |].
    intros ->. apply NoDup_cons in Hnd as [Hnotin _]. apply Hnotin. set_solver.
  - destruct Hchain as (Hp & -> & Hchain).
    apply NoDup_cons in Hnd as [Hnotin Hnd].
    split; [exact Hp |]. split; [reflexivity |].
    rewrite Hother; [| set_solver | intros ->; apply Hnotin; set_solver].
    apply (IH _ q n l2 Hchain Hnd Hq).
    intros x Hx. apply Hother. set_solver.
Qed.

Lemma freelist_header_frame (m : memory) a v x :
  (x + 16 <= a \/ a + 8 <= x) ->
  node_size (store_word m a v) x = node_size m x /\
  node_next (store_word m a v) x = node_next m x.
Proof.
  intros Hout. unfold node_size, node_next.
  split; apply load_store_word_other; lia.
Qed.

Lemma freelist_blocks_apart m l x y :
  freelist_blocks_wf m l -> x ∈ l -> y ∈ l -> x <> y ->
  x + 16 <= y \/ y + 16 <= x.
Proof.
  intros (_ & Hblock & Hapart) Hx Hy Hne.
  destruct (Hblock x Hx) as (_ & Hsx & _). destruct (Hblock y Hy) as (_ & Hsy & _).
  unfold sizeof_freelist_node in *.
  destruct (Hapart x y Hx Hy Hne); lia.
Qed.

Lemma freelist_unlink freelist m l1 n l2 :
  is_chain (node_next m) (freelist_free_list freelist) (l1 ++ n :: l2) ->
  freelist_blocks_wf m (l1 ++ n :: l2) ->
  let st := freelist_set_link freelist m (freelist_link_after LinkHead l1) (node_next m n) in
  is_chain (node_next st.2) (freelist_free_list st.1) (l1 ++ l2) /\
  (forall x, x ∈ l1 ++ n :: l2 -> node_size st.2 x = node_size m x) /\
  0 <= freelist_free_list st.1 < SIZE_MAX_plus_1.
Proof.
  intros Hchain Hwf.
  destruct l1 as [| q l1' _] using rev_ind; cbv zeta.
  - simpl in *. destruct Hchain as (_ & -> & Hchain).
    split; [exact Hchain |]. split; [reflexivity |]. apply load_word_range.
  - unfold freelist_link_after. rewrite foldl_snoc. cbn [freelist_set_link fst snd].
    rewrite <- app_assoc in Hchain, Hwf |- *. cbn [app] in Hchain, Hwf |- *.
    pose proof Hwf as (Hnd & Hblock & _).
    assert (Hq : q ∈ l1' ++ q :: n :: l2) by set_solver.
    split; [| split].
    + apply (is_chain_unlink (node_next m) _ l1' _ q n l2 Hchain Hnd).
      * unfold node_next at 1. apply load_store_word_same, load_word_range.
      * intros x Hx Hne.
        assert (Hx' : x ∈ l1' ++ q :: n :: l2) by set_solver.
        unfold node_next. apply load_store_word_other.
        destruct (freelist_blocks_apart m _ x q Hwf Hx' Hq Hne); lia.
    + intros x Hx.
      assert (Hx' : x ∈ l1' ++ q :: n :: l2).
      { rewrite <- app_assoc in Hx. exact Hx. }
      unfold node_size. apply load_store_word_other.
      destruct (Z.eq_dec x q) as [-> | Hne]; [lia |].
      destruct (freelist_blocks_apart m _ x q Hwf Hx' Hq Hne); lia.
    + destruct l1' as [| a l1'']; simpl in Hchain.
      * destruct Hchain as (_ & <- & _).
        destruct (Hblock q Hq) as (H0 & H16 & Htop). unfold sizeof_freelist_node in *. lia.
      * destruct Hchain as (_ & Heq & _). rewrite <- Heq.
        destruct (Hblock a ltac:(set_solver)) as (H0 & H16 & Htop).
        unfold sizeof_freelist_node in *. lia.
Qed.

Lemma freelist_blocks_wf_remove (m m' : memory) l1 n l2 :
  freelist_blocks_wf m (l1 ++ n :: l2) ->
  (forall q, q ∈ l1 ++ l2 -> node_size m' q = node_size m q) ->
  freelist_blocks_wf m' (l1 ++ l2).
Proof.
  intros (Hnd & Hblock & Hapart) Hsame.
  assert (Hsub : forall q, q ∈ l1 ++ l2 -> q ∈ l1 ++ n :: l2) by set_solver.
  split; [| split].
  - apply NoDup_app in Hnd as (Hnd1 & Hdisj & Hnd2).
    apply NoDup_cons in Hnd2 as [_ Hnd2].
    apply NoDup_app. split; [exact Hnd1 |]. split; [| exact Hnd2].
    intros x Hx1 Hx2. apply (Hdisj x Hx1). right. exact Hx2.
  - intros q Hq. rewrite (Hsame q Hq). apply Hblock, Hsub, Hq.
  - intros q q' Hq Hq' Hne. rewrite (Hsame q Hq), (Hsame q' Hq').
    apply Hapart; [apply Hsub, Hq | apply Hsub, Hq' | exact Hne].
Qed.

Lemma freelist_blocks_wf_cons (m m' : memory) l p :
  freelist_blocks_wf m l ->
  (forall q, q ∈ l -> node_size m' q = node_size m q) ->
  0 < p -> sizeof_freelist_node <= node_size m' p ->
  p + node_size m' p < SIZE_MAX_plus_1 ->
  (forall q, q ∈ l -> q + node_size m q <= p \/ p + node_size m' p <= q) ->
  freelist_blocks_wf m' (p :: l).
Proof.
  intros (Hnd & Hblock & Hapart) Hsame Hpos Hlen Htop Hp.
  assert (Hnotin : p ∉ l).
  { intros Hin. destruct (Hblock p Hin) as (_ & H16 & _).
    unfold sizeof_freelist_node in *. destruct (Hp p Hin); lia. }
  split; [| split].
  - apply NoDup_cons. split; assumption.
  - intros q [-> | Hq]%elem_of_cons; [repeat split; assumption |].
    rewrite (Hsame q Hq). apply Hblock, Hq.
  - intros q q' [-> | Hq]%elem_of_cons [-> | Hq']%elem_of_cons Hne.
    + contradiction.
    + rewrite (Hsame q' Hq'). destruct (Hp q' Hq'); lia.
    + rewrite (Hsame q Hq). destruct (Hp q Hq); lia.
    + rewrite (Hsame q Hq), (Hsame q' Hq'). apply Hapart; assumption.
Qed.

(** C5, amended.  In the freelist allocator's allocate (power-of-two
    alignment, [size + alignment - 1] plus a header not overflowing), on a
    chain of well-formed free blocks (pairwise disjoint, each at least a
    header long and ending inside the address space), the search passes
    over every block smaller than [size + alignment - 1], the worst-case
    padded size, and takes the first block that is at least that large; such
    a block always accommodates [size + padding].  After unlinking it, the
    remainder [node size - (size + padding)] is written as a new free block
    at [node + size + padding] and put at the chain head exactly when the
    block's size exceeds [size + alignment - 1] plus the size of a
    free-block header; otherwise the chain is just the old one without the
    block.  The sizes of all other free blocks are unchanged and the chain
    left is again one of well-formed free blocks. *)
Theorem freelist_alloc_first_fit (freelist : freelist_allocator) (m : memory)
    (size k : Z) (l1 : list Z) (n : Z) (l2 : list Z) (f : nat) :
  let alignment := 2 ^ k in
  let total_size := size + alignment - 1 in
  let aligned_addr := next_multiple n alignment in
  let padding := aligned_addr - n in
  let new_node := n + size + padding in
  0 <= k < 64 -> 0 <= size ->
  total_size + sizeof_freelist_node < SIZE_MAX_plus_1 ->
  is_chain (node_next m) (freelist_free_list freelist) (l1 ++ n :: l2) ->
  freelist_blocks_wf m (l1 ++ n :: l2) ->
  Forall (fun q => node_size m q < total_size) l1 ->
  total_size <= node_size m n ->
  exists freelist' m',
    freelist_allocator_alloc (length l1 + S f) freelist m size alignment
      = Some (aligned_addr, (freelist', m')) /\
    0 <= padding < alignment /\
    size + padding <= node_size m n /\
    (forall q, q ∈ l1 ++ l2 -> node_size m' q = node_size m q) /\
    if node_size m n >? total_size + sizeof_freelist_node then
      freelist_free_list freelist' = new_node /\
      node_size m' new_node = node_size m n - (size + padding) /\
      is_chain (node_next m') (freelist_free_list freelist') (new_node :: l1 ++ l2) /\
      freelist_blocks_wf m' (new_node :: l1 ++ l2)
    else
      is_chain (node_next m') (freelist_free_list freelist') (l1 ++ l2) /\
      freelist_blocks_wf m' (l1 ++ l2).
Proof.
  intros alignment total_size aligned_addr padding new_node
    Hk Hsize Hov Hchain Hwf Hsmall Hlarge.
  pose proof (pow2_bounds k Hk) as Ha. fold alignment in Ha.
  unfold sizeof_freelist_node in Hov.
  assert (Htotal : total_size = size + alignment - 1) by reflexivity.
  assert (Hpadding : padding = aligned_addr - n) by reflexivity.
  assert (Hnew : new_node = n + size + padding) by reflexivity.
  assert (Hn : n ∈ l1 ++ n :: l2) by set_solver.
  pose proof Hwf as (Hnd & Hblock & Happart).
  destruct (Hblock n Hn) as (Hnpos & Hn16 & Hntop). unfold sizeof_freelist_node in Hn16.
  pose proof (next_multiple_bounds n alignment ltac:(lia)) as [Hb _].
  fold aligned_addr in Hb.
  assert (Hpad : 0 <= padding < alignment) by (unfold padding; lia).
  (* the search skips [l1] and stops at [n] *)
  unfold freelist_allocator_alloc.
  replace (wrap (wrap (size + alignment) - 1)) with total_size
    by (rewrite (wrap_small (size + alignment)) by lia; rewrite wrap_small by lia; lia).
  destruct (freelist_search_skip l1 freelist m size alignment total_size LinkHead
              (freelist_free_list freelist) (n :: l2) (S f) Hchain Hsmall)
    as (p & Hp & ->).
  simpl in Hp. destruct Hp as (Hpn & <- & _).
  cbn [freelist_search].
  destruct (Z.eqb_spec n NULL) as [| _]; [contradiction |].
  unfold alignment, total_size. rewrite freelist_fits_large by (fold alignment; lia).
  fold alignment total_size aligned_addr padding.
  (* unlinking [n] *)
  unfold freelist_take.
  pose proof (freelist_unlink freelist m l1 n l2 Hchain Hwf) as Hunlink. cbv zeta in Hunlink.
  destruct (freelist_set_link freelist m (freelist_link_after LinkHead l1) (node_next m n))
    as [freelist1 m1].
  cbn [fst snd] in Hunlink. destruct Hunlink as (Hchain1 & Hsizes1 & Hhead1).
  rewrite (Hsizes1 n Hn).
  rewrite (wrap_small (total_size + sizeof_freelist_node))
    by (unfold sizeof_freelist_node; lia).
  assert (Hothers1 : forall q, q ∈ l1 ++ l2 -> node_size m1 q = node_size m q).
  { intros q Hq. apply Hsizes1. set_solver. }
  destruct (Z.gtb_spec (node_size m n) (total_size + sizeof_freelist_node)) as [Hsplit | Hwhole].
  - (* the remainder becomes a new block at the head *)
    unfold sizeof_freelist_node in Hsplit.
    rewrite (wrap_small (n + size)) by lia.
    rewrite (wrap_small (n + size + padding)) by lia.
    rewrite (wrap_small (size + padding)) by lia.
    rewrite (wrap_small (node_size m n - (size + padding))) by lia.
    fold new_node.
    assert (Hframe : forall q, q ∈ l1 ++ l2 ->
              q + 16 <= new_node \/ new_node + 16 <= q).
    { intros q Hq.
      assert (Hq' : q ∈ l1 ++ n :: l2) by set_solver.
      assert (Hne : q <> n).
      { intros ->. apply NoDup_app in Hnd as (_ & Hdisj & Hnd2).
        apply NoDup_cons in Hnd2 as [Hnl2 _].
        apply elem_of_app in Hq as [Hq | Hq]; [| contradiction].
        apply (Hdisj n Hq). set_solver. }
      destruct (Hblock q Hq') as (_ & Hq16 & _). unfold sizeof_freelist_node in Hq16.
      unfold new_node. destruct (Happart q n Hq' Hn Hne); lia. }
    set (m' := store_word (store_word m1 new_node (node_size m n - (size + padding)))
                 (new_node + 8) (freelist_free_list freelist1)).
    assert (Hothers : forall q, q ∈ l1 ++ l2 -> node_size m' q = node_size m q).
    { intros q Hq. rewrite <- (Hothers1 q Hq). unfold m'.
      destruct (Hframe q Hq).
      * rewrite (proj1 (freelist_header_frame _ (new_node + 8) _ q ltac:(lia))).
        apply (freelist_header_frame _ new_node _ q). lia.
      * rewrite (proj1 (freelist_header_frame _ (new_node + 8) _ q ltac:(lia))).
        apply (freelist_header_frame _ new_node _ q). lia. }
    assert (Hnewsize : node_size m' new_node = node_size m n - (size + padding)).
    { unfold m'. unfold node_size at 1. rewrite load_store_word_other by lia.
      apply load_store_word_same. lia. }
    eexists _, _. split; [reflexivity |].
    split; [exact Hpad |]. split; [lia |]. cbn [freelist_set_free_list freelist_free_list].
    split; [exact Hothers |]. split; [reflexivity |]. split; [exact Hnewsize |]. split.
    2: { apply (freelist_blocks_wf_cons m m' (l1 ++ l2) new_node).
         - apply (freelist_blocks_wf_remove m m l1 n l2 Hwf). reflexivity.
         - exact Hothers.
         - unfold new_node. lia.
         - rewrite Hnewsize. unfold sizeof_freelist_node. lia.
         - rewrite Hnewsize. unfold new_node. lia.
         - intros q Hq. rewrite Hnewsize.
           assert (Hq' : q ∈ l1 ++ n :: l2) by set_solver.
           assert (Hne : q <> n).
           { intros ->. apply NoDup_app in Hnd as (_ & Hdisj & Hnd2).
             apply NoDup_cons in Hnd2 as [Hnl2 _].
             apply elem_of_app in Hq as [Hq | Hq]; [| contradiction].
             apply (Hdisj n Hq). set_solver. }
           unfold new_node. destruct (Happart q n Hq' Hn Hne); lia. }
    + unfold m'. cbn [is_chain]. split; [unfold NULL, new_node; lia |]. split; [reflexivity |].
      unfold node_next at 2. rewrite load_store_word_same by exact Hhead1.
      revert Hchain1. apply is_chain_ext. intros q Hq.
      destruct (Hframe q Hq).
      * rewrite (proj2 (freelist_header_frame _ (new_node + 8) _ q ltac:(lia))).
        apply (freelist_header_frame _ new_node _ q). lia.
      * rewrite (proj2 (freelist_header_frame _ (new_node + 8) _ q ltac:(lia))).
        apply (freelist_header_frame _ new_node _ q). lia.
  - eexists _, _. split; [reflexivity |].
    split; [exact Hpad |]. split; [unfold total_size in Hlarge; lia |].
    split; [exact Hothers1 |]. split; [exact Hchain1 |].
    exact (freelist_blocks_wf_remove m m1 l1 n l2 Hwf Hothers1).
Qed.

Lemma freelist_alloc_first_fit_witness :
  let w := freelist_allocator_init ∅ 4096 1024 in
  (exists freelist' m',
     freelist_allocator_alloc 1 w.1 w.2 64 (2 ^ 3) = Some (4096, (freelist', m')) /\
     freelist_free_list freelist' = 4160 /\ node_size m' 4160 = 960 /\
     is_chain (node_next m') (freelist_free_list freelist') [4160]) /\
  (exists freelist' m',
     freelist_allocator_alloc 1 w.1 w.2 1001 (2 ^ 3) = Some (4096, (freelist', m')) /\
     is_chain (node_next m') (freelist_free_list freelist') []) /\
  (* a released 128-byte block at the head is passed over by a 200-byte
     request, which is served from the 768-byte block behind it *)
  (let a1 := default (NULL, w) (freelist_allocator_alloc 1 w.1 w.2 64 8) in
   let a2 := default a1 (freelist_allocator_alloc 1 a1.2.1 a1.2.2 128 8) in
   let a3 := default a2 (freelist_allocator_alloc 1 a2.2.1 a2.2.2 64 8) in
   let w4 := freelist_allocator_free a3.2.1 a3.2.2 a2.1 128 in
   is_chain (node_next w4.2) (freelist_free_list w4.1) [4160; 4352] /\
   exists freelist' m',
     freelist_allocator_alloc 2 w4.1 w4.2 200 (2 ^ 3) = Some (4352, (freelist', m')) /\
     node_size m' 4552 = 568 /\
     is_chain (node_next m') (freelist_free_list freelist') [4552; 4160]).
Proof.
  cbv zeta.
  assert (Hthird :
    let w := freelist_allocator_init ∅ 4096 1024 in
    let a1 := default (NULL, w) (freelist_allocator_alloc 1 w.1 w.2 64 8) in
    let a2 := default a1 (freelist_allocator_alloc 1 a1.2.1 a1.2.2 128 8) in
    let a3 := default a2 (freelist_allocator_alloc 1 a2.2.1 a2.2.2 64 8) in
    let w4 := freelist_allocator_free a3.2.1 a3.2.2 a2.1 128 in
    is_chain (node_next w4.2) (freelist_free_list w4.1) [4160; 4352] /\
    exists freelist' m',
      freelist_allocator_alloc 2 w4.1 w4.2 200 (2 ^ 3) = Some (4352, (freelist', m')) /\
      node_size m' 4552 = 568 /\
      is_chain (node_next m') (freelist_free_list freelist') [4552; 4160]).
  { cbv zeta.
    set (w4 := freelist_allocator_free _ _ _ 128).
    assert (Hhead : freelist_free_list w4.1 = 4160) by (vm_compute; reflexivity).
    assert (Hs1 : node_size w4.2 4160 = 128) by (vm_compute; reflexivity).
    assert (Hn1 : node_next w4.2 4160 = 4352) by (vm_compute; reflexivity).
    assert (Hs2 : node_size w4.2 4352 = 768) by (vm_compute; reflexivity).
    assert (Hn2 : node_next w4.2 4352 = NULL) by (vm_compute; reflexivity).
    assert (Haligned : next_multiple 4352 (2 ^ 3) = 4352) by (vm_compute; reflexivity).
    clearbody w4.
    assert (Hchain : is_chain (node_next w4.2) (freelist_free_list w4.1)
                       ([4160] ++ 4352 :: [])).
    { cbn [app is_chain]. rewrite Hhead, Hn1, Hn2. repeat split; discriminate. }
    split; [exact Hchain |].
    assert (Hwf : freelist_blocks_wf w4.2 ([4160] ++ 4352 :: [])).
    { cbn [app]. split; [| split].
      - apply NoDup_cons. split; [| apply NoDup_singleton].
        intros Hin%list_elem_of_singleton. discriminate.
      - intros n [-> | ->%list_elem_of_singleton]%elem_of_cons;
          rewrite ?Hs1, ?Hs2; unfold sizeof_freelist_node, SIZE_MAX_plus_1; lia.
      - intros n n' [-> | ->%list_elem_of_singleton]%elem_of_cons
                    [-> | ->%list_elem_of_singleton]%elem_of_cons Hne;
          rewrite ?Hs1, ?Hs2; try contradiction; lia. }
    destruct (freelist_alloc_first_fit w4.1 w4.2 200 3 [4160] 4352 [] 0)
      as (freelist' & m' & Halloc & _ & _ & _ & Hsplit);
      try (unfold sizeof_freelist_node, SIZE_MAX_plus_1; lia);
      try assumption.
    { apply Forall_singleton. rewrite Hs1. lia. }
    rewrite Hs2, Haligned in Hsplit. rewrite Haligned in Halloc.
    change (768 >? 200 + 2 ^ 3 - 1 + sizeof_freelist_node) with true in Hsplit.
    cbn iota in Hsplit. change (4352 + 200 + (4352 - 4352)) with 4552 in Hsplit.
    change (768 - (200 + (4352 - 4352))) with 568 in Hsplit.
    destruct Hsplit as (H1 & H2 & H3 & _).
    exists freelist', m'. split; [exact Halloc |]. split; [exact H2 | exact H3]. }
  cbv zeta in Hthird. revert Hthird.
  set (freelist := (freelist_allocator_init ∅ 4096 1024).1).
  set (m := (freelist_allocator_init ∅ 4096 1024).2).
  assert (Hhead : freelist_free_list freelist = 4096) by reflexivity.
  assert (Hsize : node_size m 4096 = 1024) by (vm_compute; reflexivity).
  assert (Hnext : node_next m 4096 = NULL) by (vm_compute; reflexivity).
  assert (Haligned : next_multiple 4096 (2 ^ 3) = 4096) by (vm_compute; reflexivity).
  clearbody m freelist.
  assert (Hchain : is_chain (node_next m) (freelist_free_list freelist) ([] ++ 4096 :: [])).
  { cbn [app is_chain]. rewrite Hhead, Hnext. repeat split; discriminate. }
  assert (Hwf : freelist_blocks_wf m ([] ++ 4096 :: [])).
  { cbn [app]. split; [apply NoDup_singleton |]. split.
    - intros n ->%list_elem_of_singleton. rewrite Hsize.
      unfold sizeof_freelist_node, SIZE_MAX_plus_1. lia.
    - intros n n' ->%list_elem_of_singleton ->%list_elem_of_singleton Hne. contradiction. }
  intros Hthird. split; [| split; [| exact Hthird]].
  - destruct (freelist_alloc_first_fit freelist m 64 3 [] 4096 [] 0)
      as (freelist' & m' & Halloc & _ & _ & _ & Hsplit);
      try (unfold sizeof_freelist_node, SIZE_MAX_plus_1; lia);
      try assumption; try apply Forall_nil_2.
    rewrite Hsize, Haligned in Hsplit. rewrite Haligned in Halloc.
    change (1024 >? 64 + 2 ^ 3 - 1 + sizeof_freelist_node) with true in Hsplit.
    cbn iota in Hsplit. change (4096 + 64 + (4096 - 4096)) with 4160 in Hsplit.
    change (1024 - (64 + (4096 - 4096))) with 960 in Hsplit.
    destruct Hsplit as (H1 & H2 & H3 & _).
    exists freelist', m'. split; [exact Halloc |]. split; [exact H1 |].
    split; [exact H2 | exact H3].
  - destruct (freelist_alloc_first_fit freelist m 1001 3 [] 4096 [] 0)
      as (freelist' & m' & Halloc & _ & _ & _ & Hsplit);
      try (unfold sizeof_freelist_node, SIZE_MAX_plus_1; lia);
      try assumption; try apply Forall_nil_2.
    rewrite Hsize in Hsplit. rewrite Haligned in Halloc.
    change (1024 >? 1001 + 2 ^ 3 - 1 + sizeof_freelist_node) with false in Hsplit.
    cbn iota in Hsplit.
    exists freelist', m'. split; [exact Halloc | exact (proj1 Hsplit)].
Defined.

(** C5, as stated, fails on the code in both halves.  A 64-byte free block
    at the aligned address 4096 accommodates a 64-byte request with padding
    0, yet it is not taken: the request fails.  And a 1024-byte block from
    which 1001 bytes (padding 0) are carved leaves a remainder of 23 bytes,
    more than the 16-byte header, yet the remainder is not re-inserted: the
    chain is empty afterwards. *)
Lemma freelist_alloc_claim_counterexample :
  (let w := freelist_allocator_init ∅ 4096 64 in
   node_size w.2 (freelist_free_list w.1) = 64 /\
   wrap (align_forward 4096 8 - 4096) = 0 /\
   freelist_allocator_alloc 2 w.1 w.2 64 8 = Some (NULL, w)) /\
  (let w := freelist_allocator_init ∅ 4096 1024 in
   let res := default (NULL, w) (freelist_allocator_alloc 2 w.1 w.2 1001 8) in
   node_size w.2 (freelist_free_list w.1) = 1024 /\
   wrap (align_forward 4096 8 - 4096) = 0 /\
   res.1 = 4096 /\
   1024 - (1001 + 0) > sizeof_freelist_node /\
   freelist_free_list res.2.1 = NULL).
Proof. vm_compute. repeat split; reflexivity. Qed.

(** The condition of well-formed free blocks is needed: once a span shorter
    than a header has been released next to a free block, the two headers
    overlap.  Unlinking the block at 4104 then writes its link over its own
    recorded size, and although that size read 4104 when the block was
    chosen, no remainder is re-inserted. *)
Example freelist_alloc_overlapping_headers :
  let w := freelist_allocator_init ∅ 4096 1024 in
  let a := default (NULL, w) (freelist_allocator_alloc 1 w.1 w.2 8 8) in
  let st := freelist_allocator_free a.2.1 a.2.2 4096 8 in
  let r := default (NULL, st) (freelist_allocator_alloc 3 st.1 st.2 16 8) in
  is_chain (node_next st.2) (freelist_free_list st.1) [4096; 4104] /\
  node_size st.2 4104 = 4104 /\
  r.1 = 4104 /\
  is_chain (node_next r.2.2) (freelist_free_list r.2.1) [4096].
Proof. vm_compute. repeat split; try reflexivity; discriminate. Qed.

(** A fresh freelist over a buffer of at least a header's length is one
    well-formed free block. *)
Lemma freelist_init_blocks_wf (m : memory) buffer size :
  0 < buffer -> sizeof_freelist_node <= size -> buffer + size < SIZE_MAX_plus_1 ->
  freelist_blocks_wf (freelist_allocator_init m buffer size).2 [buffer].
Proof.
  intros Hbuf Hsize Htop. unfold freelist_allocator_init. cbn [snd].
  assert (Hs : node_size (store_word (store_word m buffer size) (buffer + 8) NULL) buffer
               = size).
  { unfold node_size. rewrite load_store_word_other by lia.
    apply load_store_word_same. unfold sizeof_freelist_node in Hsize. lia. }
  split; [apply NoDup_singleton |]. split.
  - intros n ->%list_elem_of_singleton. rewrite Hs. repeat split; assumption.
  - intros n n' ->%list_elem_of_singleton ->%list_elem_of_singleton Hne. contradiction.
Qed.

(** When no block reaches [size + alignment - 1] the request fails and
    nothing changes. *)
Lemma freelist_alloc_none_fit freelist m size alignment l f :
  is_chain (node_next m) (freelist_free_list freelist) l ->
  Forall (fun q => node_size m q < wrap (wrap (size + alignment) - 1)) l ->
  freelist_allocator_alloc (length l + S f) freelist m size alignment
  = Some (NULL, (freelist, m)).
Proof.
  intros Hchain Hsmall. unfold freelist_allocator_alloc.
  rewrite <- (app_nil_r l) in Hchain.
  destruct (freelist_search_skip l freelist m size alignment _ LinkHead
              (freelist_free_list freelist) [] (S f) Hchain Hsmall) as (p & Hp & ->).
  simpl in Hp. rewrite Hp. reflexivity.
Qed.

(** The freelist scenario of the design: a 1024-byte buffer; allocate 64,
    128 and 64 bytes; release the 128-byte block; a 100-byte request is then
    served from the released block, which is split. *)
Example freelist_scenario :
  let '(fl0, m0) := freelist_allocator_init ∅ 4096 1024 in
  let '(f1, (fl1, m1)) := default (NULL, (fl0, m0)) (freelist_allocator_alloc 4 fl0 m0 64 8) in
  let '(f2, (fl2, m2)) := default (NULL, (fl1, m1)) (freelist_allocator_alloc 4 fl1 m1 128 8) in
  let '(f3, (fl3, m3)) := default (NULL, (fl2, m2)) (freelist_allocator_alloc 4 fl2 m2 64 8) in
  let '(fl4, m4) := freelist_allocator_free fl3 m3 f2 128 in
  let '(f4, (fl5, m5)) := default (NULL, (fl4, m4)) (freelist_allocator_alloc 4 fl4 m4 100 8) in
  (f1, f2, f3, f4, freelist_free_list fl5, node_size m5 (freelist_free_list fl5))
  = (4096, 4160, 4288, 4160, 4260, 28).
Proof. vm_compute. reflexivity. Qed.

(** * Further properties: alignment and the arena *)

(** X1.  For a power-of-two alignment, [align_forward] returns the least
    multiple of the alignment that is not below its argument: the result is
    a multiple of the alignment, lies in [[p, p + alignment)], is below every
    other such multiple, and is a fixed point of [align_forward]. *)
Theorem align_forward_least_multiple (p k : Z) :
  0 <= k < 64 -> 0 <= p -> p + 2 ^ k <= SIZE_MAX_plus_1 ->
  let r := align_forward p (2 ^ k) in
  r mod 2 ^ k = 0 /\
  p <= r < p + 2 ^ k /\
  (forall q, p <= q -> q mod 2 ^ k = 0 -> r <= q) /\
  align_forward r (2 ^ k) = r.
Proof.
  intros Hk Hp Hfit r. pose proof (pow2_bounds k Hk) as Ha.
  unfold r. rewrite align_forward_pow2 by assumption.
  destruct (next_multiple_bounds p (2 ^ k) ltac:(lia)) as [Hb Hm].
  split; [exact Hm |]. split; [exact Hb |]. split.
  - intros q Hq Hqm. apply next_multiple_least; [lia | exact Hq | exact Hqm].
  - unfold align_forward. rewrite land_low_bits by exact Hk. rewrite Hm. reflexivity.
Qed.

Lemma align_forward_least_multiple_witness :
  align_forward 13 (2 ^ 3) = 16 /\ align_forward (align_forward 13 (2 ^ 3)) (2 ^ 3) = 16.
Proof.
  pose proof (align_forward_least_multiple 13 3 ltac:(lia) ltac:(lia)
                ltac:(unfold SIZE_MAX_plus_1; lia)) as H.
  cbv zeta in H. destruct H as (_ & _ & _ & Hfix).
  assert (Hr : align_forward 13 (2 ^ 3) = 16) by (vm_compute; reflexivity).
  split; [exact Hr |]. rewrite Hfix. exact Hr.
Defined.

Lemma align_forward_zero alignment : align_forward 0 alignment = 0.
Proof. unfold align_forward. rewrite Z.land_0_l. reflexivity. Qed.

(** X2.  An arena whose cursor is at 0 (after [arena_allocator_reset], so
    also after [arena_allocator_init]) serves a first request exactly when
    the size does not exceed the buffer size, whatever the alignment: it
    then returns the buffer start and the cursor becomes the size;
    otherwise it fails and the arena is unchanged. *)
Theorem arena_first_alloc (arena : arena_allocator) (size alignment : Z) :
  0 <= arena_buffer arena < SIZE_MAX_plus_1 ->
  0 <= size < SIZE_MAX_plus_1 ->
  arena_allocator_alloc (arena_allocator_reset arena) size alignment =
    if size >? arena_buffer_size arena then (NULL, arena_allocator_reset arena)
    else (arena_buffer arena, arena_set_offset arena size).
Proof.
  intros Hbuf Hsize. unfold arena_allocator_alloc, arena_allocator_reset. simpl.
  rewrite align_forward_zero, Z.add_0_l, Z.add_0_r.
  rewrite (wrap_small size) by exact Hsize.
  rewrite (wrap_small (arena_buffer arena)) by exact Hbuf.
  reflexivity.
Qed.

Lemma arena_first_alloc_witness :
  arena_allocator_alloc (arena_allocator_reset (arena_allocator_init 4096 1024)) 1024 7
  = (4096, arena_set_offset (arena_allocator_init 4096 1024) 1024) /\
  arena_allocator_alloc (arena_allocator_reset (arena_allocator_init 4096 1024)) 1025 1
  = (NULL, arena_allocator_reset (arena_allocator_init 4096 1024)).
Proof.
  split.
  - apply (arena_first_alloc (arena_allocator_init 4096 1024) 1024 7);
      unfold SIZE_MAX_plus_1; simpl; lia.
  - apply (arena_first_alloc (arena_allocator_init 4096 1024) 1025 1);
      unfold SIZE_MAX_plus_1; simpl; lia.
Defined.

(** A successful allocation: where the span lies. *)
Lemma arena_alloc_success arena size k :
  0 <= k < 64 -> arena_placed arena (2 ^ k) ->
  request_ok (arena_buffer_size arena) size k ->
  (arena_allocator_alloc arena size (2 ^ k)).1 <> NULL ->
  let p := (arena_allocator_alloc arena size (2 ^ k)).1 in
  let arena' := (arena_allocator_alloc arena size (2 ^ k)).2 in
  p = arena_buffer arena + next_multiple (arena_offset arena) (2 ^ k) /\
  arena' = arena_set_offset arena (next_multiple (arena_offset arena) (2 ^ k) + size) /\
  arena_buffer arena + arena_offset arena <= p /\
  p + size = arena_buffer arena + arena_offset arena' /\
  arena_placed arena' (2 ^ k).
Proof.
  intros Hk Hplaced [Hsize Hreq] Hok.
  pose proof Hplaced as (Hbuf & Hfit & Hinv). unfold arena_inv in Hinv.
  pose proof (pow2_bounds k Hk) as Ha.
  pose proof (next_multiple_bounds (arena_offset arena) (2 ^ k) ltac:(lia)) as [Hb _].
  revert Hok. cbv zeta.
  rewrite (arena_alloc_spec arena size k Hk Hplaced Hsize) by lia.
  destruct (Z.gtb_spec (next_multiple (arena_offset arena) (2 ^ k) + size)
              (arena_buffer_size arena)) as [| Hle]; simpl; [contradiction |].
  intros _. split; [reflexivity |]. split; [reflexivity |].
  split; [lia |]. split; [lia |].
  unfold arena_placed, arena_inv. simpl. lia.
Qed.

Lemma arena_alloc_spans_above reqs : forall arena,
  (forall size k, (size, k) ∈ reqs ->
     0 <= k < 64 /\ request_ok (arena_buffer_size arena) size k /\
     arena_placed arena (2 ^ k) ) ->
  0 <= arena_offset arena <= arena_buffer_size arena ->
  Forall (fun s => arena_buffer arena + arena_offset arena <= s.1 /\
                   s.1 + s.2 <= arena_buffer arena + arena_buffer_size arena)
    (arena_alloc_spans reqs arena) /\
  StronglySorted span_before (arena_alloc_spans reqs arena).
Proof.
  induction reqs as [| [size k] reqs IH]; intros arena Hreqs Hinv; simpl.
  - split; [apply Forall_nil_2 | constructor].
  - destruct (Hreqs size k ltac:(left)) as (Hk & Hreq & Hplaced).
    pose proof (arena_alloc_success arena size k Hk Hplaced Hreq) as Hsucc.
    pose proof (arena_alloc_null arena size k Hk Hplaced) as Hfail.
    destruct (arena_allocator_alloc arena size (2 ^ k)) as [p arena'].
    cbn [fst snd] in Hsucc, Hfail.
    destruct (Z.eqb_spec p NULL) as [Hp | Hp].
    + rewrite (Hfail Hp). apply IH; [| exact Hinv].
      intros size' k' Hin. apply Hreqs. right. exact Hin.
    + destruct (Hsucc Hp) as (_ & Harena' & Hlow & Hend & Hplaced').
      destruct Hreq as [Hsz _].
      assert (Hfields : arena_buffer arena' = arena_buffer arena /\
                        arena_buffer_size arena' = arena_buffer_size arena).
      { rewrite Harena'. split; reflexivity. }
      destruct Hfields as [Hb' Hs'].
      destruct Hplaced' as (_ & _ & Hinv'). unfold arena_inv in Hinv'.
      destruct (IH arena') as [Hall Hsorted].
      { intros size' k' Hin. rewrite Hs'.
        destruct (Hreqs size' k' ltac:(right; exact Hin)) as (Hk' & Hreq' & Hpl').
        split; [exact Hk' |]. split; [exact Hreq' |].
        destruct Hpl' as (H1 & H2 & _).
        unfold arena_placed, arena_inv. rewrite Hb', Hs'. lia. }
      { exact Hinv'. }
      rewrite Hb', Hs' in Hall.
      split.
      * apply Forall_cons. split; [simpl; lia |].
        eapply Forall_impl; [exact Hall |]. intros s Hs. simpl in Hs. lia.
      * constructor; [exact Hsorted |].
        eapply Forall_impl; [exact Hall |]. intros s Hs. unfold span_before. simpl in *. lia.
Qed.

(** X3.  The spans an arena hands out never overlap and never leave the
    buffer: over any run of requests (power-of-two alignments, sizes that do
    not overflow the cursor arithmetic) starting from a fresh arena, every
    successful allocation lies inside the buffer and ends where a later one
    begins, or before. *)
Theorem arena_spans_disjoint (buffer buffer_size : Z) (reqs : list (Z * Z)) :
  0 < buffer -> 0 <= buffer_size ->
  (forall size k, (size, k) ∈ reqs ->
     0 <= k < 64 /\ request_ok buffer_size size k /\
     buffer + buffer_size + 2 ^ k <= SIZE_MAX_plus_1) ->
  let spans := arena_alloc_spans reqs (arena_allocator_init buffer buffer_size) in
  Forall (fun s => buffer <= s.1 /\ s.1 + s.2 <= buffer + buffer_size) spans /\
  StronglySorted span_before spans.
Proof.
  intros Hbuf Hsize Hreqs spans.
  destruct (arena_alloc_spans_above reqs (arena_allocator_init buffer buffer_size))
    as [Hall Hsorted].
  - intros size k Hin. destruct (Hreqs size k Hin) as (Hk & Hreq & Hfit).
    split; [exact Hk |]. split; [exact Hreq |].
    unfold arena_placed, arena_inv. simpl. lia.
  - simpl. lia.
  - split; [| exact Hsorted].
    eapply Forall_impl; [exact Hall |]. intros s Hs. simpl in Hs. lia.
Qed.

Lemma arena_spans_disjoint_witness :
  arena_alloc_spans [(4, 2); (5, 0); (2000, 0); (16, 3)] (arena_allocator_init 4096 1024)
  = [(4096, 4); (4100, 5); (4112, 16)] /\
  StronglySorted span_before
    (arena_alloc_spans [(4, 2); (5, 0); (2000, 0); (16, 3)] (arena_allocator_init 4096 1024)).
Proof.
  split; [vm_compute; reflexivity |].
  apply (arena_spans_disjoint 4096 1024 [(4, 2); (5, 0); (2000, 0); (16, 3)]); [lia | lia |].
  intros size k Hin.
  repeat (apply elem_of_cons in Hin as [[= -> ->] | Hin];
          [unfold request_ok, SIZE_MAX_plus_1; lia |]).
  apply elem_of_nil in Hin. contradiction.
Defined.

(** X4.  The arena aligns the offset inside the buffer, not the address: a
    successful allocation returns a pointer congruent to the buffer start
    modulo the alignment, so it is a multiple of the alignment exactly when
    the buffer start is. *)
Theorem arena_alloc_alignment (arena : arena_allocator) (size k : Z) :
  0 <= k < 64 -> arena_placed arena (2 ^ k) ->
  request_ok (arena_buffer_size arena) size k ->
  (arena_allocator_alloc arena size (2 ^ k)).1 <> NULL ->
  let p := (arena_allocator_alloc arena size (2 ^ k)).1 in
  (p - arena_buffer arena) mod 2 ^ k = 0 /\
  p mod 2 ^ k = arena_buffer arena mod 2 ^ k.
Proof.
  intros Hk Hplaced Hreq Hok p.
  destruct (arena_alloc_success arena size k Hk Hplaced Hreq Hok) as (Hp & _).
  fold p in Hp. pose proof (pow2_bounds k Hk) as Ha.
  destruct (next_multiple_bounds (arena_offset arena) (2 ^ k) ltac:(lia)) as [_ Hm].
  apply Z.mod_divide in Hm; [| lia]. destruct Hm as [c Hc].
  rewrite Hp, Hc. split.
  - replace (arena_buffer arena + c * 2 ^ k - arena_buffer arena) with (c * 2 ^ k) by lia.
    apply Z.mod_mul. lia.
  - apply Z.mod_add. lia.
Qed.

Lemma arena_alloc_alignment_witness :
  (* a buffer at the odd address 4097: the 8-aligned request gets 4105 *)
  (arena_allocator_alloc (arena_set_offset (arena_allocator_init 4097 1024) 3) 16 (2 ^ 3)).1
  = 4105 /\
  4105 mod 2 ^ 3 = 4097 mod 2 ^ 3.
Proof.
  assert (Hp : (arena_allocator_alloc (arena_set_offset (arena_allocator_init 4097 1024) 3)
                  16 (2 ^ 3)).1 = 4105) by (vm_compute; reflexivity).
  split; [exact Hp |]. rewrite <- Hp at 1.
  apply (arena_alloc_alignment (arena_set_offset (arena_allocator_init 4097 1024) 3) 16 3).
  - lia.
  - unfold arena_placed, arena_inv, SIZE_MAX_plus_1. simpl. lia.
  - unfold request_ok, SIZE_MAX_plus_1. simpl. lia.
  - rewrite Hp. discriminate.
Defined.

(** X5.  The block an arena allocated last is resized in place: right
    after a successful allocate, reallocate of that pointer with the same
    alignment returns the same pointer, leaves the memory alone and moves
    the cursor to the block start plus the new size, whenever that still
    fits the buffer. *)
Theorem arena_realloc_last_in_place (arena : arena_allocator) (m : memory)
    (size new_size k : Z) :
  0 <= k < 64 -> arena_placed arena (2 ^ k) ->
  request_ok (arena_buffer_size arena) size k ->
  request_ok (arena_buffer_size arena) new_size k ->
  (arena_allocator_alloc arena size (2 ^ k)).1 <> NULL ->
  let p := (arena_allocator_alloc arena size (2 ^ k)).1 in
  let arena1 := (arena_allocator_alloc arena size (2 ^ k)).2 in
  (p - arena_buffer arena) + new_size <= arena_buffer_size arena ->
  arena_allocator_realloc arena1 m p size new_size (2 ^ k)
  = (p, (arena_set_offset arena ((p - arena_buffer arena) + new_size), m)).
Proof.
  intros Hk Hplaced Hreq Hreq' Hok p arena1 Hfits.
  destruct (arena_alloc_success arena size k Hk Hplaced Hreq Hok)
    as (Hp & Harena1 & Hlow & Hend & _).
  fold p in Hp, Hlow, Hend. fold arena1 in Harena1, Hend.
  pose proof Hplaced as (Hbuf & Hfit & Hinv). unfold arena_inv in Hinv.
  destruct Hreq as [Hsize Hreq]. destruct Hreq' as [Hnew Hreq'].
  pose proof (pow2_bounds k Hk) as Ha.
  destruct (next_multiple_bounds (arena_offset arena) (2 ^ k) ltac:(lia)) as [Hb Hm].
  set (a := next_multiple (arena_offset arena) (2 ^ k)) in *.
  assert (Hpa : p - arena_buffer arena = a) by lia.
  rewrite Hpa in *.
  unfold arena_allocator_realloc.
  destruct (Z.eqb_spec p NULL) as [Hnull | _]; [unfold NULL in Hnull; lia |].
  rewrite Harena1. cbn [arena_set_offset arena_buffer arena_offset arena_buffer_size].
  replace (arena_buffer arena + (a + size)) with (p + size) by lia.
  rewrite Z.eqb_refl. rewrite Hpa.
  rewrite (wrap_small a) by lia.
  assert (Hfix : align_forward a (2 ^ k) = a).
  { unfold align_forward. rewrite land_low_bits by exact Hk. rewrite Hm. reflexivity. }
  rewrite Hfix. rewrite (wrap_small (a + new_size)) by lia.
  destruct (Z.leb_spec (a + new_size) (arena_buffer_size arena)); [| lia].
  reflexivity.
Qed.

Lemma arena_realloc_last_in_place_witness :
  let arena := arena_set_offset (arena_allocator_init 4096 1024) 5 in
  (arena_allocator_alloc arena 16 (2 ^ 3)).1 = 4104 /\
  (* grown from 16 to 100 bytes, then shrunk to 1 byte, without moving *)
  arena_allocator_realloc (arena_allocator_alloc arena 16 (2 ^ 3)).2 ∅ 4104 16 100 (2 ^ 3)
  = (4104, (arena_set_offset arena 108, ∅)).
Proof.
  cbv zeta.
  set (arena := arena_set_offset (arena_allocator_init 4096 1024) 5).
  assert (Hp : (arena_allocator_alloc arena 16 (2 ^ 3)).1 = 4104) by (vm_compute; reflexivity).
  split; [exact Hp |].
  pose proof (arena_realloc_last_in_place arena ∅ 16 100 3) as H.
  cbv zeta in H. rewrite Hp in H. apply H.
  - lia.
  - unfold arena_placed, arena_inv, SIZE_MAX_plus_1. simpl. lia.
  - unfold request_ok, SIZE_MAX_plus_1. simpl. lia.
  - unfold request_ok, SIZE_MAX_plus_1. simpl. lia.
  - discriminate.
  - simpl. lia.
Defined.

(** * Further properties: reallocation keeps the content *)

Lemma load_byte_memcpy_copied k : forall (from m : memory) dst src i,
  0 <= i < Z.of_nat k ->
  load_byte (memcpy_bytes k from m dst src) (dst + i) = load_byte from (src + i) mod 256.
Proof.
  induction k as [| k IH]; intros from m dst src i Hi; [lia |].
  cbn [memcpy_bytes].
  destruct (Z.eq_dec i 0) as [-> | Hne].
  - rewrite !Z.add_0_r. rewrite load_byte_memcpy_other by lia.
    apply load_store_byte_same.
  - replace (dst + i) with ((dst + 1) + (i - 1)) by lia.
    replace (src + i) with ((src + 1) + (i - 1)) by lia.
    apply IH. lia.
Qed.

Lemma memcpy_copied (m : memory) dst src n i :
  0 <= i < n ->
  load_byte (memcpy m dst src n) (dst + i) = load_byte m (src + i) mod 256.
Proof. intros Hi. unfold memcpy. apply load_byte_memcpy_copied. lia. Qed.

Lemma arena_realloc_content arena m ptr old_size new_size alignment i :
  ptr <> NULL ->
  (arena_allocator_realloc arena m ptr old_size new_size alignment).1 <> NULL ->
  0 <= i < min_size old_size new_size ->
  load_byte (arena_allocator_realloc arena m ptr old_size new_size alignment).2.2
    ((arena_allocator_realloc arena m ptr old_size new_size alignment).1 + i) mod 256
  = load_byte m (ptr + i) mod 256.
Proof.
  intros Hptr. unfold arena_allocator_realloc.
  destruct (Z.eqb_spec ptr NULL) as [| _]; [contradiction |].
  destruct (if wrap (ptr + old_size) =? wrap (arena_buffer arena + arena_offset arena)
            then _ else _) as [offset' |]; [reflexivity |].
  destruct (arena_allocator_alloc arena new_size alignment) as [new_ptr arena'].
  destruct (Z.eqb_spec new_ptr NULL) as [Hn | Hn]; cbn [negb andb fst snd].
  - intros; contradiction.
  - intros _ Hi. rewrite memcpy_copied by exact Hi. apply Z.mod_mod. lia.
Qed.

Lemma stack_alloc_as_arena stack size alignment :
  (stack_allocator_alloc stack size alignment).1
    = (arena_allocator_alloc (stack_as_arena stack) size alignment).1 /\
  stack_as_arena (stack_allocator_alloc stack size alignment).2
    = (arena_allocator_alloc (stack_as_arena stack) size alignment).2.
Proof.
  unfold stack_allocator_alloc, arena_allocator_alloc. simpl.
  destruct (wrap (align_forward (stack_offset stack) alignment + size)
            >? stack_buffer_size stack); split; reflexivity.
Qed.

Lemma stack_realloc_as_arena stack m ptr old_size new_size alignment :
  (stack_allocator_realloc stack m ptr old_size new_size alignment).1
    = (arena_allocator_realloc (stack_as_arena stack) m ptr old_size new_size alignment).1 /\
  stack_as_arena (stack_allocator_realloc stack m ptr old_size new_size alignment).2.1
    = (arena_allocator_realloc (stack_as_arena stack) m ptr old_size new_size alignment).2.1 /\
  (stack_allocator_realloc stack m ptr old_size new_size alignment).2.2
    = (arena_allocator_realloc (stack_as_arena stack) m ptr old_size new_size alignment).2.2.
Proof.
  pose proof (stack_alloc_as_arena stack new_size alignment) as [Hp Hs].
  unfold stack_allocator_realloc, arena_allocator_realloc.
  destruct (stack_allocator_alloc stack new_size alignment) as [p stack'].
  destruct (arena_allocator_alloc (stack_as_arena stack) new_size alignment) as [p' arena'].
  simpl in Hp, Hs. subst p' arena'. cbn [stack_as_arena arena_buffer arena_offset
                                            arena_buffer_size].
  destruct (ptr =? NULL); [repeat split; reflexivity |].
  destruct (wrap (ptr + old_size) =? wrap (stack_buffer stack + stack_offset stack)).
  - destruct (wrap (align_forward (wrap (ptr - stack_buffer stack)) alignment + new_size)
              <=? stack_buffer_size stack); [repeat split; reflexivity |].
    destruct (negb (p =? NULL) && negb false); repeat split; reflexivity.
  - destruct (negb (p =? NULL) && negb false); repeat split; reflexivity.
Qed.

(** X6.  A successful reallocate keeps the content: for the arena and for
    the stack, when reallocate of a non-null pointer returns a non-null
    pointer, the first [min(old_size, new_size)] bytes at the returned
    pointer are the bytes that were at the old pointer, whether the block
    was resized in place or copied. *)
Theorem bump_realloc_keeps_content (m : memory) (ptr old_size new_size alignment i : Z) :
  ptr <> NULL ->
  0 <= i < min_size old_size new_size ->
  (forall arena,
     let res := arena_allocator_realloc arena m ptr old_size new_size alignment in
     res.1 <> NULL ->
     load_byte res.2.2 (res.1 + i) mod 256 = load_byte m (ptr + i) mod 256) /\
  (forall stack,
     let res := stack_allocator_realloc stack m ptr old_size new_size alignment in
     res.1 <> NULL ->
     load_byte res.2.2 (res.1 + i) mod 256 = load_byte m (ptr + i) mod 256).
Proof.
  intros Hptr Hi. split.
  - intros arena res Hres. apply arena_realloc_content; assumption.
  - intros stack res Hres. unfold res in *.
    destruct (stack_realloc_as_arena stack m ptr old_size new_size alignment)
      as (H1 & _ & H3).
    rewrite H1, H3. apply arena_realloc_content; [exact Hptr | | exact Hi].
    rewrite <- H1. exact Hres.
Qed.

Lemma bump_realloc_keeps_content_witness :
  (* an 8-byte block that is not the last one is copied to offset 16 *)
  let arena := arena_set_offset (arena_allocator_init 4096 64) 16 in
  let m : memory := store_byte (store_byte ∅ 4096 17) 4097 34 in
  let res := arena_allocator_realloc arena m 4096 8 32 8 in
  res.1 = 4112 /\
  load_byte res.2.2 (4112 + 1) mod 256 = 34.
Proof.
  cbv zeta.
  set (arena := arena_set_offset (arena_allocator_init 4096 64) 16).
  set (m := store_byte (store_byte ∅ 4096 17) 4097 34).
  assert (Hres : (arena_allocator_realloc arena m 4096 8 32 8).1 = 4112)
    by (vm_compute; reflexivity).
  split; [exact Hres |].
  pose proof (proj1 (bump_realloc_keeps_content m 4096 8 32 8 1 ltac:(discriminate)
                       ltac:(vm_compute; split; [discriminate | reflexivity]))
                arena) as H.
  cbv zeta in H. rewrite Hres in H. rewrite H by discriminate.
  vm_compute. reflexivity.
Defined.

(** X22.  The stack allocator's allocate and reallocate are the arena's:
    on a stack and on the arena with the same buffer, size and offset they
    return the same pointer and leave the same fields and the same
    memory. *)
Theorem stack_bumps_like_arena (stack : stack_allocator) (m : memory)
    (ptr old_size new_size size alignment : Z) :
  (stack_allocator_alloc stack size alignment).1
    = (arena_allocator_alloc (stack_as_arena stack) size alignment).1 /\
  stack_as_arena (stack_allocator_alloc stack size alignment).2
    = (arena_allocator_alloc (stack_as_arena stack) size alignment).2 /\
  (stack_allocator_realloc stack m ptr old_size new_size alignment).1
    = (arena_allocator_realloc (stack_as_arena stack) m ptr old_size new_size alignment).1 /\
  stack_as_arena (stack_allocator_realloc stack m ptr old_size new_size alignment).2.1
    = (arena_allocator_realloc (stack_as_arena stack) m ptr old_size new_size alignment).2.1 /\
  (stack_allocator_realloc stack m ptr old_size new_size alignment).2.2
    = (arena_allocator_realloc (stack_as_arena stack) m ptr old_size new_size alignment).2.2.
Proof.
  destruct (stack_alloc_as_arena stack size alignment) as [H1 H2].
  destruct (stack_realloc_as_arena stack m ptr old_size new_size alignment) as (H3 & H4 & H5).
  repeat split; assumption.
Qed.

(** * Further properties: the stack *)

Lemma stack_alloc_spec stack size k :
  0 <= k < 64 -> stack_placed stack (2 ^ k) ->
  request_ok (stack_buffer_size stack) size k ->
  let aligned_offset := next_multiple (stack_offset stack) (2 ^ k) in
  stack_allocator_alloc stack size (2 ^ k) =
    if aligned_offset + size >? stack_buffer_size stack then (NULL, stack)
    else (stack_buffer stack + aligned_offset,
          stack_set_offset stack (aligned_offset + size)).
Proof.
  intros Hk (Hbuf & Hfit & Hinv) [Hsize Hreq] a.
  pose proof (pow2_bounds k Hk) as Ha.
  unfold stack_allocator_alloc.
  rewrite align_forward_pow2 by lia. fold a.
  pose proof (next_multiple_bounds (stack_offset stack) (2 ^ k) ltac:(lia)) as [Hb _].
  fold a in Hb.
  rewrite (wrap_small (a + size)) by lia.
  destruct (Z.gtb_spec (a + size) (stack_buffer_size stack)); [reflexivity |].
  rewrite wrap_small by lia. reflexivity.
Qed.

Lemma wrap_eq_sub a b c d : wrap (a + b) = wrap (c + d) -> wrap (a - c) = wrap (d - b).
Proof.
  unfold wrap. intros H.
  pose proof (Z.div_mod (a + b) SIZE_MAX_plus_1 ltac:(unfold SIZE_MAX_plus_1; lia)) as H1.
  pose proof (Z.div_mod (c + d) SIZE_MAX_plus_1 ltac:(unfold SIZE_MAX_plus_1; lia)) as H2.
  replace (a - c) with
    ((d - b) + ((a + b) / SIZE_MAX_plus_1 - (c + d) / SIZE_MAX_plus_1) * SIZE_MAX_plus_1)
    by lia.
  apply Z.mod_add. unfold SIZE_MAX_plus_1. lia.
Qed.

(** X7.  The stack gives the most recent block back: after a successful
    allocate, releasing the returned pointer with its size moves the cursor
    to the start of the block (the alignment padding before it stays
    consumed), and the same request then returns the same pointer again. *)
Theorem stack_alloc_free_alloc (stack : stack_allocator) (size k : Z) :
  0 <= k < 64 -> stack_placed stack (2 ^ k) ->
  request_ok (stack_buffer_size stack) size k ->
  (stack_allocator_alloc stack size (2 ^ k)).1 <> NULL ->
  let p := (stack_allocator_alloc stack size (2 ^ k)).1 in
  let stack1 := (stack_allocator_alloc stack size (2 ^ k)).2 in
  let stack2 := stack_allocator_free stack1 p size in
  stack2 = stack_set_offset stack (p - stack_buffer stack) /\
  stack_offset stack <= stack_offset stack2 < stack_offset stack + 2 ^ k /\
  stack_allocator_alloc stack2 size (2 ^ k) = (p, stack1).
Proof.
  intros Hk Hplaced Hreq. cbv zeta.
  rewrite (stack_alloc_spec stack size k Hk Hplaced Hreq).
  pose proof Hplaced as (Hbuf & Hfit & Hinv). pose proof Hreq as [Hsize Hreq'].
  pose proof (pow2_bounds k Hk) as Ha.
  destruct (next_multiple_bounds (stack_offset stack) (2 ^ k) ltac:(lia)) as [Hb Hm].
  set (a := next_multiple (stack_offset stack) (2 ^ k)) in *.
  destruct (Z.gtb_spec (a + size) (stack_buffer_size stack)) as [| Hle];
    cbn [fst snd]; [intros; contradiction |].
  intros _.
  assert (Hfree : stack_allocator_free (stack_set_offset stack (a + size))
                    (stack_buffer stack + a) size = stack_set_offset stack a).
  { unfold stack_allocator_free.
    destruct (Z.eqb_spec (stack_buffer stack + a) NULL) as [Hn | _];
      [unfold NULL in Hn; lia |].
    cbn [stack_set_offset stack_buffer stack_offset].
    replace (stack_buffer stack + (a + size)) with (stack_buffer stack + a + size) by lia.
    rewrite Z.eqb_refl.
    replace (stack_buffer stack + a - stack_buffer stack) with a by lia.
    rewrite wrap_small by lia. reflexivity. }
  rewrite Hfree.
  replace (stack_buffer stack + a - stack_buffer stack) with a by lia.
  split; [reflexivity |]. split; [simpl; lia |].
  assert (Hplaced2 : stack_placed (stack_set_offset stack a) (2 ^ k)).
  { unfold stack_placed. simpl. lia. }
  rewrite (stack_alloc_spec (stack_set_offset stack a) size k Hk Hplaced2 Hreq).
  cbn [stack_set_offset stack_offset stack_buffer stack_buffer_size].
  rewrite (next_multiple_aligned a (2 ^ k)) by (exact Hm || lia).
  destruct (Z.gtb_spec (a + size) (stack_buffer_size stack)); [lia | reflexivity].
Qed.

Lemma stack_alloc_free_alloc_witness :
  let stack := stack_set_offset (stack_allocator_init 8192 512) 5 in
  let r := stack_allocator_alloc stack 16 (2 ^ 3) in
  r.1 = 8200 /\
  stack_offset (stack_allocator_free r.2 r.1 16) = 8 /\
  stack_allocator_alloc (stack_allocator_free r.2 r.1 16) 16 (2 ^ 3) = r.
Proof.
  cbv zeta.
  set (stack := stack_set_offset (stack_allocator_init 8192 512) 5).
  assert (Hp : (stack_allocator_alloc stack 16 (2 ^ 3)).1 = 8200) by (vm_compute; reflexivity).
  split; [exact Hp |].
  destruct (stack_alloc_free_alloc stack 16 3) as (H1 & _ & H3).
  - lia.
  - unfold stack_placed, SIZE_MAX_plus_1. simpl. lia.
  - unfold request_ok, SIZE_MAX_plus_1. simpl. lia.
  - rewrite Hp. discriminate.
  - split.
    + rewrite H1, Hp. reflexivity.
    + rewrite H3. destruct (stack_allocator_alloc stack 16 (2 ^ 3)). reflexivity.
Defined.

Lemma stack_alloc_inv stack size alignment :
  stack_inv stack -> stack_inv (stack_allocator_alloc stack size alignment).2.
Proof.
  intros Hinv. unfold stack_allocator_alloc.
  destruct (Z.gtb_spec (wrap (align_forward (stack_offset stack) alignment + size))
              (stack_buffer_size stack)) as [Hgt | Hle]; simpl.
  - exact Hinv.
  - unfold stack_inv. simpl.
    pose proof (wrap_range (align_forward (stack_offset stack) alignment + size)). lia.
Qed.

Lemma stack_realloc_inv stack m ptr old_size new_size alignment :
  stack_inv stack ->
  stack_inv (stack_allocator_realloc stack m ptr old_size new_size alignment).2.1.
Proof.
  intros Hinv. unfold stack_allocator_realloc.
  pose proof (stack_alloc_inv stack new_size alignment Hinv) as Halloc.
  destruct (stack_allocator_alloc stack new_size alignment) as [p stack'].
  simpl in Halloc.
  destruct (ptr =? NULL); simpl; [exact Halloc |].
  destruct (wrap (ptr + old_size) =? wrap (stack_buffer stack + stack_offset stack)).
  - set (a := align_forward (wrap (ptr - stack_buffer stack)) alignment).
    destruct (Z.leb_spec (wrap (a + new_size)) (stack_buffer_size stack)); simpl.
    + unfold stack_inv. simpl. pose proof (wrap_range (a + new_size)). lia.
    + destruct (negb (p =? NULL) && true); simpl; exact Halloc.
  - destruct (negb (p =? NULL) && true); simpl; exact Halloc.
Qed.

(** X8.  The stack keeps [0 <= offset <= buffer_size] under allocate,
    reallocate and reset with any arguments, and under release whenever the
    size passed does not exceed the current offset; a release never moves
    the cursor forward. *)
Theorem stack_offset_within_buffer (stack : stack_allocator) (m : memory) :
  stack_inv stack -> stack_buffer_size stack < SIZE_MAX_plus_1 ->
  (forall size alignment, stack_inv (stack_allocator_alloc stack size alignment).2) /\
  (forall ptr old_size new_size alignment,
     stack_inv (stack_allocator_realloc stack m ptr old_size new_size alignment).2.1) /\
  stack_inv (stack_allocator_reset stack) /\
  (forall ptr size, 0 <= size <= stack_offset stack ->
     stack_inv (stack_allocator_free stack ptr size) /\
     stack_offset (stack_allocator_free stack ptr size) <= stack_offset stack).
Proof.
  intros Hinv Hsize.
  split; [intros; apply stack_alloc_inv, Hinv |].
  split; [intros; apply stack_realloc_inv, Hinv |].
  split; [unfold stack_inv in *; simpl; lia |].
  intros ptr size Hs. unfold stack_allocator_free.
  destruct (ptr =? NULL); [split; [exact Hinv | lia] |].
  destruct (Z.eqb_spec (wrap (ptr + size)) (wrap (stack_buffer stack + stack_offset stack)))
    as [Heq | _]; [| split; [exact Hinv | lia]].
  apply wrap_eq_sub in Heq. unfold stack_inv in *. simpl. rewrite Heq.
  rewrite wrap_small by lia. lia.
Qed.

Lemma stack_offset_within_buffer_witness :
  let stack := stack_set_offset (stack_allocator_init 8192 512) 24 in
  stack_inv (stack_allocator_free stack 8200 16) /\
  stack_offset (stack_allocator_free stack 8200 16) = 8.
Proof.
  cbv zeta.
  set (stack := stack_set_offset (stack_allocator_init 8192 512) 24).
  pose proof (stack_offset_within_buffer stack ∅) as H.
  destruct H as (_ & _ & _ & Hfree).
  - unfold stack_inv. simpl. lia.
  - unfold SIZE_MAX_plus_1. simpl. lia.
  - split; [| vm_compute; reflexivity].
    apply (Hfree 8200 16). simpl. lia.
Defined.

(** * Further properties: the pool *)

Lemma pool_alloc_many_chain l : forall pool m size alignment,
  size <= pool_chunk_size pool ->
  is_chain (load_word m) (pool_free_list pool) l ->
  pool_alloc_many (length l) pool m size alignment = (l, pool_set_free_list pool NULL).
Proof.
  induction l as [| q l IH]; intros pool m size alignment Hsize Hchain; simpl in *.
  - rewrite <- Hchain. destruct pool; reflexivity.
  - destruct Hchain as (Hhead & -> & Hchain).
    rewrite pool_alloc_pop by assumption.
    rewrite (IH (pool_set_free_list pool (load_word m (pool_free_list pool))) m size alignment)
      by assumption.
    reflexivity.
Qed.

Lemma pool_chunks_length buffer chunk_size chunk_count :
  length (pool_chunks buffer chunk_size chunk_count) = Z.to_nat chunk_count.
Proof. unfold pool_chunks. rewrite length_fmap. apply length_seqZ. Qed.

(** X9.  A fresh pool of N chunks serves exactly N allocations: N requests
    in a row (of any size up to the chunk size) return the chunks in
    ascending address order, chunk 0 first, and leave the free chain empty,
    so that the next request fails. *)
Theorem pool_serves_all_chunks_in_order (m0 : memory)
    (buffer chunk_size chunk_count size alignment : Z) :
  pool_params_ok buffer chunk_size chunk_count ->
  size <= chunk_size ->
  let pool := (pool_allocator_init m0 buffer chunk_size chunk_count).1 in
  let m := (pool_allocator_init m0 buffer chunk_size chunk_count).2 in
  let res := pool_alloc_many (Z.to_nat chunk_count) pool m size alignment in
  res.1 = pool_chunks buffer chunk_size chunk_count /\
  pool_free_list res.2 = NULL /\
  pool_allocator_alloc res.2 m size alignment = (NULL, res.2).
Proof.
  intros Hparams Hsize pool m res.
  pose proof (pool_init_chain _ _ _ Hparams m0) as Hchain. fold pool m in Hchain.
  pose proof (pool_init_inv _ _ _ Hparams m0) as (_ & Hcs & _). fold pool in Hcs.
  unfold res. rewrite <- pool_chunks_length with (buffer := buffer) (chunk_size := chunk_size).
  rewrite (pool_alloc_many_chain _ pool m size alignment) by (rewrite ?Hcs; assumption).
  split; [reflexivity |]. split; [reflexivity |].
  apply pool_alloc_empty; [simpl; lia | reflexivity].
Qed.

Lemma pool_serves_all_chunks_in_order_witness :
  let pool := (pool_allocator_init ∅ 4096 32 3).1 in
  let m := (pool_allocator_init ∅ 4096 32 3).2 in
  (pool_alloc_many 3 pool m 20 8).1 = [4096; 4128; 4160] /\
  (pool_allocator_alloc (pool_alloc_many 3 pool m 20 8).2 m 20 8).1 = NULL.
Proof.
  cbv zeta.
  destruct (pool_serves_all_chunks_in_order ∅ 4096 32 3 20 8) as (H1 & _ & H3).
  - unfold pool_params_ok, sizeof_ptr, SIZE_MAX_plus_1. lia.
  - lia.
  - change (Z.to_nat 3) with 3%nat in H1, H3. split.
    + rewrite H1. reflexivity.
    + rewrite H3. reflexivity.
Defined.

Section pool_accounting.
Variables (buffer chunk_size chunk_count : Z).
Hypothesis Hparams : pool_params_ok buffer chunk_size chunk_count.

(** Every chunk is on the free chain or held by the client. *)
Lemma pool_reachable_partition m0 pool m live :
  pool_reachable m0 buffer chunk_size chunk_count pool m live ->
  forall l, is_chain (load_word m) (pool_free_list pool) l ->
  forall p, p ∈ pool_chunks buffer chunk_size chunk_count -> p ∈ l \/ p ∈ live.
Proof.
  induction 1 as [| pool m live size alignment Hreach IH Hok
                  | pool m live ptr size Hreach IH Hptr
                  | pool m live ptr off v Hreach IH Hptr Hoff]; intros l Hchain p Hp.
  - left.
    rewrite (is_chain_functional _ _ _ _ Hchain (pool_init_chain _ _ _ Hparams m0)).
    exact Hp.
  - revert Hok Hchain. unfold pool_allocator_alloc.
    destruct (size >? pool_chunk_size pool); [simpl; intros; contradiction |].
    destruct (Z.eqb_spec (pool_free_list pool) NULL) as [| Hhead];
      [simpl; intros; contradiction |].
    simpl. intros _ Hchain.
    destruct (IH (pool_free_list pool :: l)) with (p := p) as [Hin | Hin].
    + simpl. split; [exact Hhead |]. split; [reflexivity | exact Hchain].
    + exact Hp.
    + apply elem_of_cons in Hin as [-> | Hin]; [right | left; exact Hin].
      apply elem_of_union_r, elem_of_singleton. reflexivity.
    + right. apply elem_of_union_l. exact Hin.
  - pose proof (pool_reachable_inv _ _ _ Hparams _ _ _ _ Hreach)
      as (_ & _ & _ & l0 & Hchain0 & Hnd & Hl & Hlive & Hdisj).
    pose proof (pool_chunk_bounds _ _ _ Hparams ptr (Hlive ptr Hptr)) as [Hpos Hend].
    revert Hchain. unfold pool_allocator_free.
    destruct (Z.eqb_spec ptr NULL) as [-> | Hnn]; [unfold NULL in Hpos; lia |].
    simpl. intros Hchain.
    assert (Hhead : 0 <= pool_free_list pool < SIZE_MAX_plus_1).
    { destruct l0 as [| q l0']; simpl in Hchain0.
      - rewrite Hchain0. unfold NULL, SIZE_MAX_plus_1. lia.
      - destruct Hchain0 as (_ & -> & _).
        destruct Hparams as (_ & Hs & _). unfold sizeof_ptr in Hs.
        pose proof (pool_chunk_bounds _ _ _ Hparams (pool_free_list pool)
                      (Hl (pool_free_list pool) ltac:(left))). lia. }
    assert (Hchain' : is_chain (load_word (store_word m ptr (pool_free_list pool)))
                        ptr (ptr :: l0)).
    { simpl. split; [exact Hnn |]. split; [reflexivity |].
      rewrite load_store_word_same by exact Hhead.
      apply (pool_chain_frame _ _ _ Hparams m _ ptr l0); auto.
      - intros Hin. exact (Hdisj ptr Hin Hptr).
      - intros a Ha. apply load_byte_store_word_other.
        destruct Hparams as (_ & Hs & _). unfold sizeof_ptr in Hs. lia. }
    rewrite (is_chain_functional _ _ _ _ Hchain Hchain').
    destruct (Z.eq_dec p ptr) as [-> | Hne]; [left; left |].
    destruct (IH l0 Hchain0 p Hp) as [Hin | Hin]; [left; right; exact Hin |].
    right. apply elem_of_difference. split; [exact Hin |].
    intros ->%elem_of_singleton. contradiction.
  - pose proof (pool_reachable_inv _ _ _ Hparams _ _ _ _ Hreach)
      as (_ & _ & _ & l0 & Hchain0 & Hnd & Hl & Hlive & Hdisj).
    assert (Hchain' : is_chain (load_word (store_byte m (ptr + off) v))
                        (pool_free_list pool) l0).
    { apply (pool_chain_frame _ _ _ Hparams m _ ptr l0); auto.
      - intros Hin. exact (Hdisj ptr Hin Hptr).
      - intros a Ha. apply load_store_byte_other. lia. }
    rewrite (is_chain_functional _ _ _ _ Hchain Hchain').
    apply (IH l0 Hchain0 p Hp).
Qed.

Lemma pool_reachable_chain m0 pool m live :
  pool_reachable m0 buffer chunk_size chunk_count pool m live ->
  exists l, is_chain (load_word m) (pool_free_list pool) l.
Proof.
  intros Hreach.
  pose proof (pool_reachable_inv _ _ _ Hparams _ _ _ _ Hreach) as (_ & _ & _ & l & Hchain & _).
  exists l. exact Hchain.
Qed.
End pool_accounting.

(** X10.  In every reachable state of a pool, a successful allocate returns
    the address of one of the pool's chunks, [buffer + i * chunk_size] with
    [0 <= i < chunk_count], and never a chunk the client already holds. *)
Theorem pool_alloc_returns_free_chunk (m0 : memory) (buffer chunk_size chunk_count : Z)
    (pool : pool_allocator) (m : memory) (live : gset Z) (size alignment : Z) :
  pool_params_ok buffer chunk_size chunk_count ->
  pool_reachable m0 buffer chunk_size chunk_count pool m live ->
  (pool_allocator_alloc pool m size alignment).1 <> NULL ->
  let p := (pool_allocator_alloc pool m size alignment).1 in
  (exists i, 0 <= i < chunk_count /\ p = buffer + i * chunk_size) /\
  p ∉ live.
Proof.
  intros Hparams Hreach Hok p.
  pose proof (pool_reachable_inv _ _ _ Hparams _ _ _ _ Hreach)
    as (_ & _ & _ & l & Hchain & Hnd & Hl & Hlive & Hdisj).
  assert (Hp : p ∈ l).
  { revert Hok. unfold p, pool_allocator_alloc.
    destruct (size >? pool_chunk_size pool); [simpl; intros; contradiction |].
    destruct (Z.eqb_spec (pool_free_list pool) NULL) as [| Hhead];
      [simpl; intros; contradiction |].
    simpl. intros _. destruct l as [| q l]; simpl in Hchain; [contradiction |].
    destruct Hchain as (_ & -> & _). left. }
  split; [| exact (Hdisj p Hp)].
  apply (elem_of_pool_chunks buffer chunk_size chunk_count). exact (Hl p Hp).
Qed.

(** X11.  In every reachable state of a pool, a request that fits the chunk
    size fails exactly when the client holds every chunk: the pool never
    refuses while a chunk is free. *)
Theorem pool_fails_only_when_exhausted (m0 : memory) (buffer chunk_size chunk_count : Z)
    (pool : pool_allocator) (m : memory) (live : gset Z) (size alignment : Z) :
  pool_params_ok buffer chunk_size chunk_count ->
  pool_reachable m0 buffer chunk_size chunk_count pool m live ->
  size <= chunk_size ->
  (pool_allocator_alloc pool m size alignment).1 = NULL <->
  (forall p, p ∈ pool_chunks buffer chunk_size chunk_count -> p ∈ live).
Proof.
  intros Hparams Hreach Hsize.
  pose proof (pool_reachable_inv _ _ _ Hparams _ _ _ _ Hreach)
    as (_ & Hcs & _ & l & Hchain & Hnd & Hl & Hlive & Hdisj).
  pose proof (pool_reachable_partition _ _ _ Hparams _ _ _ _ Hreach l Hchain) as Hpart.
  unfold pool_allocator_alloc.
  destruct (Z.gtb_spec size (pool_chunk_size pool)) as [| _]; [lia |].
  destruct (Z.eqb_spec (pool_free_list pool) NULL) as [Hhead | Hhead]; simpl; split.
  - intros _ p Hp. destruct l as [| q l]; simpl in Hchain.
    + destruct (Hpart p Hp) as [Hin | Hin]; [apply elem_of_nil in Hin; contradiction | exact Hin].
    + destruct Hchain as (Hne & _). contradiction.
  - reflexivity.
  - intros; contradiction.
  - intros Hall. exfalso. destruct l as [| q l]; simpl in Hchain; [contradiction |].
    destruct Hchain as (_ & -> & _).
    apply (Hdisj (pool_free_list pool)); [left |].
    apply Hall, Hl. left.
Qed.

Lemma pool_alloc_returns_free_chunk_witness :
  let pool0 := (pool_allocator_init ∅ 4096 32 8).1 in
  let m := (pool_allocator_init ∅ 4096 32 8).2 in
  let a1 := pool_allocator_alloc pool0 m 32 1 in
  (pool_allocator_alloc a1.2 m 32 1).1 = 4128 /\
  (pool_allocator_alloc a1.2 m 32 1).1 ∉ (∅ ∪ {[ a1.1 ]} : gset Z).
Proof.
  cbv zeta.
  set (pool0 := (pool_allocator_init ∅ 4096 32 8).1).
  set (m := (pool_allocator_init ∅ 4096 32 8).2).
  set (a1 := pool_allocator_alloc pool0 m 32 1).
  assert (H1 : a1.1 = 4096) by (vm_compute; reflexivity).
  assert (H2 : (pool_allocator_alloc a1.2 m 32 1).1 = 4128) by (vm_compute; reflexivity).
  assert (Hreach : pool_reachable ∅ 4096 32 8 a1.2 m (∅ ∪ {[ a1.1 ]})).
  { apply pool_reach_alloc; [apply pool_reach_init |].
    fold pool0 m a1. rewrite H1. discriminate. }
  split; [exact H2 |].
  refine (proj2 (pool_alloc_returns_free_chunk ∅ 4096 32 8 a1.2 m _ 32 1 _ Hreach _)).
  - unfold pool_params_ok, sizeof_ptr, SIZE_MAX_plus_1. lia.
  - rewrite H2. discriminate.
Defined.

Lemma pool_fails_only_when_exhausted_witness :
  let pool0 := (pool_allocator_init ∅ 4096 32 1).1 in
  let m := (pool_allocator_init ∅ 4096 32 1).2 in
  let a1 := pool_allocator_alloc pool0 m 32 1 in
  (pool_allocator_alloc a1.2 m 8 1).1 = NULL.
Proof.
  cbv zeta.
  set (pool0 := (pool_allocator_init ∅ 4096 32 1).1).
  set (m := (pool_allocator_init ∅ 4096 32 1).2).
  set (a1 := pool_allocator_alloc pool0 m 32 1).
  assert (H1 : a1.1 = 4096) by (vm_compute; reflexivity).
  assert (Hreach : pool_reachable ∅ 4096 32 1 a1.2 m (∅ ∪ {[ a1.1 ]})).
  { apply pool_reach_alloc; [apply pool_reach_init |].
    fold pool0 m a1. rewrite H1. discriminate. }
  assert (Hparams : pool_params_ok 4096 32 1)
    by (unfold pool_params_ok, sizeof_ptr, SIZE_MAX_plus_1; lia).
  apply (proj2 (pool_fails_only_when_exhausted ∅ 4096 32 1 a1.2 m (∅ ∪ {[ a1.1 ]}) 8 1
                  Hparams Hreach ltac:(lia))).
  intros p Hp. rewrite H1.
  change (pool_chunks 4096 32 1) with [4096] in Hp.
  apply list_elem_of_singleton in Hp as ->.
  apply elem_of_union_r, elem_of_singleton. reflexivity.
Defined.

(** X12.  The pool never moves a chunk whose old size is honest: when
    [old_size] fits the chunk size, reallocate returns the same pointer if
    the new size fits too, and fails otherwise; in both cases the free chain
    and the memory are untouched. *)
Theorem pool_realloc_never_moves (pool : pool_allocator) (m : memory)
    (ptr old_size new_size alignment : Z) :
  old_size <= pool_chunk_size pool ->
  pool_allocator_realloc pool m ptr old_size new_size alignment =
    if new_size <=? pool_chunk_size pool then (ptr, (pool, m)) else (NULL, (pool, m)).
Proof.
  intros Hold. unfold pool_allocator_realloc.
  destruct (Z.leb_spec old_size (pool_chunk_size pool)) as [_ |]; [| lia].
  destruct (Z.leb_spec new_size (pool_chunk_size pool)) as [| Hnew]; [reflexivity |].
  cbn [andb]. rewrite pool_alloc_too_large by lia. reflexivity.
Qed.

Lemma pool_realloc_never_moves_witness :
  let pool := (pool_allocator_init ∅ 4096 32 4).1 in
  let m := (pool_allocator_init ∅ 4096 32 4).2 in
  pool_allocator_realloc pool m 4160 8 32 8 = (4160, (pool, m)) /\
  pool_allocator_realloc pool m 4160 8 33 8 = (NULL, (pool, m)).
Proof.
  cbv zeta.
  set (pool := (pool_allocator_init ∅ 4096 32 4).1).
  set (m := (pool_allocator_init ∅ 4096 32 4).2).
  assert (Hcs : pool_chunk_size pool = 32) by (vm_compute; reflexivity).
  split.
  - rewrite (pool_realloc_never_moves pool m 4160 8 32 8) by (rewrite Hcs; lia).
    rewrite Hcs. reflexivity.
  - rewrite (pool_realloc_never_moves pool m 4160 8 33 8) by (rewrite Hcs; lia).
    rewrite Hcs. reflexivity.
Defined.

(** X13.  The pool does not detect a double release: after the same
    non-null pointer is released twice, its link points to itself, so
    allocate returns that pointer and leaves the pool exactly as it was,
    and every later allocation returns the same pointer again. *)
Theorem pool_double_release_repeats_chunk (pool : pool_allocator) (m : memory)
    (ptr size1 size2 size alignment : Z) (n : nat) :
  ptr <> NULL -> 0 <= ptr < SIZE_MAX_plus_1 -> size <= pool_chunk_size pool ->
  let st1 := pool_allocator_free pool m ptr size1 in
  let st2 := pool_allocator_free st1.1 st1.2 ptr size2 in
  pool_allocator_alloc st2.1 st2.2 size alignment = (ptr, st2.1) /\
  pool_alloc_many n st2.1 st2.2 size alignment = (replicate n ptr, st2.1).
Proof.
  intros Hptr Hrange Hsize. cbv zeta. unfold pool_allocator_free.
  destruct (Z.eqb_spec ptr NULL) as [| _]; [contradiction |].
  cbn [fst snd pool_set_free_list pool_free_list].
  set (pool2 := pool_set_free_list (pool_set_free_list pool ptr) ptr).
  set (m2 := store_word (store_word m ptr (pool_free_list pool)) ptr ptr).
  assert (Halloc : pool_allocator_alloc pool2 m2 size alignment = (ptr, pool2)).
  { rewrite pool_alloc_pop; [| exact Hsize | exact Hptr].
    unfold pool2, m2. cbn [pool_set_free_list pool_free_list].
    rewrite load_store_word_same by exact Hrange. reflexivity. }
  split; [exact Halloc |].
  induction n as [| n IH]; [reflexivity |].
  cbn [pool_alloc_many replicate]. rewrite Halloc, IH. reflexivity.
Qed.

Lemma pool_double_release_repeats_chunk_witness :
  let pool0 := (pool_allocator_init ∅ 4096 32 4).1 in
  let m0 := (pool_allocator_init ∅ 4096 32 4).2 in
  let a1 := pool_allocator_alloc pool0 m0 32 8 in
  let st1 := pool_allocator_free a1.2 m0 4096 32 in
  let st2 := pool_allocator_free st1.1 st1.2 4096 32 in
  (pool_alloc_many 3 st2.1 st2.2 32 8).1 = [4096; 4096; 4096].
Proof.
  cbv zeta.
  set (a1 := pool_allocator_alloc _ _ 32 8).
  assert (Hcs : pool_chunk_size a1.2 = 32) by (vm_compute; reflexivity).
  destruct (pool_double_release_repeats_chunk a1.2 (pool_allocator_init ∅ 4096 32 4).2
              4096 32 32 32 8 3) as [_ H].
  - discriminate.
  - unfold SIZE_MAX_plus_1. lia.
  - rewrite Hcs. lia.
  - cbv zeta in H. rewrite H. reflexivity.
Defined.


(** * Further properties: the scratch allocator *)

(** Where the arena's reallocate puts a block that grows: inside the
    consumed part of the buffer, with the cursor moved forward or left. *)
Lemma arena_realloc_span arena (m : memory) ptr old_size new_size k :
  0 <= k < 64 -> arena_placed arena (2 ^ k) ->
  request_ok (arena_buffer_size arena) new_size k ->
  0 <= old_size <= new_size ->
  (ptr = NULL \/
   arena_buffer arena <= ptr /\ ptr + old_size <= arena_buffer arena + arena_offset arena) ->
  let r := arena_allocator_realloc arena m ptr old_size new_size (2 ^ k) in
  r.1 <> NULL ->
  exists offset',
    r.2.1 = arena_set_offset arena offset' /\
    arena_offset arena <= offset' <= arena_buffer_size arena /\
    arena_buffer arena <= r.1 /\ r.1 + new_size <= arena_buffer arena + offset'.
Proof.
  intros Hk Hplaced Hreq Hold Hptr. cbv zeta.
  pose proof Hplaced as (Hbuf & Hfit & Hinv). unfold arena_inv in Hinv.
  pose proof Hreq as [Hsize Hreq'].
  pose proof (pow2_bounds k Hk) as Ha.
  assert (Halloc : (arena_allocator_alloc arena new_size (2 ^ k)).1 <> NULL ->
            exists offset',
              (arena_allocator_alloc arena new_size (2 ^ k)).2 = arena_set_offset arena offset' /\
              arena_offset arena <= offset' <= arena_buffer_size arena /\
              arena_buffer arena <= (arena_allocator_alloc arena new_size (2 ^ k)).1 /\
              (arena_allocator_alloc arena new_size (2 ^ k)).1 + new_size
                <= arena_buffer arena + offset').
  { intros Hok.
    destruct (arena_alloc_success arena new_size k Hk Hplaced Hreq Hok)
      as (Hp & Harena1 & Hlow & Hend & (_ & _ & Hinv1)).
    unfold arena_inv in Hinv1. rewrite Harena1 in Hinv1, Hend.
    cbn [arena_set_offset arena_offset arena_buffer_size] in Hinv1, Hend.
    eexists. split; [exact Harena1 |].
    destruct (next_multiple_bounds (arena_offset arena) (2 ^ k) ltac:(lia)) as [Hb _].
    split; [lia |]. split; lia. }
  destruct (Z.eq_dec ptr NULL) as [-> | Hnn].
  { rewrite arena_realloc_null. cbn [fst snd]. exact Halloc. }
  destruct Hptr as [| [Hlow Hhigh]]; [contradiction |].
  unfold arena_allocator_realloc.
  destruct (Z.eqb_spec ptr NULL) as [| _]; [contradiction |].
  rewrite (wrap_small (ptr + old_size)) by lia.
  rewrite (wrap_small (arena_buffer arena + arena_offset arena)) by lia.
  rewrite (wrap_small (ptr - arena_buffer arena)) by lia.
  rewrite align_forward_pow2 by (try assumption; lia).
  destruct (next_multiple_bounds (ptr - arena_buffer arena) (2 ^ k) ltac:(lia)) as [Hb _].
  set (a := next_multiple (ptr - arena_buffer arena) (2 ^ k)) in *.
  rewrite (wrap_small (a + new_size)) by lia.
  assert (Hcopy : forall p arena' (c : bool),
            (p <> NULL ->
             exists offset',
               arena' = arena_set_offset arena offset' /\
               arena_offset arena <= offset' <= arena_buffer_size arena /\
               arena_buffer arena <= p /\ p + new_size <= arena_buffer arena + offset') ->
            (if negb (p =? NULL) && c
             then (p, (arena', memcpy m p ptr (min_size old_size new_size)))
             else (p, (arena', m))).1 <> NULL ->
            exists offset',
              (if negb (p =? NULL) && c
               then (p, (arena', memcpy m p ptr (min_size old_size new_size)))
               else (p, (arena', m))).2.1 = arena_set_offset arena offset' /\
              arena_offset arena <= offset' <= arena_buffer_size arena /\
              arena_buffer arena
                <= (if negb (p =? NULL) && c
                    then (p, (arena', memcpy m p ptr (min_size old_size new_size)))
                    else (p, (arena', m))).1 /\
              (if negb (p =? NULL) && c
               then (p, (arena', memcpy m p ptr (min_size old_size new_size)))
               else (p, (arena', m))).1 + new_size <= arena_buffer arena + offset').
  { intros p arena' c Hp.
    destruct (negb (p =? NULL) && c); cbn [fst snd]; exact Hp. }
  destruct (Z.eqb_spec (ptr + old_size) (arena_buffer arena + arena_offset arena))
    as [Hlast | _].
  - destruct (Z.leb_spec (a + new_size) (arena_buffer_size arena)) as [Hroom | _].
    + cbn [fst snd]. intros _. exists (a + new_size).
      split; [reflexivity |]. split; [lia |]. split; lia.
    + destruct (arena_allocator_alloc arena new_size (2 ^ k)) as [p arena'].
      exact (Hcopy p arena' _ Halloc).
  - destruct (arena_allocator_alloc arena new_size (2 ^ k)) as [p arena'].
    exact (Hcopy p arena' _ Halloc).
Qed.

Lemma arena_get_alloc arena (m : memory) size alignment :
  alloc_alloc arena_allocator_get (arena, m) size alignment
  = ((arena_allocator_alloc arena size alignment).1,
     ((arena_allocator_alloc arena size alignment).2, m)).
Proof.
  unfold alloc_alloc. cbn [alloc arena_allocator_get].
  destruct (arena_allocator_alloc arena size alignment). reflexivity.
Qed.

Lemma arena_realloc_null_result arena (m : memory) ptr old_size new_size k :
  0 <= k < 64 -> arena_placed arena (2 ^ k) ->
  (arena_allocator_realloc arena m ptr old_size new_size (2 ^ k)).1 = NULL ->
  (arena_allocator_realloc arena m ptr old_size new_size (2 ^ k)).2 = (arena, m).
Proof.
  intros Hk Hplaced. destruct (Z.eq_dec ptr NULL) as [-> | Hptr].
  - rewrite arena_realloc_null. cbn [fst snd]. intros Hnull.
    rewrite (arena_alloc_null arena new_size k Hk Hplaced Hnull). reflexivity.
  - apply arena_realloc_failure; assumption.
Qed.

Lemma scratch_in_arena_wf scratch arena :
  arena_placed arena (2 ^ 3) -> scratch_in_arena scratch arena -> scratch_wf scratch.
Proof.
  intros (Hbuf & Hfit & Hinv) (Hcount & _ & Harr). unfold arena_inv in Hinv.
  unfold scratch_wf, sizeof_ptr in *. split; [exact Hcount |].
  destruct (Z.eqb_spec (scratch_allocation_capacity scratch) 0) as [Hz | _].
  - rewrite Harr, Hz. unfold NULL, SIZE_MAX_plus_1. lia.
  - lia.
Qed.

Lemma scratch_in_arena_later scratch arena offset' :
  arena_offset arena <= offset' ->
  scratch_in_arena scratch arena ->
  scratch_in_arena scratch (arena_set_offset arena offset').
Proof.
  intros Hle (Hcount & Hcap & Harr). split; [exact Hcount |]. split; [exact Hcap |].
  destruct (scratch_allocation_capacity scratch =? 0); [exact Harr |].
  cbn [arena_set_offset arena_buffer arena_offset]. lia.
Qed.

(** One allocation through a scratch allocator over an arena. *)
Lemma scratch_arena_alloc_step scratch arena (m : memory) size k n :
  0 <= k < 64 -> arena_placed arena (2 ^ k) -> arena_placed arena (2 ^ 3) ->
  request_ok (arena_buffer_size arena) size k ->
  request_ok (arena_buffer_size arena) (Z.max 8 (2 * n) * sizeof_ptr) 3 ->
  scratch_in_arena scratch arena ->
  scratch_allocation_count scratch < n ->
  let res := scratch_allocator_alloc arena_allocator_get scratch (arena, m) size (2 ^ k) in
  exists offset',
    res.2.2.1 = arena_set_offset arena offset' /\
    arena_offset arena <= offset' <= arena_buffer_size arena /\
    ((res.1 = NULL /\ res.2.1 = scratch /\ res.2.2.2 = m) \/
     (res.1 <> NULL /\ scratch_in_arena res.2.1 res.2.2.1 /\
      scratch_tracked res.2.1 res.2.2.2 = scratch_tracked scratch m ++ [res.1] /\
      scratch_allocation_count res.2.1 = scratch_allocation_count scratch + 1)).
Proof.
  intros Hk Hplaced Hplaced8 Hreq Hreq8 Hin Hn. cbv zeta.
  pose proof Hplaced8 as (Hbuf & Hfit & Hinv). unfold arena_inv in Hinv.
  pose proof (scratch_in_arena_wf scratch arena Hplaced8 Hin) as Hwf.
  pose proof Hwf as (_ & Hwa & Hwtop). unfold sizeof_ptr in Hwtop.
  destruct (Z.eq_dec (arena_allocator_alloc arena size (2 ^ k)).1 NULL) as [Hnull | Hptr].
  { (* the arena has no room for the request *)
    rewrite scratch_alloc_backing_failure by (rewrite arena_get_alloc; exact Hnull).
    rewrite arena_get_alloc. cbn [fst snd].
    rewrite (arena_alloc_null arena size k Hk Hplaced Hnull).
    exists (arena_offset arena). split; [destruct arena; reflexivity |].
    split; [lia |]. left. repeat split; reflexivity. }
  destruct (arena_alloc_success arena size k Hk Hplaced Hreq Hptr)
    as (_ & Harena1 & Hlow & Hend & (_ & _ & Hinv1)).
  unfold arena_inv in Hinv1.
  set (p := (arena_allocator_alloc arena size (2 ^ k)).1) in *.
  set (o1 := next_multiple (arena_offset arena) (2 ^ k) + size) in *.
  rewrite Harena1 in Hend, Hinv1.
  cbn [arena_set_offset arena_offset arena_buffer_size] in Hend, Hinv1.
  destruct Hreq as [Hsize _].
  assert (Hp : 0 < p < SIZE_MAX_plus_1) by (unfold SIZE_MAX_plus_1 in *; lia).
  assert (Hr1 : alloc_alloc arena_allocator_get (arena, m) size (2 ^ k)
                = (p, (arena_set_offset arena o1, m))).
  { rewrite arena_get_alloc. fold p. rewrite Harena1. reflexivity. }
  assert (Ho1 : arena_offset arena <= o1) by lia.
  pose proof Hin as (Hcount & Hcap & Harr).
  destruct (Z_lt_ge_dec (scratch_allocation_count scratch)
              (scratch_allocation_capacity scratch)) as [Hroom | Hfull].
  { (* a free cell is left *)
    pose proof (scratch_alloc_room arena_allocator_get scratch (arena, m) size (2 ^ k)) as H.
    cbv zeta in H. rewrite Hr1 in H. cbn [fst snd] in H.
    destruct (H Hwf Hp Hroom) as (H1 & H2 & H3 & H4). clear H.
    destruct (scratch_allocator_alloc arena_allocator_get scratch (arena, m) size (2 ^ k))
      as [rp [rs [ra rm]]].
    cbn [fst snd] in H1, H2, H3, H4 |- *. injection H3 as -> ->. subst rp rs.
    exists o1. split; [reflexivity |]. split; [lia |]. right.
    split; [unfold NULL; lia |]. split; [| split; [exact H4 | reflexivity]].
    apply scratch_in_arena_later; [exact Ho1 |].
    split; [cbn [scratch_set_count scratch_allocation_count scratch_allocation_capacity]; lia |].
    split; [cbn [scratch_set_count scratch_allocation_count scratch_allocation_capacity]; lia |].
    exact Harr. }
  (* the array is full: it is grown through the arena's reallocate *)
  set (capacity := scratch_allocation_capacity scratch) in *.
  assert (Hcc : scratch_allocation_count scratch = capacity) by lia.
  assert (Hnewcap : scratch_new_capacity capacity = (if capacity =? 0 then 8 else 2 * capacity)).
  { apply scratch_new_capacity_exact; unfold sizeof_ptr; lia. }
  assert (Hbound : 0 < scratch_new_capacity capacity <= Z.max 8 (2 * n) /\
                   capacity < scratch_new_capacity capacity).
  { rewrite Hnewcap. destruct (Z.eqb_spec capacity 0); lia. }
  destruct Hreq8 as [_ Hreq8]. unfold sizeof_ptr in Hreq8.
  assert (Hplaced1 : arena_placed (arena_set_offset arena o1) (2 ^ 3)).
  { unfold arena_placed, arena_inv.
    cbn [arena_set_offset arena_buffer arena_buffer_size arena_offset]. lia. }
  assert (Hwrap_old : wrap (capacity * sizeof_ptr) = capacity * sizeof_ptr).
  { apply wrap_small. unfold sizeof_ptr. lia. }
  assert (Hwrap_new : wrap (scratch_new_capacity capacity * sizeof_ptr)
                      = scratch_new_capacity capacity * sizeof_ptr).
  { apply wrap_small. unfold sizeof_ptr, SIZE_MAX_plus_1 in *. lia. }
  pose proof (scratch_alloc_growth_failure arena_allocator_get scratch (arena, m) size (2 ^ k))
    as Hfail.
  pose proof (scratch_alloc_grown arena_allocator_get scratch (arena, m) size (2 ^ k))
    as Hgrow.
  cbv zeta in Hfail, Hgrow. fold capacity in Hfail, Hgrow.
  rewrite Hr1 in Hfail, Hgrow. cbn [fst snd] in Hfail, Hgrow.
  rewrite Hwrap_old, Hwrap_new in Hfail, Hgrow.
  unfold alloc_realloc in Hfail, Hgrow. cbn [realloc arena_allocator_get] in Hfail, Hgrow.
  pose proof (arena_realloc_null_result (arena_set_offset arena o1) m
                (scratch_allocations scratch) (capacity * sizeof_ptr)
                (scratch_new_capacity capacity * sizeof_ptr) 3 ltac:(lia) Hplaced1) as Hnullres.
  pose proof (arena_realloc_span (arena_set_offset arena o1) m
                (scratch_allocations scratch) (capacity * sizeof_ptr)
                (scratch_new_capacity capacity * sizeof_ptr) 3 ltac:(lia) Hplaced1) as Hspan.
  pose proof (arena_realloc_content (arena_set_offset arena o1) m
                (scratch_allocations scratch) (capacity * sizeof_ptr)
                (scratch_new_capacity capacity * sizeof_ptr) (2 ^ 3)) as Hcontent.
  cbv zeta in Hspan.
  cbn [arena_set_offset arena_buffer arena_buffer_size arena_offset] in Hspan.
  unfold sizeof_ptr in Hfail, Hgrow, Hnullres, Hspan, Hcontent.
  change (2 ^ 3) with 8 in Hnullres, Hspan, Hcontent.
  set (r2 := arena_allocator_realloc (arena_set_offset arena o1) m
               (scratch_allocations scratch) (capacity * 8)
               (scratch_new_capacity capacity * 8) 8) in *.
  destruct (Z.eq_dec r2.1 NULL) as [Hr2 | Hr2].
  { (* the arena has no room for the grown array *)
    rewrite Hfail by (try assumption; unfold NULL; lia).
    rewrite (Hnullres Hr2). unfold alloc_free. cbn [free arena_allocator_get fst snd].
    unfold arena_allocator_free.
    exists o1. split; [reflexivity |]. split; [lia |]. left. repeat split; reflexivity. }
  destruct Hspan as (o2 & Harena2 & Ho2 & Hlow2 & Hend2).
  { unfold request_ok, sizeof_ptr. lia. }
  { unfold sizeof_ptr. lia. }
  { destruct (Z.eqb_spec capacity 0) as [Hz | Hnz]; [left; exact Harr | right].
    unfold sizeof_ptr in *. lia. }
  { exact Hr2. }
  destruct (Hgrow Hwf Hp ltac:(lia) ltac:(lia) ltac:(unfold sizeof_ptr in *; lia))
    as (H1 & H2 & H3 & H4). clear Hgrow Hfail.
  destruct (scratch_allocator_alloc arena_allocator_get scratch (arena, m) size (2 ^ k))
    as [rp [rs [ra rm]]].
  cbn [fst snd] in H1, H2, H3, H4 |- *. injection H3 as -> ->. subst rp rs.
  rewrite Harena2.
  exists o2. cbn [arena_set_offset arena_buffer arena_buffer_size arena_offset].
  split; [destruct arena; reflexivity |]. split; [lia |]. right.
  split; [unfold NULL; lia |].
  split; [| split; [| reflexivity]].
  - unfold scratch_in_arena.
    cbn [scratch_set_count scratch_grown scratch_allocation_count
         scratch_allocation_capacity scratch_allocations
         arena_set_offset arena_buffer arena_offset].
    split; [lia |]. split; [rewrite Hnewcap; destruct (Z.eqb_spec capacity 0); lia |].
    destruct (Z.eqb_spec (scratch_new_capacity capacity) 0); [lia |].
    unfold sizeof_ptr in *. lia.
  - rewrite H4. f_equal.
    apply scratch_tracked_carried;
      cbn [scratch_grown scratch_allocations scratch_allocation_count].
    + reflexivity.
    + exact Hwa.
    + lia.
    + unfold sizeof_ptr in *. lia.
    + unfold sizeof_ptr in *. lia.
    + destruct (Z.eq_dec (scratch_allocations scratch) NULL) as [Hz | Hnz].
      * (* no array yet: nothing is tracked *)
        destruct (Z.eqb_spec capacity 0) as [Hc0 | Hc0].
        -- intros i Hi. unfold sizeof_ptr in Hi. lia.
        -- unfold NULL in Hz. lia.
      * intros i Hi. apply (Hcontent i Hnz Hr2).
        unfold min_size, sizeof_ptr in *.
        destruct (Z.ltb_spec (capacity * 8) (scratch_new_capacity capacity * 8)); lia.
Qed.

Lemma scratch_arena_alloc_many_tracked reqs : forall scratch arena (m : memory) n,
  arena_placed arena (2 ^ 3) ->
  (forall size alignment, (size, alignment) ∈ reqs ->
     exists k, alignment = 2 ^ k /\ 0 <= k < 64 /\
               request_ok (arena_buffer_size arena) size k /\
               arena_buffer arena + arena_buffer_size arena + 2 ^ k <= SIZE_MAX_plus_1) ->
  request_ok (arena_buffer_size arena) (Z.max 8 (2 * n) * sizeof_ptr) 3 ->
  scratch_in_arena scratch arena ->
  scratch_allocation_count scratch + Z.of_nat (length reqs) <= n ->
  let res := scratch_alloc_many arena_allocator_get reqs scratch (arena, m) in
  scratch_tracked res.2.1 res.2.2.2
    = scratch_tracked scratch m ++ filter (fun p => p <> NULL) res.1 /\
  scratch_allocation_count res.2.1
    = scratch_allocation_count scratch
      + Z.of_nat (length (filter (fun p => p <> NULL) res.1)).
Proof.
  induction reqs as [| [size alignment] reqs IH];
    intros scratch arena m n Hplaced8 Hreqs Hreq8 Hin Hn; cbv zeta.
  - cbn. rewrite app_nil_r. split; [reflexivity | lia].
  - cbn [scratch_alloc_many].
    destruct (Hreqs size alignment ltac:(left)) as (k & -> & Hk & Hreq & Hfit).
    pose proof Hplaced8 as (Hbuf & Hfit8 & Hinv).
    assert (Hplaced : arena_placed arena (2 ^ k)) by (split; [| split]; assumption).
    cbn [length] in Hn.
    pose proof (scratch_arena_alloc_step scratch arena m size k n Hk Hplaced Hplaced8
                  Hreq Hreq8 Hin ltac:(lia)) as Hstep.
    cbv zeta in Hstep.
    destruct (scratch_allocator_alloc arena_allocator_get scratch (arena, m) size (2 ^ k))
      as [p [scratch1 [arena1 m1]]].
    cbn [fst snd] in Hstep. destruct Hstep as (offset' & -> & Hoff & Hstep).
    assert (Hplaced1 : arena_placed (arena_set_offset arena offset') (2 ^ 3)).
    { unfold arena_placed, arena_inv in *.
      cbn [arena_set_offset arena_buffer arena_buffer_size arena_offset]. lia. }
    assert (Hreqs1 : forall size alignment, (size, alignment) ∈ reqs ->
              exists k, alignment = 2 ^ k /\ 0 <= k < 64 /\
                request_ok (arena_buffer_size (arena_set_offset arena offset')) size k /\
                arena_buffer (arena_set_offset arena offset')
                + arena_buffer_size (arena_set_offset arena offset') + 2 ^ k
                  <= SIZE_MAX_plus_1).
    { intros size' alignment' Hel. apply Hreqs. right. exact Hel. }
    destruct Hstep as [(-> & -> & ->) | (Hp & Hin1 & Htr & Hcnt)].
    + specialize (IH scratch (arena_set_offset arena offset') m n Hplaced1 Hreqs1 Hreq8
                    (scratch_in_arena_later scratch arena offset' ltac:(lia) Hin) ltac:(lia)).
      cbv zeta in IH.
      destruct (scratch_alloc_many arena_allocator_get reqs scratch
                  (arena_set_offset arena offset', m)) as [ps st].
      cbn [fst snd] in IH |- *.
      rewrite filter_cons_False by (intros H; apply H; reflexivity).
      exact IH.
    + specialize (IH scratch1 (arena_set_offset arena offset') m1 n Hplaced1 Hreqs1 Hreq8
                    Hin1 ltac:(lia)).
      cbv zeta in IH.
      destruct (scratch_alloc_many arena_allocator_get reqs scratch1
                  (arena_set_offset arena offset', m1)) as [ps st].
      cbn [fst snd] in IH |- *.
      rewrite filter_cons_True by exact Hp.
      destruct IH as (Htr' & Hcnt'). split.
      * rewrite Htr', Htr, <- app_assoc. reflexivity.
      * rewrite Hcnt', Hcnt. cbn [length]. lia.
Qed.

(** X14.  Over an arena the scratch allocator tracks exactly what it
    issues: after any run of allocation requests (power-of-two alignments,
    sizes and tracking array within [size_t]) on a fresh scratch allocator
    over a fresh arena, the tracked sequence read from the tracking array is
    the sequence of the non-null pointers returned, in issue order, and the
    tracked count is their number; a failed request (of the arena or of the
    array growth) adds nothing. *)
Theorem scratch_tracks_issued_pointers (buffer buffer_size : Z) (m : memory)
    (reqs : list (Z * Z)) :
  0 < buffer -> 0 <= buffer_size ->
  buffer + buffer_size + 16 * Z.of_nat (length reqs) + 72 <= SIZE_MAX_plus_1 ->
  (forall size alignment, (size, alignment) ∈ reqs ->
     exists k, alignment = 2 ^ k /\ 0 <= k < 64 /\ request_ok buffer_size size k /\
               buffer + buffer_size + 2 ^ k <= SIZE_MAX_plus_1) ->
  let res := scratch_alloc_many arena_allocator_get reqs scratch_allocator_init
               (arena_allocator_init buffer buffer_size, m) in
  scratch_tracked res.2.1 res.2.2.2 = filter (fun p => p <> NULL) res.1 /\
  scratch_allocation_count res.2.1
    = Z.of_nat (length (filter (fun p => p <> NULL) res.1)).
Proof.
  intros Hbuf Hsize Hbound Hreqs.
  pose proof (scratch_arena_alloc_many_tracked reqs scratch_allocator_init
                (arena_allocator_init buffer buffer_size) m (Z.of_nat (length reqs))) as H.
  cbv zeta in H |- *.
  cbn [arena_allocator_init arena_buffer arena_buffer_size scratch_allocator_init
       scratch_allocation_count] in H.
  destruct H as (Htr & Hcnt).
  - unfold arena_placed, arena_inv. cbn. lia.
  - exact Hreqs.
  - unfold request_ok, sizeof_ptr. lia.
  - unfold scratch_in_arena. cbn. repeat split; lia.
  - lia.
  - split; [exact Htr | exact Hcnt].
Qed.

Lemma scratch_tracks_issued_pointers_witness :
  (* a 256-byte arena behind the scratch allocator: the 200-byte request
     fails and is not tracked *)
  let res := scratch_alloc_many arena_allocator_get [(8, 8); (200, 8); (16, 8)]
               scratch_allocator_init (arena_allocator_init 4096 256, ∅) in
  res.1 = [4096; NULL; 4168] /\
  scratch_tracked res.2.1 res.2.2.2 = [4096; 4168] /\
  scratch_allocation_count res.2.1 = 2.
Proof.
  cbv zeta.
  set (res := scratch_alloc_many _ _ _ _).
  assert (Hres : res.1 = [4096; NULL; 4168]) by (vm_compute; reflexivity).
  destruct (scratch_tracks_issued_pointers 4096 256 ∅ [(8, 8); (200, 8); (16, 8)])
    as [Htr Hcnt].
  - lia.
  - lia.
  - unfold SIZE_MAX_plus_1. cbn [length]. lia.
  - intros size alignment Hel. exists 3. unfold request_ok, SIZE_MAX_plus_1.
    repeat (apply elem_of_cons in Hel as [Hel | Hel];
            [injection Hel as -> ->; repeat split; lia |]).
    apply elem_of_nil in Hel. contradiction.
  - fold res in Htr, Hcnt. rewrite Hres in Htr, Hcnt.
    split; [exact Hres |]. split; [exact Htr | exact Hcnt].
Defined.

Lemma scratch_tracked_lookup scratch (m : memory) (j : Z) :
  0 <= j < scratch_allocation_count scratch ->
  scratch_tracked scratch m !! Z.to_nat j = Some (scratch_cell scratch m j).
Proof.
  intros Hj. unfold scratch_tracked. rewrite list_lookup_fmap.
  rewrite lookup_seqZ_lt by lia. cbn. rewrite Z2Nat.id by lia. reflexivity.
Qed.

Lemma scratch_tracked_length scratch (m : memory) :
  length (scratch_tracked scratch m) = Z.to_nat (scratch_allocation_count scratch).
Proof. unfold scratch_tracked. rewrite length_fmap. apply length_seqZ. Qed.

Lemma scratch_tracked_store scratch (m : memory) j v :
  0 <= scratch_allocations scratch ->
  scratch_allocations scratch + scratch_allocation_count scratch * sizeof_ptr
    <= SIZE_MAX_plus_1 ->
  0 <= j < scratch_allocation_count scratch ->
  0 <= v < SIZE_MAX_plus_1 ->
  scratch_tracked scratch (store_word m (scratch_cell_addr scratch j) v)
  = <[Z.to_nat j := v]> (scratch_tracked scratch m).
Proof.
  intros Ha Htop Hj Hv. apply list_eq. intros i.
  destruct (Nat.lt_ge_cases i (Z.to_nat (scratch_allocation_count scratch))) as [Hi | Hi].
  - rewrite <- (Nat2Z.id i).
    rewrite scratch_tracked_lookup by lia.
    destruct (Z.eq_dec (Z.of_nat i) j) as [Heq | Hne].
    + rewrite Heq. rewrite list_lookup_insert_eq by (rewrite scratch_tracked_length; lia).
      unfold scratch_cell. rewrite load_store_word_same by exact Hv. reflexivity.
    + rewrite list_lookup_insert_ne by lia.
      rewrite scratch_tracked_lookup by lia. f_equal. unfold scratch_cell.
      rewrite !scratch_cell_addr_exact by (unfold sizeof_ptr in *; lia).
      apply load_store_word_other. unfold sizeof_ptr. lia.
  - rewrite !lookup_ge_None_2; [reflexivity | |].
    + rewrite length_insert, scratch_tracked_length. lia.
    + rewrite scratch_tracked_length. lia.
Qed.

Lemma scratch_replace_first_miss scratch ptr new_ptr k : forall i (m : memory),
  (forall j, i <= j < i + Z.of_nat k -> scratch_cell scratch m j <> ptr) ->
  scratch_replace_first k i scratch m ptr new_ptr = m.
Proof.
  induction k as [| k IH]; intros i m Hmiss; cbn [scratch_replace_first]; [reflexivity |].
  destruct (Z.eqb_spec (scratch_cell scratch m i) ptr) as [Heq | _].
  - exfalso. apply (Hmiss i); [lia | exact Heq].
  - apply IH. intros j Hj. apply Hmiss. lia.
Qed.

Lemma scratch_replace_first_hit scratch ptr new_ptr k : forall i (m : memory) j,
  i <= j < i + Z.of_nat k ->
  scratch_cell scratch m j = ptr ->
  (forall j', i <= j' < j -> scratch_cell scratch m j' <> ptr) ->
  scratch_replace_first k i scratch m ptr new_ptr
  = store_word m (scratch_cell_addr scratch j) new_ptr.
Proof.
  induction k as [| k IH]; intros i m j Hj Hhit Hbefore; [lia |].
  cbn [scratch_replace_first].
  destruct (Z.eqb_spec (scratch_cell scratch m i) ptr) as [Heq | Hne].
  - destruct (Z.eq_dec i j) as [-> | Hij]; [reflexivity |].
    exfalso. apply (Hbefore i); [lia | exact Heq].
  - assert (i <> j) by (intros ->; contradiction).
    apply IH; [lia | exact Hhit |]. intros j' Hj'. apply Hbefore. lia.
Qed.

(** X15.  When the backing reallocate succeeds, the scratch allocator's
    reallocate returns the new pointer, keeps its own fields and writes at
    most one cell of the tracking array: it scans the cells as the backing
    reallocate left them, puts the new pointer in place of the first
    occurrence of the old one and keeps the count, the order and every
    other cell; when the old pointer is not among those cells it writes
    nothing, so the new pointer is returned untracked.  The cells scanned
    are the sequence tracked before the call when the backing reallocate
    left the bytes of the array as they were. *)
Theorem scratch_realloc_retracks {Ctx : Type} (bk : allocator (Ctx * memory))
    (scratch : scratch_allocator) (b : Ctx * memory) (ptr old_size new_size alignment : Z) :
  ptr <> NULL ->
  scratch_wf scratch ->
  let r := alloc_realloc bk b ptr old_size new_size alignment in
  let allocations := scratch_allocations scratch in
  let res := scratch_allocator_realloc bk scratch b ptr old_size new_size alignment in
  0 < r.1 < SIZE_MAX_plus_1 ->
  res.1 = r.1 /\
  res.2.1 = scratch /\
  res.2.2.1 = r.2.1 /\
  (ptr ∉ scratch_tracked scratch r.2.2 -> res.2.2.2 = r.2.2) /\
  (forall l1 l2, scratch_tracked scratch r.2.2 = l1 ++ ptr :: l2 -> ptr ∉ l1 ->
     res.2.2.2 = store_word r.2.2 (allocations + Z.of_nat (length l1) * sizeof_ptr) r.1 /\
     scratch_tracked scratch res.2.2.2 = l1 ++ r.1 :: l2) /\
  (bytes_carried b.2 allocations r.2.2 allocations
     (scratch_allocation_count scratch * sizeof_ptr) ->
   scratch_tracked scratch r.2.2 = scratch_tracked scratch b.2).
Proof.
  intros Hptr (Hcount & Ha & Htop). cbv zeta. unfold scratch_allocator_realloc.
  destruct (Z.eqb_spec ptr NULL) as [| _]; [contradiction |].
  destruct (alloc_realloc bk b ptr old_size new_size alignment) as [new_ptr b1].
  cbn [fst snd]. intros Hnew.
  destruct (Z.eqb_spec new_ptr NULL) as [-> | _]; [unfold NULL in Hnew; lia |].
  cbn [fst snd].
  assert (Htop' : scratch_allocations scratch + scratch_allocation_count scratch * sizeof_ptr
                  <= SIZE_MAX_plus_1) by (unfold sizeof_ptr in *; lia).
  split; [reflexivity |]. split; [reflexivity |]. split; [reflexivity |].
  split; [| split].
  - intros Hnot. apply scratch_replace_first_miss. intros j Hj Hhit. apply Hnot.
    apply list_elem_of_lookup. exists (Z.to_nat j).
    rewrite scratch_tracked_lookup by lia. rewrite Hhit. reflexivity.
  - intros l1 l2 Htracked Hl1.
    assert (Hlen : (length l1 < Z.to_nat (scratch_allocation_count scratch))%nat).
    { rewrite <- (scratch_tracked_length scratch b1.2), Htracked, length_app. cbn. lia. }
    assert (Hcell : forall j, 0 <= j < scratch_allocation_count scratch ->
              (l1 ++ ptr :: l2) !! Z.to_nat j = Some (scratch_cell scratch b1.2 j)).
    { intros j Hj. rewrite <- Htracked. apply scratch_tracked_lookup. exact Hj. }
    rewrite (scratch_replace_first_hit scratch ptr new_ptr _ 0 b1.2 (Z.of_nat (length l1))).
    + split.
      * rewrite scratch_cell_addr_exact by (unfold sizeof_ptr in *; lia). reflexivity.
      * rewrite scratch_tracked_store by (try assumption; lia).
        rewrite Htracked, Nat2Z.id. rewrite insert_app_r_alt by lia.
        rewrite Nat.sub_diag. reflexivity.
    + lia.
    + specialize (Hcell (Z.of_nat (length l1)) ltac:(lia)).
      rewrite Nat2Z.id in Hcell. rewrite lookup_app_r in Hcell by lia.
      rewrite Nat.sub_diag in Hcell. injection Hcell as Hcell. symmetry. exact Hcell.
    + intros j' Hj' Hhit. apply Hl1.
      specialize (Hcell j' ltac:(lia)). rewrite lookup_app_l in Hcell by lia.
      apply list_elem_of_lookup. exists (Z.to_nat j'). rewrite Hcell, Hhit. reflexivity.
  - intros Hkept. apply scratch_tracked_carried; try (reflexivity || assumption).
Qed.

Lemma scratch_realloc_retracks_witness :
  (* the first of two tracked blocks of an arena is moved by the backing
     reallocate: the new pointer takes its place in the tracked sequence *)
  let st := (scratch_alloc_many arena_allocator_get [(8, 8); (16, 8)]
               scratch_allocator_init (arena_allocator_init 4096 256, ∅)).2 in
  let res := scratch_allocator_realloc arena_allocator_get st.1 st.2 4096 8 32 8 in
  scratch_tracked st.1 st.2.2 = [4096; 4168] /\
  res.1 = 4184 /\
  scratch_tracked st.1 res.2.2.2 = [4184; 4168].
Proof.
  cbv zeta.
  set (st := (scratch_alloc_many _ _ _ _).2).
  assert (Htr : scratch_tracked st.1 st.2.2 = [4096; 4168]) by (vm_compute; reflexivity).
  assert (Hnew : (alloc_realloc arena_allocator_get st.2 4096 8 32 8).1 = 4184)
    by (vm_compute; reflexivity).
  assert (Htr1 : scratch_tracked st.1 (alloc_realloc arena_allocator_get st.2 4096 8 32 8).2.2
                 = [4096; 4168]) by (vm_compute; reflexivity).
  assert (Hwf : scratch_wf st.1) by (vm_compute; repeat split; discriminate).
  pose proof (scratch_realloc_retracks arena_allocator_get st.1 st.2 4096 8 32 8
                ltac:(discriminate) Hwf) as H.
  cbv zeta in H. rewrite Hnew, Htr1 in H.
  destruct (H ltac:(unfold SIZE_MAX_plus_1; lia)) as (H1 & _ & _ & _ & H5 & _).
  split; [exact Htr |]. split; [exact H1 |].
  apply (H5 [] [4168]); [reflexivity | apply not_elem_of_nil].
Defined.

(** X16.  When releasing a tracked pointer with size 0 leaves the bytes of
    the tracking array as they are, destroying a scratch allocator releases
    the tracked pointers with size 0, in issue order, then releases the
    tracking array once with its size in bytes when there is one, and leaves
    the allocator in its initial state. *)
Theorem scratch_destroy_releases_everything {Ctx : Type} (bk : allocator (Ctx * memory))
    (scratch : scratch_allocator) (s : Ctx) (m : memory) (log : list backing_call) :
  scratch_wf scratch ->
  (forall b p, p ∈ scratch_tracked scratch m ->
     bytes_carried b.2 (scratch_allocations scratch) (alloc_free bk b p 0).2
       (scratch_allocations scratch) (scratch_allocation_count scratch * sizeof_ptr)) ->
  let res := scratch_allocator_destroy (traced bk) scratch ((s, log), m) in
  res.1 = scratch_allocator_init /\
  res.2.1.2 =
    log ++ ((fun p => CallFree p 0) <$> scratch_tracked scratch m)
        ++ (if scratch_allocations scratch =? NULL then []
            else [CallFree (scratch_allocations scratch)
                    (wrap (scratch_allocation_capacity scratch * sizeof_ptr))]).
Proof.
  intros (Hcount & Ha & Htop) Hkept. cbv zeta.
  unfold scratch_allocator_destroy, scratch_allocator_reset.
  assert (Hplaced : 0 <= scratch_allocations scratch /\
                    scratch_allocations scratch
                    + scratch_allocation_count scratch * sizeof_ptr <= SIZE_MAX_plus_1)
    by (unfold sizeof_ptr in *; lia).
  destruct (scratch_release_all_foldl (traced bk) scratch m Hplaced
              (traced_free_kept bk _ _ _ Hkept) ((s, log), m) ltac:(lia) eq_refl)
    as [Hrun _].
  rewrite Hrun, traced_free_all.
  cbn [scratch_set_count scratch_allocations scratch_allocation_capacity
       scratch_allocation_count fst snd].
  split; [reflexivity |].
  destruct (scratch_allocations scratch =? NULL); cbn [negb fst snd].
  - rewrite app_nil_r. reflexivity.
  - rewrite traced_free. cbn [fst snd]. rewrite <- app_assoc. reflexivity.
Qed.

Lemma scratch_destroy_releases_everything_witness :
  (* two blocks of at least a header's length from a freelist, the tracking
     array between them *)
  let bk := freelist_allocator_get 8 in
  let w0 := freelist_allocator_init ∅ 4096 1024 in
  let st := (scratch_alloc_many bk [(16, 8); (32, 8)]
               scratch_allocator_init (Some w0.1, w0.2)).2 in
  (scratch_allocator_destroy (traced bk) st.1 ((st.2.1, []), st.2.2)).2.1.2
  = [CallFree 4096 0; CallFree 4176 0; CallFree 4112 64].
Proof.
  cbv zeta.
  set (st := (scratch_alloc_many _ _ _ _).2).
  assert (Htr : scratch_tracked st.1 st.2.2 = [4096; 4176]) by (vm_compute; reflexivity).
  assert (Harr : scratch_allocations st.1 = 4112) by (vm_compute; reflexivity).
  assert (Hcount : scratch_allocation_count st.1 = 2) by (vm_compute; reflexivity).
  assert (Hcap : scratch_allocation_capacity st.1 = 8) by (vm_compute; reflexivity).
  assert (Hwf : scratch_wf st.1).
  { unfold scratch_wf. rewrite Harr, Hcount, Hcap. unfold sizeof_ptr, SIZE_MAX_plus_1. lia. }
  destruct (scratch_destroy_releases_everything (freelist_allocator_get 8)
              st.1 st.2.1 st.2.2 [] Hwf) as [_ H].
  - rewrite Htr, Harr, Hcount. intros b p Hp. apply freelist_get_free_kept.
    unfold sizeof_freelist_node, sizeof_ptr.
    apply elem_of_cons in Hp as [-> | Hp]; [lia |].
    apply list_elem_of_singleton in Hp as ->. lia.
  - rewrite H, Htr, Harr, Hcap. reflexivity.
Defined.

Lemma scratch_release_all_arena k : forall i scratch arena (m : memory),
  scratch_release_all arena_allocator_get k i scratch (arena, m) = (arena, m).
Proof.
  induction k as [| k IH]; intros i scratch arena m; cbn [scratch_release_all];
    [reflexivity |].
  apply IH.
Qed.

(** X17.  A scratch allocator over an arena gives nothing back: its reset
    and its destroy leave the arena's cursor and the memory exactly as they
    were, since the arena's release does nothing. *)
Theorem scratch_over_arena_reclaims_nothing (scratch : scratch_allocator)
    (arena : arena_allocator) (m : memory) :
  (scratch_allocator_reset arena_allocator_get scratch (arena, m)).2 = (arena, m) /\
  (scratch_allocator_destroy arena_allocator_get scratch (arena, m)).2 = (arena, m).
Proof.
  unfold scratch_allocator_destroy, scratch_allocator_reset.
  rewrite scratch_release_all_arena. cbn [fst snd].
  split; [reflexivity |].
  destruct (negb (scratch_allocations (scratch_set_count scratch 0) =? NULL)); reflexivity.
Qed.

(** * Further properties: the freelist *)

Lemma total_size_exact size alignment :
  0 <= size + alignment - 1 < SIZE_MAX_plus_1 ->
  wrap (wrap (size + alignment) - 1) = size + alignment - 1.
Proof.
  intros H. unfold wrap. rewrite Zminus_mod_idemp_l. apply Z.mod_small. exact H.
Qed.

(** X18.  The freelist's release of a non-null pointer writes a free-block
    header of 16 bytes at the pointer, whatever the size it is given: the
    size and the old head are recorded there, the pointer becomes the head
    and every byte outside those 16 bytes is left as it was.  When the
    header written overlaps the header of no block on the chain, the chain
    grows by exactly that block and every other block keeps its size and
    its link: nothing is merged, not even an adjacent block.  When moreover
    the span is at least a header long, ends inside the address space and
    is disjoint from the free blocks, the chain is again one of well-formed
    free blocks. *)
Theorem freelist_release_pushes_block (freelist : freelist_allocator) (m : memory)
    (ptr size : Z) (l : list Z) :
  ptr <> NULL ->
  0 <= size < SIZE_MAX_plus_1 ->
  0 <= freelist_free_list freelist < SIZE_MAX_plus_1 ->
  is_chain (node_next m) (freelist_free_list freelist) l ->
  let st := freelist_allocator_free freelist m ptr size in
  freelist_free_list st.1 = ptr /\
  node_size st.2 ptr = size /\
  node_next st.2 ptr = freelist_free_list freelist /\
  (forall a, a < ptr \/ ptr + sizeof_freelist_node <= a ->
     load_byte st.2 a = load_byte m a) /\
  ((forall q, q ∈ l -> q + sizeof_freelist_node <= ptr \/ ptr + sizeof_freelist_node <= q) ->
   is_chain (node_next st.2) (freelist_free_list st.1) (ptr :: l) /\
   (forall q, q ∈ l -> node_size st.2 q = node_size m q) /\
   (freelist_blocks_wf m l ->
    0 < ptr -> sizeof_freelist_node <= size -> ptr + size < SIZE_MAX_plus_1 ->
    (forall q, q ∈ l -> q + node_size m q <= ptr \/ ptr + size <= q) ->
    freelist_blocks_wf st.2 (ptr :: l))).
Proof.
  intros Hptr Hsize Hhead Hchain. cbv zeta. unfold freelist_allocator_free.
  destruct (Z.eqb_spec ptr NULL) as [| _]; [contradiction |].
  cbn [fst snd freelist_set_free_list freelist_free_list].
  unfold sizeof_freelist_node.
  assert (Hs : node_size (store_word (store_word m ptr size) (ptr + 8)
                            (freelist_free_list freelist)) ptr = size).
  { unfold node_size. rewrite load_store_word_other by lia.
    apply load_store_word_same. exact Hsize. }
  split; [reflexivity |]. split; [exact Hs |]. split; [| split].
  - unfold node_next. apply load_store_word_same. exact Hhead.
  - intros a Ha. rewrite !load_byte_store_word_other by lia. reflexivity.
  - intros Hapart.
    assert (Hsizes : forall q, q ∈ l ->
              node_size (store_word (store_word m ptr size) (ptr + 8)
                           (freelist_free_list freelist)) q = node_size m q).
    { intros q Hq. destruct (Hapart q Hq).
      + rewrite (proj1 (freelist_header_frame _ (ptr + 8) _ q ltac:(lia))).
        apply (freelist_header_frame _ ptr _ q). lia.
      + rewrite (proj1 (freelist_header_frame _ (ptr + 8) _ q ltac:(lia))).
        apply (freelist_header_frame _ ptr _ q). lia. }
    split; [| split; [exact Hsizes |]].
    + cbn [is_chain]. split; [exact Hptr |]. split; [reflexivity |].
      unfold node_next at 2. rewrite load_store_word_same by exact Hhead.
      revert Hchain. apply is_chain_ext. intros q Hq.
      destruct (Hapart q Hq).
      * rewrite (proj2 (freelist_header_frame _ (ptr + 8) _ q ltac:(lia))).
        apply (freelist_header_frame _ ptr _ q). lia.
      * rewrite (proj2 (freelist_header_frame _ (ptr + 8) _ q ltac:(lia))).
        apply (freelist_header_frame _ ptr _ q). lia.
    + intros Hwf Hpos Hlen Htop Hdisj.
      apply (freelist_blocks_wf_cons m _ l ptr Hwf Hsizes Hpos);
        rewrite Hs; unfold sizeof_freelist_node; assumption.
Qed.

Lemma freelist_release_pushes_block_witness :
  (* the released block [4096, 4160) is adjacent to the free block at 4160 *)
  let w := freelist_allocator_init ∅ 4096 1024 in
  let a := default (NULL, w) (freelist_allocator_alloc 1 w.1 w.2 64 8) in
  let st := freelist_allocator_free a.2.1 a.2.2 4096 64 in
  is_chain (node_next st.2) (freelist_free_list st.1) [4096; 4160] /\
  node_size st.2 4096 = 64 /\ node_size st.2 4160 = 960 /\
  freelist_blocks_wf st.2 [4096; 4160].
Proof.
  cbv zeta.
  set (a := default _ (freelist_allocator_alloc 1 _ _ 64 8)).
  assert (Hhead : freelist_free_list a.2.1 = 4160) by (vm_compute; reflexivity).
  assert (Hnext : node_next a.2.2 4160 = NULL) by (vm_compute; reflexivity).
  assert (Hs : node_size a.2.2 4160 = 960) by (vm_compute; reflexivity).
  clearbody a.
  destruct (freelist_release_pushes_block a.2.1 a.2.2 4096 64 [4160])
    as (_ & H2 & _ & _ & H5).
  - discriminate.
  - unfold SIZE_MAX_plus_1. lia.
  - rewrite Hhead. unfold SIZE_MAX_plus_1. lia.
  - cbn [is_chain]. rewrite Hhead, Hnext. repeat split; discriminate.
  - destruct H5 as (H5 & H6 & H7).
    { intros q ->%list_elem_of_singleton. unfold sizeof_freelist_node. lia. }
    split; [exact H5 |]. split; [exact H2 |]. split.
    + rewrite H6 by (apply list_elem_of_singleton; reflexivity). exact Hs.
    + apply H7.
      * split; [apply NoDup_singleton |]. split.
        -- intros n ->%list_elem_of_singleton. rewrite Hs.
           unfold sizeof_freelist_node, SIZE_MAX_plus_1. lia.
        -- intros n n' ->%list_elem_of_singleton ->%list_elem_of_singleton Hne.
           contradiction.
      * lia.
      * unfold sizeof_freelist_node. lia.
      * unfold SIZE_MAX_plus_1. lia.
      * intros q ->%list_elem_of_singleton. rewrite Hs. lia.
Defined.

(** A span shorter than a header, released next to a free block: the header
    written runs over the neighbour's, whose recorded size changes from 1016
    to the address 4104 stored as the new block's link. *)
Example freelist_release_short_span :
  let w := freelist_allocator_init ∅ 4096 1024 in
  let a := default (NULL, w) (freelist_allocator_alloc 1 w.1 w.2 8 8) in
  let st := freelist_allocator_free a.2.1 a.2.2 4096 8 in
  a.1 = 4096 /\ freelist_free_list a.2.1 = 4104 /\
  node_size a.2.2 4104 = 1016 /\ node_size st.2 4104 = 4104.
Proof. vm_compute. repeat split; reflexivity. Qed.

(** X19.  The freelist tries the block released last first: after a
    release of [s] bytes at [ptr], a request whose worst-case padded size
    [size + alignment - 1] does not exceed [s] is served from that block
    and returns [ptr] rounded up to the alignment. *)
Theorem freelist_reuses_released_block (freelist : freelist_allocator) (m : memory)
    (ptr s size k : Z) (f : nat) :
  0 <= k < 64 -> 0 < ptr -> ptr + 2 ^ k <= SIZE_MAX_plus_1 ->
  0 <= size -> size + 2 ^ k - 1 <= s -> s < SIZE_MAX_plus_1 ->
  let st := freelist_allocator_free freelist m ptr s in
  exists w,
    freelist_allocator_alloc (S f) st.1 st.2 size (2 ^ k)
    = Some (next_multiple ptr (2 ^ k), w).
Proof.
  intros Hk Hptr Htop Hsize Hfit Hs. cbv zeta.
  pose proof (pow2_bounds k Hk) as Ha.
  unfold freelist_allocator_free.
  destruct (Z.eqb_spec ptr NULL) as [Hn | _]; [unfold NULL in Hn; lia |].
  cbn [fst snd].
  set (m2 := store_word (store_word m ptr s) (ptr + 8) (freelist_free_list freelist)).
  assert (Hnode : node_size m2 ptr = s).
  { unfold node_size, m2. rewrite load_store_word_other by lia.
    apply load_store_word_same. lia. }
  unfold freelist_allocator_alloc.
  rewrite total_size_exact by lia.
  cbn [freelist_search freelist_set_free_list freelist_free_list].
  destruct (Z.eqb_spec ptr NULL) as [Hn | _]; [unfold NULL in Hn; lia |].
  rewrite freelist_fits_large by (rewrite ?Hnode; lia).
  eexists. f_equal. apply injective_projections; [| reflexivity].
  apply freelist_take_result.
Qed.

Lemma freelist_reuses_released_block_witness :
  let w := freelist_allocator_init ∅ 4096 1024 in
  let a := default (NULL, w) (freelist_allocator_alloc 1 w.1 w.2 128 8) in
  let st := freelist_allocator_free a.2.1 a.2.2 4096 128 in
  fst <$> freelist_allocator_alloc 1 st.1 st.2 100 (2 ^ 3) = Some 4096.
Proof.
  cbv zeta.
  set (a := default _ (freelist_allocator_alloc 1 _ _ 128 8)).
  destruct (freelist_reuses_released_block a.2.1 a.2.2 4096 128 100 3 0) as [w Hw];
    try (unfold SIZE_MAX_plus_1; lia).
  cbv zeta in Hw. rewrite Hw. reflexivity.
Defined.

(** X20.  A fresh freelist over [n] bytes serves a first request exactly
    when its worst-case padded size [size + alignment - 1] does not exceed
    [n], returning the buffer start rounded up to the alignment; a larger
    request fails and leaves the allocator and the memory as they were, so
    an [n]-byte request with an alignment above 1 is refused even when the
    buffer is aligned. *)
Theorem freelist_first_alloc (m0 : memory) (buffer n size k : Z) (f : nat) :
  0 <= k < 64 -> 0 < buffer -> buffer + 2 ^ k <= SIZE_MAX_plus_1 ->
  0 <= n < SIZE_MAX_plus_1 -> 0 <= size -> size + 2 ^ k - 1 < SIZE_MAX_plus_1 ->
  let st := freelist_allocator_init m0 buffer n in
  if size + 2 ^ k - 1 <=? n
  then exists w, freelist_allocator_alloc (S f) st.1 st.2 size (2 ^ k)
                 = Some (next_multiple buffer (2 ^ k), w)
  else freelist_allocator_alloc (S (S f)) st.1 st.2 size (2 ^ k) = Some (NULL, st).
Proof.
  intros Hk Hbuf Htop Hn Hsize Hov. cbv zeta.
  pose proof (pow2_bounds k Hk) as Ha.
  unfold freelist_allocator_init.
  set (m2 := store_word (store_word m0 buffer n) (buffer + 8) NULL).
  cbn [fst snd].
  assert (Hnode : node_size m2 buffer = n).
  { unfold node_size, m2. rewrite load_store_word_other by lia.
    apply load_store_word_same. lia. }
  assert (Hnext : node_next m2 buffer = NULL).
  { unfold node_next, m2. apply load_store_word_same. unfold NULL, SIZE_MAX_plus_1. lia. }
  assert (Htotal : wrap (wrap (size + 2 ^ k) - 1) = size + 2 ^ k - 1)
    by (apply total_size_exact; lia).
  destruct (Z.leb_spec (size + 2 ^ k - 1) n) as [Hfit | Hbig].
  - unfold freelist_allocator_alloc. rewrite Htotal.
    cbn [freelist_search freelist_free_list].
    destruct (Z.eqb_spec buffer NULL) as [Hnull | _]; [unfold NULL in Hnull; lia |].
    rewrite freelist_fits_large by (rewrite ?Hnode; lia).
    eexists. f_equal. apply injective_projections; [| reflexivity].
    apply freelist_take_result.
  - apply (freelist_alloc_none_fit _ m2 size (2 ^ k) [buffer] f).
    + cbn [is_chain freelist_free_list]. rewrite Hnext.
      split; [unfold NULL; lia |]. split; reflexivity.
    + apply Forall_singleton. rewrite Htotal, Hnode. lia.
Qed.

Lemma freelist_first_alloc_witness :
  let st := freelist_allocator_init ∅ 4096 1024 in
  fst <$> freelist_allocator_alloc 1 st.1 st.2 1017 (2 ^ 3) = Some 4096 /\
  freelist_allocator_alloc 2 st.1 st.2 1024 (2 ^ 3) = Some (NULL, st).
Proof.
  cbv zeta. split.
  - pose proof (freelist_first_alloc ∅ 4096 1024 1017 3 0) as H.
    cbv zeta in H. change (1017 + 2 ^ 3 - 1 <=? 1024) with true in H. cbn iota in H.
    destruct H as [w Hw]; try (unfold SIZE_MAX_plus_1; lia).
    rewrite Hw. reflexivity.
  - pose proof (freelist_first_alloc ∅ 4096 1024 1024 3 0) as H.
    cbv zeta in H. change (1024 + 2 ^ 3 - 1 <=? 1024) with false in H. cbn iota in H.
    apply H; unfold SIZE_MAX_plus_1; lia.
Defined.

Lemma freelist_search_result fuel : forall freelist m size k total_size prev_ptr node l r w,
  0 <= k < 64 ->
  is_chain (node_next m) node l -> freelist_nodes_placed l (2 ^ k) ->
  freelist_search fuel freelist m size (2 ^ k) total_size prev_ptr node = Some (r, w) ->
  r = NULL \/
  exists n, n ∈ l /\ r = next_multiple n (2 ^ k) /\
            wrap (size + (r - n)) <= node_size m n.
Proof.
  induction fuel as [| fuel IH]; intros freelist m size k total_size prev_ptr node l r w
    Hk Hchain Hplaced; simpl; [discriminate |].
  destruct (Z.eqb_spec node NULL) as [-> | Hnode]; [intros [= <- _]; left; reflexivity |].
  destruct l as [| q l]; simpl in Hchain; [contradiction |].
  destruct Hchain as (_ & -> & Hchain).
  apply Forall_cons in Hplaced as [[Hpos Htop] Hplaced].
  pose proof (pow2_bounds k Hk) as Ha.
  destruct (freelist_fits m size (2 ^ k) total_size node) as [[aligned_addr padding] |] eqn:Hfits.
  - intros [= Hres]. right. exists node.
    apply (f_equal fst) in Hres. rewrite freelist_take_result in Hres. simpl in Hres.
    apply freelist_fits_Some in Hfits as (Haddr & Hpad & _ & Hroom).
    rewrite align_forward_pow2 in Haddr by lia.
    subst r aligned_addr padding.
    pose proof (next_multiple_bounds node (2 ^ k) ltac:(lia)) as [Hb _].
    rewrite (wrap_small (next_multiple node (2 ^ k) - node)) in Hroom by lia.
    split; [left |]. split; [reflexivity | lia].
  - intros Hsearch.
    destruct (IH _ _ _ _ _ _ _ l r w Hk Hchain Hplaced Hsearch) as [Hr | (n & Hn & Hrest)].
    + left. exact Hr.
    + right. exists n. split; [right; exact Hn | exact Hrest].
Qed.

(** X21.  For a request whose size plus alignment stays within [size_t],
    every pointer the freelist returns is a multiple of the alignment, and a
    non-null one is the start of a block that was on the free chain,
    rounded up to the alignment, with the whole request inside that
    block. *)
Theorem freelist_alloc_result (fuel : nat) (freelist : freelist_allocator) (m : memory)
    (size k : Z) (l : list Z) (r : Z) (w : freelist_allocator * memory) :
  0 <= k < 64 ->
  0 <= size -> size + 2 ^ k <= SIZE_MAX_plus_1 ->
  is_chain (node_next m) (freelist_free_list freelist) l ->
  freelist_nodes_placed l (2 ^ k) ->
  freelist_allocator_alloc fuel freelist m size (2 ^ k) = Some (r, w) ->
  r mod 2 ^ k = 0 /\
  (r <> NULL ->
   exists n, n ∈ l /\ r = next_multiple n (2 ^ k) /\ n <= r < n + 2 ^ k /\
             r + size <= n + node_size m n).
Proof.
  intros Hk Hsize Hov Hchain Hplaced Halloc. pose proof (pow2_bounds k Hk) as Ha.
  destruct (freelist_search_result _ _ _ _ _ _ _ _ l r w Hk Hchain Hplaced Halloc)
    as [-> | (n & Hn & -> & Hroom)].
  - split; [apply Z.mod_0_l; lia | intros H; contradiction].
  - destruct (next_multiple_bounds n (2 ^ k) ltac:(lia)) as [Hb Hm].
    split; [exact Hm |]. intros _. exists n. split; [exact Hn |].
    split; [reflexivity |]. split; [exact Hb |].
    rewrite wrap_small in Hroom by lia. lia.
Qed.

Lemma freelist_alloc_result_witness :
  (* a free block at the unaligned address 4099: a 16-aligned request gets 4112 *)
  let st := freelist_allocator_init ∅ 4099 1024 in
  fst <$> freelist_allocator_alloc 1 st.1 st.2 64 (2 ^ 4) = Some 4112 /\
  4112 mod 2 ^ 4 = 0 /\
  4112 + 64 <= 4099 + node_size st.2 4099.
Proof.
  cbv zeta.
  set (st := freelist_allocator_init ∅ 4099 1024).
  assert (Hhead : freelist_free_list st.1 = 4099) by reflexivity.
  assert (Hnext : node_next st.2 4099 = NULL) by (vm_compute; reflexivity).
  assert (Hres : fst <$> freelist_allocator_alloc 1 st.1 st.2 64 (2 ^ 4) = Some 4112)
    by (vm_compute; reflexivity).
  split; [exact Hres |].
  destruct (freelist_allocator_alloc 1 st.1 st.2 64 (2 ^ 4)) as [[r w] |] eqn:Halloc;
    [| discriminate].
  simpl in Hres. injection Hres as ->.
  destruct (freelist_alloc_result 1 st.1 st.2 64 4 [4099] 4112 w) as [Hmod Hblock].
  - lia.
  - lia.
  - unfold SIZE_MAX_plus_1. lia.
  - cbn [is_chain]. rewrite Hhead, Hnext. repeat split; discriminate.
  - unfold freelist_nodes_placed. rewrite Forall_singleton. unfold SIZE_MAX_plus_1. lia.
  - exact Halloc.
  - split; [exact Hmod |].
    destruct (Hblock ltac:(discriminate)) as (n & ->%list_elem_of_singleton & _ & _ & Hin).
    exact Hin.
Defined.

(** X23.  The freelist never resizes in place: when its reallocate of a
    non-null pointer succeeds, the returned pointer is the aligned start of
    a block that was on the free chain, and the old block has been pushed
    at the head of the chain with [old_size] recorded as its size. *)
Theorem freelist_realloc_moves (fuel : nat) (freelist : freelist_allocator) (m : memory)
    (ptr old_size new_size k : Z) (l : list Z) (r : Z) (w : freelist_allocator * memory) :
  0 <= k < 64 ->
  is_chain (node_next m) (freelist_free_list freelist) l ->
  freelist_nodes_placed l (2 ^ k) ->
  ptr <> NULL -> 0 <= old_size < SIZE_MAX_plus_1 ->
  freelist_allocator_realloc fuel freelist m ptr old_size new_size (2 ^ k) = Some (r, w) ->
  r <> NULL ->
  (exists n, n ∈ l /\ r = next_multiple n (2 ^ k)) /\
  freelist_free_list w.1 = ptr /\
  node_size w.2 ptr = old_size.
Proof.
  intros Hk Hchain Hplaced Hptr Hold. unfold freelist_allocator_realloc.
  destruct (Z.eqb_spec ptr NULL) as [| _]; [contradiction |].
  destruct (freelist_allocator_alloc fuel freelist m new_size (2 ^ k))
    as [[new_ptr [freelist1 m1]] |] eqn:Halloc; [| discriminate].
  destruct (Z.eqb_spec new_ptr NULL) as [-> | Hnew]; cbn [negb andb].
  - intros [= <- _] Hr. contradiction.
  - intros [= <- <-] _.
    destruct (freelist_search_result _ _ _ _ _ _ _ _ l new_ptr _ Hk Hchain Hplaced Halloc)
      as [Hn | (n & Hn & Hr & _)]; [contradiction |].
    split; [exists n; split; assumption |].
    unfold freelist_allocator_free.
    destruct (Z.eqb_spec ptr NULL) as [| _]; [contradiction |].
    cbn [fst snd freelist_set_free_list freelist_free_list].
    split; [reflexivity |].
    unfold node_size. rewrite load_store_word_other by lia.
    apply load_store_word_same. exact Hold.
Qed.

Lemma freelist_realloc_moves_witness :
  let w0 := freelist_allocator_init ∅ 4096 1024 in
  let a := default (NULL, w0) (freelist_allocator_alloc 1 w0.1 w0.2 64 8) in
  let res := default (NULL, a.2) (freelist_allocator_realloc 1 a.2.1 a.2.2 4096 64 32 (2 ^ 3)) in
  res.1 = 4160 /\ freelist_free_list res.2.1 = 4096 /\ node_size res.2.2 4096 = 64.
Proof.
  cbv zeta.
  set (a := default _ (freelist_allocator_alloc 1 _ _ 64 8)).
  assert (Hhead : freelist_free_list a.2.1 = 4160) by (vm_compute; reflexivity).
  assert (Hnext : node_next a.2.2 4160 = NULL) by (vm_compute; reflexivity).
  assert (Hres : fst <$> freelist_allocator_realloc 1 a.2.1 a.2.2 4096 64 32 (2 ^ 3)
                 = Some 4160) by (vm_compute; reflexivity).
  clearbody a.
  destruct (freelist_allocator_realloc 1 a.2.1 a.2.2 4096 64 32 (2 ^ 3))
    as [[r w] |] eqn:Hrealloc; [| discriminate].
  simpl in Hres. injection Hres as ->. cbn [default fst snd].
  destruct (freelist_realloc_moves 1 a.2.1 a.2.2 4096 64 32 3 [4160] 4160 w) as (_ & H2 & H3).
  - lia.
  - cbn [is_chain]. rewrite Hhead, Hnext. repeat split; discriminate.
  - unfold freelist_nodes_placed. rewrite Forall_singleton. unfold SIZE_MAX_plus_1. lia.
  - discriminate.
  - unfold SIZE_MAX_plus_1. lia.
  - exact Hrealloc.
  - discriminate.
  - split; [reflexivity |]. split; [exact H2 | exact H3].
Defined.

(** * Further properties: releases in stack order, creation through the interface *)

Lemma stack_free_exact stack p s :
  p <> NULL ->
  0 <= stack_buffer stack <= p ->
  0 <= s -> p + s < SIZE_MAX_plus_1 ->
  0 <= stack_offset stack -> stack_buffer stack + stack_offset stack < SIZE_MAX_plus_1 ->
  stack_allocator_free stack p s =
    if p + s =? stack_buffer stack + stack_offset stack
    then stack_set_offset stack (p - stack_buffer stack) else stack.
Proof.
  intros Hp Hbuf Hs Htop Hoff Hcur. unfold stack_allocator_free.
  destruct (Z.eqb_spec p NULL) as [| _]; [contradiction |].
  rewrite (wrap_small (p + s)) by lia.
  rewrite (wrap_small (stack_buffer stack + stack_offset stack)) by lia.
  rewrite (wrap_small (p - stack_buffer stack)) by lia.
  reflexivity.
Qed.

(** X24.  Releasing two stack blocks in reverse order rewinds the cursor
    through the first block only when no alignment padding separates the
    two: after allocating A then B and releasing B then A, the cursor is at
    the start of A if B began exactly where A ended, and otherwise stays at
    the start of B, the release of A being ignored. *)
Theorem stack_lifo_release_stops_at_padding (stack : stack_allocator)
    (size_a k_a size_b k_b : Z) :
  0 <= k_a < 64 -> 0 <= k_b < 64 ->
  stack_placed stack (2 ^ k_a) -> stack_placed stack (2 ^ k_b) ->
  request_ok (stack_buffer_size stack) size_a k_a ->
  request_ok (stack_buffer_size stack) size_b k_b ->
  let ra := stack_allocator_alloc stack size_a (2 ^ k_a) in
  let rb := stack_allocator_alloc ra.2 size_b (2 ^ k_b) in
  ra.1 <> NULL -> rb.1 <> NULL ->
  let released := stack_allocator_free (stack_allocator_free rb.2 rb.1 size_b) ra.1 size_a in
  stack_offset released =
    if stack_offset ra.2 mod 2 ^ k_b =? 0
    then ra.1 - stack_buffer stack
    else rb.1 - stack_buffer stack.
Proof.
  intros Hka Hkb Hpa Hpb Hra Hrb. cbv zeta.
  rewrite (stack_alloc_spec stack size_a k_a Hka Hpa Hra).
  pose proof Hpa as (Hbuf & Hfita & Hinv). pose proof Hpb as (_ & Hfitb & _).
  pose proof Hra as [Hsa _]. pose proof Hrb as [Hsb Hrb'].
  pose proof (pow2_bounds k_a Hka) as Haa. pose proof (pow2_bounds k_b Hkb) as Hab.
  destruct (next_multiple_bounds (stack_offset stack) (2 ^ k_a) ltac:(lia)) as [Hba _].
  set (a1 := next_multiple (stack_offset stack) (2 ^ k_a)) in *.
  destruct (Z.gtb_spec (a1 + size_a) (stack_buffer_size stack)) as [| Hlea];
    cbn [fst snd]; [intros; contradiction |].
  set (stack1 := stack_set_offset stack (a1 + size_a)).
  assert (Hp1 : stack_placed stack1 (2 ^ k_b)) by (unfold stack_placed, stack1; simpl; lia).
  rewrite (stack_alloc_spec stack1 size_b k_b Hkb Hp1 Hrb).
  unfold stack1. clear Hp1 stack1.
  cbn [stack_set_offset stack_offset stack_buffer stack_buffer_size].
  destruct (next_multiple_bounds (a1 + size_a) (2 ^ k_b) ltac:(lia)) as [Hbb Hmb].
  set (a2 := next_multiple (a1 + size_a) (2 ^ k_b)) in *.
  destruct (Z.gtb_spec (a2 + size_b) (stack_buffer_size stack)) as [| Hleb];
    cbn [fst snd]; [intros; contradiction |].
  intros _ _.
  rewrite (stack_free_exact _ (stack_buffer stack + a2) size_b)
    by (unfold NULL; simpl; lia).
  cbn [stack_set_offset stack_offset stack_buffer].
  replace (stack_buffer stack + (a2 + size_b)) with (stack_buffer stack + a2 + size_b) by lia.
  rewrite Z.eqb_refl.
  rewrite (stack_free_exact _ (stack_buffer stack + a1) size_a)
    by (unfold NULL; simpl; lia).
  cbn [stack_set_offset stack_offset stack_buffer].
  replace (stack_buffer stack + a2 - stack_buffer stack) with a2 by lia.
  replace (stack_buffer stack + a1 - stack_buffer stack) with a1 by lia.
  destruct (Z.eqb_spec ((a1 + size_a) mod 2 ^ k_b) 0) as [Hal | Hunal].
  - assert (a2 = a1 + size_a) as -> by (apply next_multiple_aligned; lia).
    replace (stack_buffer stack + a1 + size_a) with (stack_buffer stack + (a1 + size_a)) by lia.
    rewrite Z.eqb_refl. reflexivity.
  - assert (a2 <> a1 + size_a) by (intros Heq; rewrite Heq in Hmb; contradiction).
    destruct (Z.eqb_spec (stack_buffer stack + a1 + size_a) (stack_buffer stack + a2));
      [lia | reflexivity].
Qed.

Lemma stack_lifo_release_stops_at_padding_witness :
  let stack := stack_allocator_init 8192 512 in
  let ra := stack_allocator_alloc stack 4 (2 ^ 3) in
  let rb := stack_allocator_alloc ra.2 4 (2 ^ 3) in
  (ra.1, rb.1) = (8192, 8200) /\
  (* A occupies [0, 4), B starts at 8: releasing B then A leaves the cursor at 8 *)
  stack_offset (stack_allocator_free (stack_allocator_free rb.2 rb.1 4) ra.1 4) = 8.
Proof.
  cbv zeta.
  set (stack := stack_allocator_init 8192 512).
  assert (Hra : (stack_allocator_alloc stack 4 (2 ^ 3)).1 = 8192) by (vm_compute; reflexivity).
  assert (Hrb : (stack_allocator_alloc (stack_allocator_alloc stack 4 (2 ^ 3)).2 4 (2 ^ 3)).1
                = 8200) by (vm_compute; reflexivity).
  split; [rewrite Hra, Hrb; reflexivity |].
  pose proof (stack_lifo_release_stops_at_padding stack 4 3 4 3) as H.
  cbv zeta in H. rewrite H.
  - rewrite Hrb. vm_compute. reflexivity.
  - lia.
  - lia.
  - unfold stack_placed, SIZE_MAX_plus_1. simpl. lia.
  - unfold stack_placed, SIZE_MAX_plus_1. simpl. lia.
  - unfold request_ok, SIZE_MAX_plus_1. simpl. lia.
  - unfold request_ok, SIZE_MAX_plus_1. simpl. lia.
  - rewrite Hra. discriminate.
  - rewrite Hrb. discriminate.
Defined.

Lemma next_multiple_shift a s c : 0 < c -> a mod c = 0 ->
  next_multiple (a + s) c = a + next_multiple s c.
Proof.
  intros Hc Ha. unfold next_multiple.
  apply Z.mod_divide in Ha; [| lia]. destruct Ha as [q ->].
  replace (q * c + s + c - 1) with ((s + c - 1) + q * c) by lia.
  rewrite Z.div_add by lia. lia.
Qed.

Lemma alloc_create_arena arena (m : memory) size :
  alloc_create arena_allocator_get (arena, m) size =
  ((arena_allocator_alloc arena size (2 ^ 3)).1,
   ((arena_allocator_alloc arena size (2 ^ 3)).2, m)).
Proof.
  unfold alloc_create, alloc_alloc, sizeof_ptr. cbn [alloc arena_allocator_get].
  change (2 ^ 3) with 8.
  destruct (arena_allocator_alloc arena size 8); reflexivity.
Qed.

(** X25.  Objects created on an arena through the interface shorthand
    [alloc_create] are pointer-aligned inside the buffer and packed with
    the size rounded up to the pointer size: two creations in a row that
    succeed return pointers that differ by the first size rounded up to a
    multiple of 8. *)
Theorem arena_create_spacing (arena : arena_allocator) (m : memory) (size1 size2 : Z) :
  arena_placed arena (2 ^ 3) ->
  request_ok (arena_buffer_size arena) size1 3 ->
  request_ok (arena_buffer_size arena) size2 3 ->
  let r1 := alloc_create arena_allocator_get (arena, m) size1 in
  let r2 := alloc_create arena_allocator_get r1.2 size2 in
  r1.1 <> NULL -> r2.1 <> NULL ->
  (r1.1 - arena_buffer arena) mod 8 = 0 /\
  r2.1 = r1.1 + next_multiple size1 8 /\
  r2.2.2 = m.
Proof.
  intros Hplaced Hr1 Hr2. cbv zeta.
  rewrite alloc_create_arena. cbn [fst snd]. rewrite alloc_create_arena. cbn [fst snd].
  pose proof (arena_alloc_success arena size1 3 ltac:(lia) Hplaced Hr1) as H1.
  destruct (arena_allocator_alloc arena size1 (2 ^ 3)) as [p1 arena1].
  cbn [fst snd] in H1 |- *.
  intros Hp1. destruct (H1 Hp1) as (Hp1eq & Harena1 & _ & _ & Hplaced1).
  assert (Hs1 : arena_buffer_size arena1 = arena_buffer_size arena)
    by (rewrite Harena1; reflexivity).
  rewrite <- Hs1 in Hr2.
  pose proof (arena_alloc_success arena1 size2 3 ltac:(lia) Hplaced1 Hr2) as H2.
  destruct (arena_allocator_alloc arena1 size2 (2 ^ 3)) as [p2 arena2].
  cbn [fst snd] in H2 |- *.
  intros Hp2. destruct (H2 Hp2) as (Hp2eq & _).
  destruct (next_multiple_bounds (arena_offset arena) (2 ^ 3) ltac:(lia)) as [_ Hm].
  split; [| split; [| reflexivity]].
  - rewrite Hp1eq.
    replace (arena_buffer arena + next_multiple (arena_offset arena) (2 ^ 3)
             - arena_buffer arena)
      with (next_multiple (arena_offset arena) (2 ^ 3)) by lia.
    exact Hm.
  - rewrite Hp2eq, Hp1eq, Harena1. cbn [arena_set_offset arena_buffer arena_offset].
    rewrite (next_multiple_shift _ size1 (2 ^ 3)) by (exact Hm || lia).
    change (2 ^ 3) with 8. lia.
Qed.

Lemma arena_create_spacing_witness :
  (* the two 4-byte objects of the demonstration driver sit at offsets 0 and 8 *)
  let r1 := alloc_create arena_allocator_get (arena_allocator_init 4096 1024, ∅) 4 in
  let r2 := alloc_create arena_allocator_get r1.2 4 in
  (r1.1, r2.1, arena_offset r2.2.1) = (4096, 4104, 12).
Proof.
  cbv zeta.
  set (r1 := alloc_create arena_allocator_get (arena_allocator_init 4096 1024, ∅) 4).
  assert (H1 : r1.1 = 4096) by (vm_compute; reflexivity).
  assert (H2 : (alloc_create arena_allocator_get r1.2 4).1 = 4104)
    by (vm_compute; reflexivity).
  assert (H3 : arena_offset (alloc_create arena_allocator_get r1.2 4).2.1 = 12)
    by (vm_compute; reflexivity).
  pose proof (arena_create_spacing (arena_allocator_init 4096 1024) ∅ 4 4) as H.
  cbv zeta in H. fold r1 in H.
  destruct H as (_ & Hsp & _).
  - unfold arena_placed, arena_inv, SIZE_MAX_plus_1. simpl. lia.
  - unfold request_ok, SIZE_MAX_plus_1. simpl. lia.
  - unfold request_ok, SIZE_MAX_plus_1. simpl. lia.
  - rewrite H1. discriminate.
  - rewrite H2. discriminate.
  - rewrite H3, Hsp, H1. vm_compute. reflexivity.
Defined.

